(** * The Adam optimizer of tfjs-core: [src/optimizers/adam_optimizer.ts]

    A shallow embedding of [AdamOptimizer] (constructor, [applyGradients],
    [afterBatch]) and the properties of its update rule.

    Modelling conventions.
    - Numbers are real numbers ([R]): the update rule is studied in exact
      arithmetic, not in the tensors' floating point.  Division is [Rdiv],
      which is total; the section on divisors shows that the divisors the
      code uses are nonzero on the states it can reach.
    - A [Scalar] (rank-0 tensor built by [scalar(x)]) is a real number.
    - A [Tensor] is a shape and a flat buffer of values.  Tensors are
      immutable values.  The gradients passed in are such values, not
      variables of the engine.  The operations of two tensors are the
      operations on one shape; what the library does with operands of
      different shapes (it broadcasts some) is outside the model, and no
      theorem concludes from a mismatch of shapes to an exception.
    - Variables are modelled at two levels.  At the first, a variable is a
      slot of a finite map that [assign] overwrites: the moment maps hold
      tensors by name, and [registeredVariables] holds the values of the
      parameters; the variables that lines 64 and 69 build for the moments
      are not entered in it.  At the second (module [Aliasing]) the
      variables are the objects of the engine: every variable, a moment
      included, is registered under its name, which a counter generates
      when none is given, and the moment maps hold variables.  The part on
      the engine's variables shows that the first level is what the second
      computes for the names of trainable variables, and what happens for
      the name of a moment variable.
    - The JS objects used as dictionaries ([NamedVariableMap],
      [registeredVariables]) are finite maps on their own properties; the
      object iterated by [for ... in] is an association list in iteration
      order, with distinct keys.
    - A thrown exception is [None] and ends the run: the partly updated
      state a throwing call leaves behind is not modelled.  [tidy] and
      [keep] only manage memory and are the identity here; so is [dispose],
      except where the code goes on to read what it disposed ([afterBatch],
      line 166). *)

From Stdlib Require Import Reals Lra.
From stdpp Require Import gmap strings list fin_maps pretty.

#[local] Open Scope R_scope.

(** ** Tensors *)

Definition Scalar := R.

Record Tensor := mkTensor { shape : list nat; values : list R }.

(** Modelled from the spec: the [Tensor] collaborator ("elementwise
    [+ - * /], [square()], [sqrt()], scalar broadcast, [zerosLike],
    in-place [assign]"; "ShapeMismatch - gradient/parameter/moment shapes
    disagree").  Two tensors agree in shape when their shapes and buffer
    sizes are equal. *)
Definition sameShape (a b : Tensor) : bool :=
  bool_decide (shape a = shape b) && bool_decide (length (values a) = length (values b)).

(** Modelled from the spec: elementwise operation of two tensors of one
    shape ("ShapeMismatch ... must propagate from the Tensor collaborator").
    Operands of different shapes are outside the model: the result [None]
    stands for them, also where the library would broadcast. *)
Definition elementwise (f : R → R → R) (a b : Tensor) : option Tensor :=
  if sameShape a b
  then Some (mkTensor (shape a) (zip_with f (values a) (values b)))
  else None.

(** Modelled from the spec: scalar broadcast, the scalar on the left
    ([s.mul(t)], [s.add(t)]) or on the right ([t.div(s)]). *)
Definition broadcastL (f : R → R → R) (s : Scalar) (a : Tensor) : Tensor :=
  mkTensor (shape a) (f s <$> values a).

Definition broadcastR (f : R → R → R) (a : Tensor) (s : Scalar) : Tensor :=
  mkTensor (shape a) ((λ x, f x s) <$> values a).

Definition unary (f : R → R) (a : Tensor) : Tensor :=
  mkTensor (shape a) (f <$> values a).

Definition add : Tensor → Tensor → option Tensor := elementwise Rplus.
Definition div : Tensor → Tensor → option Tensor := elementwise Rdiv.
Definition smul : Scalar → Tensor → Tensor := broadcastL Rmult.
Definition sadd : Scalar → Tensor → Tensor := broadcastL Rplus.
Definition divs : Tensor → Scalar → Tensor := broadcastR Rdiv.
Definition square : Tensor → Tensor := unary (λ x, x * x).
Definition tsqrt : Tensor → Tensor := unary sqrt.

Definition zerosLike (x : Tensor) : Tensor :=
  mkTensor (shape x) (replicate (length (values x)) 0).

(** Modelled from the spec: [Variable.assign(newValue)] replaces the content
    of a variable and keeps its identity; the new value must have the
    variable's shape. *)
Definition assign (var newValue : Tensor) : option Tensor :=
  if sameShape var newValue then Some newValue else None.

(** Modelled from the spec: [math.scaledArrayAdd(c1, a, c2, b)] is the fused
    primitive [c1*a + c2*b]. *)
Definition scaledArrayAdd (c1 : Scalar) (a : Tensor) (c2 : Scalar) (b : Tensor)
  : option Tensor :=
  add (smul c1 a) (smul c2 b).

(** ** The optimizer object *)

Abbreviation NamedVariableMap := (gmap string Tensor).

(** [TensorArrayMap]: a dictionary keyed by the [id] of a graph tensor;
    [get] throws on a missing key. *)
Abbreviation TensorArrayMap := (gmap nat Tensor).

Record SymbolicTensor := mkSymbolicTensor { id : nat; symShape : list nat }.

Record Node := mkNode { output : SymbolicTensor; data : Tensor }.

(** The members inherited from the base class [Optimizer] that this file
    reads; they are set by the base class, whose code is not part of this
    file, and are taken as given. *)
Record Optimizer := mkOptimizer {
  cGraph : Scalar;
  variableNodes : list Node;
  variableGradients : TensorArrayMap
}.

Record AdamOptimizer := mkAdam {
  base : Optimizer;
  c : Scalar;
  eps : Scalar;
  beta1 : Scalar;
  beta2 : Scalar;
  accBeta1 : Scalar;
  accBeta2 : Scalar;
  one : Scalar;
  accumulatedFirstMoment : NamedVariableMap;
  accumulatedSecondMoment : NamedVariableMap;
  firstMomentGraph : TensorArrayMap;
  secondMomentGraph : TensorArrayMap
}.

(** The optimizer together with the values of the parameters in the global
    [ENV.engine.registeredVariables]. *)
Record Env := mkEnv {
  optimizer : AdamOptimizer;
  registeredVariables : NamedVariableMap
}.

(** [constructor(learningRate, beta1, beta2, epsilon = 1e-8)]; [super_] is
    the object the base-class constructor leaves. *)
Definition new_AdamOptimizer (super_ : Optimizer)
    (learningRate beta1_ beta2_ : R) (epsilon : option R) : AdamOptimizer :=
  {| base := super_;
     c := - learningRate;
     eps := default (1 / 100000000) epsilon;
     beta1 := beta1_;
     beta2 := beta2_;
     accBeta1 := beta1_;
     accBeta2 := beta2_;
     one := 1;
     accumulatedFirstMoment := ∅;
     accumulatedSecondMoment := ∅;
     firstMomentGraph := ∅;
     secondMomentGraph := ∅ |}.

Definition setMoments (o : AdamOptimizer) (m1 m2 : NamedVariableMap) : AdamOptimizer :=
  {| base := base o; c := c o; eps := eps o; beta1 := beta1 o; beta2 := beta2 o;
     accBeta1 := accBeta1 o; accBeta2 := accBeta2 o; one := one o;
     accumulatedFirstMoment := m1; accumulatedSecondMoment := m2;
     firstMomentGraph := firstMomentGraph o;
     secondMomentGraph := secondMomentGraph o |}.

Definition setAcc (o : AdamOptimizer) (a1 a2 : Scalar) : AdamOptimizer :=
  {| base := base o; c := c o; eps := eps o; beta1 := beta1 o; beta2 := beta2 o;
     accBeta1 := a1; accBeta2 := a2; one := one o;
     accumulatedFirstMoment := accumulatedFirstMoment o;
     accumulatedSecondMoment := accumulatedSecondMoment o;
     firstMomentGraph := firstMomentGraph o;
     secondMomentGraph := secondMomentGraph o |}.

(** ** [applyGradients] *)

(** Lines 62-71: [if (m[variableName] == null) m[variableName] =
    variable(zerosLike(value), false)].  [value] is [None] when the name is
    not registered, and [zerosLike(undefined)] throws.  The moment is kept
    as the tensor it holds; that [variable] also registers it in the engine
    is modelled in [Aliasing.materialize]. *)
Definition materialize (m : NamedVariableMap) (variableName : string)
    (value : option Tensor) : option NamedVariableMap :=
  match m !! variableName with
  | Some _ => Some m
  | None => v ← value; Some (<[variableName := zerosLike v]> m)
  end.

(** Lines 77-97, the body of [tidy]: the new first moment, the new second
    moment and the new value. *)
Definition tidyUpdate (o : AdamOptimizer) (firstMoment secondMoment gradient : Tensor)
    (value : option Tensor) : option (Tensor * Tensor * Tensor) :=
  newFirstMoment ←
    add (smul (beta1 o) firstMoment) (smul (one o - beta1 o) gradient);
  newSecondMoment ←
    add (smul (beta2 o) secondMoment) (smul (one o - beta2 o) (square gradient));
  let biasCorrectedFirstMoment := divs newFirstMoment (one o - accBeta1 o) in
  let biasCorrectedSecondMoment := divs newSecondMoment (one o - accBeta2 o) in
  first' ← assign firstMoment newFirstMoment;
  second' ← assign secondMoment newSecondMoment;
  quotient ←
    div biasCorrectedFirstMoment (sadd (eps o) (tsqrt biasCorrectedSecondMoment));
  v ← value;
  newValue ← add (smul (c o) quotient) v;
  value' ← assign v newValue;
  Some (first', second', value').

(** Lines 61-97: one iteration of the [for ... in] loop. *)
Definition updateVariable (e : Env) (variableName : string) (gradient : Tensor)
    : option Env :=
  let o := optimizer e in
  let value := registeredVariables e !! variableName in
  m1 ← materialize (accumulatedFirstMoment o) variableName value;
  m2 ← materialize (accumulatedSecondMoment o) variableName value;
  firstMoment ← m1 !! variableName;
  secondMoment ← m2 !! variableName;
  '(first', second', value') ← tidyUpdate o firstMoment secondMoment gradient value;
  Some {| optimizer :=
            setMoments o (<[variableName := first']> m1) (<[variableName := second']> m2);
          registeredVariables := <[variableName := value']> (registeredVariables e) |}.

(** Lines 60-98: the loop over the own keys of [variableGradients]. *)
Fixpoint forIn (e : Env) (variableGradients_ : list (string * Tensor)) : option Env :=
  match variableGradients_ with
  | [] => Some e
  | (variableName, gradient) :: rest =>
      e' ← updateVariable e variableName gradient; forIn e' rest
  end.

(** Lines 100-108: the accumulators are replaced by their products with
    [beta1] and [beta2]. *)
Definition advance (o : AdamOptimizer) : AdamOptimizer :=
  setAcc o (accBeta1 o * beta1 o) (accBeta2 o * beta2 o).

Definition applyGradients (e : Env) (variableGradients_ : list (string * Tensor))
    : option Env :=
  e' ← forIn e variableGradients_;
  Some {| optimizer := advance (optimizer e');
          registeredVariables := registeredVariables e' |}.

(** A sequence of calls; a call that throws ends the run. *)
Fixpoint applyAll (e : Env) (calls : list (list (string * Tensor))) : option Env :=
  match calls with
  | [] => Some e
  | g :: rest => e' ← applyGradients e g; applyAll e' rest
  end.

(** ** [afterBatch], the graph-execution update *)

Definition setGraph (o : AdamOptimizer) (b : Optimizer) (g1 g2 : TensorArrayMap)
    : AdamOptimizer :=
  {| base := b; c := c o; eps := eps o; beta1 := beta1 o; beta2 := beta2 o;
     accBeta1 := accBeta1 o; accBeta2 := accBeta2 o; one := one o;
     accumulatedFirstMoment := accumulatedFirstMoment o;
     accumulatedSecondMoment := accumulatedSecondMoment o;
     firstMomentGraph := g1; secondMomentGraph := g2 |}.

(** The optimizer together with the session's [activationArrayMap]. *)
Record GraphEnv := mkGraphEnv {
  graphOptimizer : AdamOptimizer;
  activationArrayMap : TensorArrayMap
}.

(** Lines 138-158: what one node's iteration computes: the new first
    moment, the new second moment and the new variable. *)
Definition nodeUpdate (o : AdamOptimizer)
    (oldFirstMoment oldSecondMoment gradient oldVariable : Tensor)
    : option (Tensor * Tensor * Tensor) :=
  newFirstMoment ←
    scaledArrayAdd (beta1 o) oldFirstMoment (one o - beta1 o) gradient;
  newSecondMoment ←
    scaledArrayAdd (beta2 o) oldSecondMoment (one o - beta2 o) (square gradient);
  let biasCorrectedFirstMoment := divs newFirstMoment (one o - accBeta1 o) in
  let biasCorrectedSecondMoment := divs newSecondMoment (one o - accBeta2 o) in
  quotient ←
    div biasCorrectedFirstMoment (sadd (eps o) (tsqrt biasCorrectedSecondMoment));
  variable ← scaledArrayAdd (cGraph (base o)) quotient (one o) oldVariable;
  Some (newFirstMoment, newSecondMoment, variable).

(** Line 166, [gradient.dispose()]: the summed gradient of the node stays
    in [variableGradients] as a disposed tensor, which no operation can
    read again; the model drops its entry, so that reading it again
    throws.  (The old variable and the old moments, disposed in lines 165,
    167 and 168, are replaced in their maps by the same iteration; tensors
    stored under different keys are taken to be different objects.) *)
Definition disposeGradient (b : Optimizer) (key : nat) : Optimizer :=
  {| cGraph := cGraph b; variableNodes := variableNodes b;
     variableGradients := delete key (variableGradients b) |}.

(** Lines 137-169: one iteration of [variableNodes.forEach]; the node comes
    back with its [data] replaced. *)
Definition afterBatchNode (g : GraphEnv) (node : Node) : option (GraphEnv * Node) :=
  let o := graphOptimizer g in
  let key := id (output node) in
  oldVariable ← activationArrayMap g !! key;
  gradient ← variableGradients (base o) !! key;
  oldFirstMoment ← firstMomentGraph o !! key;
  oldSecondMoment ← secondMomentGraph o !! key;
  '(newFirstMoment, newSecondMoment, variable) ←
    nodeUpdate o oldFirstMoment oldSecondMoment gradient oldVariable;
  Some ({| graphOptimizer :=
             setGraph o (disposeGradient (base o) key)
               (<[key := newFirstMoment]> (firstMomentGraph o))
               (<[key := newSecondMoment]> (secondMomentGraph o));
           activationArrayMap := <[key := variable]> (activationArrayMap g) |},
        {| output := output node; data := variable |}).

Fixpoint forEachNode (g : GraphEnv) (nodes : list Node) : option (GraphEnv * list Node) :=
  match nodes with
  | [] => Some (g, [])
  | node :: rest =>
      '(g1, node') ← afterBatchNode g node;
      '(g2, rest') ← forEachNode g1 rest;
      Some (g2, node' :: rest')
  end.

(** Lines 136-183: all nodes, then the accumulators, then a fresh
    [variableGradients]. *)
Definition afterBatch (g : GraphEnv) : option GraphEnv :=
  '(g', nodes') ← forEachNode g (variableNodes (base (graphOptimizer g)));
  let o := advance (graphOptimizer g') in
  Some {| graphOptimizer :=
            setGraph o {| cGraph := cGraph (base o); variableNodes := nodes';
                          variableGradients := ∅ |}
                     (firstMomentGraph o) (secondMomentGraph o);
          activationArrayMap := activationArrayMap g' |}.

(** ** Vocabulary of the statements *)

(** The fields the constructor sets and no method changes. *)
Definition hyperparameters (learningRate b1 b2 epsilon : R) (o : AdamOptimizer) : Prop :=
  c o = - learningRate ∧ eps o = epsilon ∧ beta1 o = b1 ∧ beta2 o = b2 ∧ one o = 1.

(** The constructor's preconditions. *)
Definition validHyper (learningRate b1 b2 epsilon : R) : Prop :=
  0 < learningRate ∧ 0 < b1 < 1 ∧ 0 < b2 < 1 ∧ 0 < epsilon.

(** The moment tensor the loop body reads for [name]: the stored one, or
    the zero tensor that lines 62-71 create. *)
Definition momentOrZeros (m : NamedVariableMap) (name : string) (v : Tensor) : Tensor :=
  default (zerosLike v) (m !! name).

Definition isZero (t : Tensor) : Prop := Forall (λ x, x = 0) (values t).

Definition nonneg (t : Tensor) : Prop := Forall (λ x, 0 <= x) (values t).

(** A freshly constructed optimizer and the registered variables. *)
Definition freshEnv (super_ : Optimizer) (learningRate b1 b2 : R) (epsilon : option R)
    (vars : NamedVariableMap) : Env :=
  {| optimizer := new_AdamOptimizer super_ learningRate b1 b2 epsilon;
     registeredVariables := vars |}.

(** The update rule on one component, in the words of the specification:
    the moment recurrences and the parameter step with bias correction by
    the accumulators [a1] and [a2]. *)
Definition newFirst (b1 m g : R) : R := b1 * m + (1 - b1) * g.

Definition newSecond (b2 m g : R) : R := b2 * m + (1 - b2) * (g * g).

Definition biasCorrected (m a : R) : R := m / (1 - a).

Definition newParameter (learningRate epsilon a1 a2 v nf ns : R) : R :=
  v + (- learningRate) * (biasCorrected nf a1 / (epsilon + sqrt (biasCorrected ns a2))).

(** What the optimizer and the engine hold for one parameter name: its
    first moment, its second moment and its value. *)
Definition slot (e : Env) (name : string)
    : option Tensor * option Tensor * option Tensor :=
  (accumulatedFirstMoment (optimizer e) !! name,
   accumulatedSecondMoment (optimizer e) !! name,
   registeredVariables e !! name).

(** The scalar members of the optimizer. *)
Definition scalars (o : AdamOptimizer) : list Scalar :=
  [c o; eps o; beta1 o; beta2 o; accBeta1 o; accBeta2 o; one o].

(** Every stored moment has the shape of the registered variable of its
    name. *)
Definition momentsMatch (e : Env) : Prop :=
  ∀ name t,
    accumulatedFirstMoment (optimizer e) !! name = Some t ∨
    accumulatedSecondMoment (optimizer e) !! name = Some t →
    ∃ v, registeredVariables e !! name = Some v ∧ sameShape t v = true.

(** Every gradient has the shape of the registered variable of its name. *)
Definition gradientsMatch (vars : NamedVariableMap) (grads : list (string * Tensor))
    : Prop :=
  ∀ name g, (name, g) ∈ grads →
    ∃ v, vars !! name = Some v ∧ sameShape g v = true.

(** The registered variables keep their names and shapes. *)
Definition shapesPreserved (vars vars' : NamedVariableMap) : Prop :=
  ∀ name v, vars !! name = Some v →
    ∃ v', vars' !! name = Some v' ∧ sameShape v' v = true.

(** The value the specification's testable property gives for the first
    update of a fresh optimizer: bias correction by [1 - beta1^2] and
    [1 - beta2^2]. *)
Definition claimedFirstValue (learningRate b1 b2 epsilon v g : R) : R :=
  v - learningRate * ((1 - b1) * g) / (1 - b1 * b1)
        / (epsilon + sqrt ((1 - b2) * (g * g) / (1 - b2 * b2))).

(** The value the code gives: bias correction by [1 - beta1] and
    [1 - beta2]. *)
Definition firstValue (learningRate b1 b2 epsilon v g : R) : R :=
  v - learningRate * ((1 - b1) * g) / (1 - b1)
        / (epsilon + sqrt ((1 - b2) * (g * g) / (1 - b2))).

(** A rank-0 tensor. *)
Definition rank0 (x : R) : Tensor := mkTensor [] [x].

(** An optimizer base with no graph state. *)
Definition noGraph : Optimizer := mkOptimizer (-1) [] ∅.

(** The optimizer holds a first and a second moment for [name], both of
    the shape of the registered variable. *)
Definition tracked (e : Env) (name : string) : Prop :=
  ∃ nf ns v, slot e name = (Some nf, Some ns, Some v) ∧
    sameShape nf v = true ∧ sameShape ns v = true.

(** The write-back of an iteration: the slot of [name] receives the three
    tensors [tidy] computed. *)
Definition put (name : string) (r : Tensor * Tensor * Tensor) (e : Env) : Env :=
  {| optimizer :=
       setMoments (optimizer e)
         (<[name := r.1.1]> (accumulatedFirstMoment (optimizer e)))
         (<[name := r.1.2]> (accumulatedSecondMoment (optimizer e)));
     registeredVariables := <[name := r.2]> (registeredVariables e) |}.

(** The optimizer with another step scalar in place of [c]. *)
Definition withStep (o : AdamOptimizer) (step : Scalar) : AdamOptimizer :=
  {| base := base o; c := step; eps := eps o; beta1 := beta1 o; beta2 := beta2 o;
     accBeta1 := accBeta1 o; accBeta2 := accBeta2 o; one := one o;
     accumulatedFirstMoment := accumulatedFirstMoment o;
     accumulatedSecondMoment := accumulatedSecondMoment o;
     firstMomentGraph := firstMomentGraph o;
     secondMomentGraph := secondMomentGraph o |}.

(** What the graph stores hold for one node output: its first moment, its
    second moment and its activation. *)
Definition graphSlot (g : GraphEnv) (key : nat)
    : option Tensor * option Tensor * option Tensor :=
  (firstMomentGraph (graphOptimizer g) !! key,
   secondMomentGraph (graphOptimizer g) !! key,
   activationArrayMap g !! key).

(** An optimizer with [learningRate = 1], [beta1 = beta2 = 1/2] and
    [epsilon = 1], whose graph-side step scalar is [-1/2] (the learning rate
    spread over a batch of two), a single variable node, and the same zero
    moments and gradient [1] on both paths. *)
Definition node0 : Node := mkNode (mkSymbolicTensor 0 []) (rank0 0).

Definition halfStepOptimizer : AdamOptimizer :=
  setMoments
    (setGraph
       (new_AdamOptimizer (mkOptimizer (-1/2) [node0] {[0%nat := rank0 1]})
          1 (1/2) (1/2) (Some 1))
       (mkOptimizer (-1/2) [node0] {[0%nat := rank0 1]})
       {[0%nat := rank0 0]} {[0%nat := rank0 0]})
    {["x" := rank0 0]} {["x" := rank0 0]}.

Definition halfStepGraph : GraphEnv :=
  {| graphOptimizer := halfStepOptimizer;
     activationArrayMap := {[0%nat := rank0 0]} |}.

Definition halfStepEager : Env :=
  {| optimizer := halfStepOptimizer;
     registeredVariables := {["x" := rank0 0]} |}.

(** The divisors of an iteration: [one - accBeta1] (line 85),
    [one - accBeta2] (line 87) and the tensor
    [eps + sqrt(biasCorrectedSecondMoment)] (lines 93-94). *)
Definition divisors (o : AdamOptimizer) (secondMoment gradient : Tensor)
    : option (R * R * Tensor) :=
  newSecondMoment ←
    add (smul (beta2 o) secondMoment) (smul (one o - beta2 o) (square gradient));
  let biasCorrectedSecondMoment := divs newSecondMoment (one o - accBeta2 o) in
  Some (one o - accBeta1 o, one o - accBeta2 o,
        sadd (eps o) (tsqrt biasCorrectedSecondMoment)).

(** The argument of [sqrt] in line 94: the bias-corrected second moment. *)
Definition sqrtArgument (o : AdamOptimizer) (secondMoment gradient : Tensor)
    : option Tensor :=
  newSecondMoment ←
    add (smul (beta2 o) secondMoment) (smul (one o - beta2 o) (square gradient));
  Some (divs newSecondMoment (one o - accBeta2 o)).

(** The state of an optimizer built with valid hyperparameters: decay
    rates and accumulators in (0,1), positive [eps], nonnegative second
    moments. *)
Definition safeState (e : Env) : Prop :=
  let o := optimizer e in
  0 < accBeta1 o < 1 ∧ 0 < accBeta2 o < 1 ∧
  0 < beta1 o < 1 ∧ 0 < beta2 o < 1 ∧ 0 < eps o ∧ one o = 1 ∧
  ∀ name t, accumulatedSecondMoment o !! name = Some t → nonneg t.

(** A small training set-up: two registered variables ["w"] and ["u"] of
    shape [[2]], an optimizer with [learningRate = 1], [beta1 = beta2 = 1/2]
    and [epsilon = 1], a gradient and a zero gradient of that shape. *)
Definition exampleValue : Tensor := mkTensor [2%nat] [1; 2].

Definition exampleGradient : Tensor := mkTensor [2%nat] [1; -1].

Definition zeroGradient : Tensor := mkTensor [2%nat] [0; 0].

Definition exampleVariables : NamedVariableMap :=
  <["u" := exampleValue]> {["w" := exampleValue]}.

Definition exampleEnv : Env :=
  freshEnv noGraph 1 (1/2) (1/2) (Some 1) exampleVariables.

(** The eager environment whose step scalar is the graph-side one. *)
Definition sameStepEager : Env :=
  {| optimizer := withStep halfStepOptimizer (-1/2);
     registeredVariables := {["x" := rank0 0]} |}.

(** ** [beforeBatch] *)

(** Modelled from the spec: [Tensor.zeros(shape)], the zero tensor of a
    shape; its buffer has as many entries as the product of the
    dimensions. *)
Definition sizeFromShape (sh : list nat) : nat := foldr Nat.mul 1%nat sh.

Definition zeros (sh : list nat) : Tensor :=
  mkTensor sh (replicate (sizeFromShape sh) 0).

(** Lines 119-121 and 125-128: [variableNodes.forEach(node => m.set(node.output,
    Tensor.zeros(node.output.shape)))], in the order of the list. *)
Definition zeroMoments (m : TensorArrayMap) (nodes : list Node) : TensorArrayMap :=
  foldl (λ acc node, <[id (output node) := zeros (symShape (output node))]> acc)
        m nodes.

(** Lines 111-130.  [superBeforeBatch] is what the base class's
    [beforeBatch] does to the inherited members (it chooses the variable
    nodes, the step scalar and the gradient accumulators); the moments of
    the graph are created only while their map is empty. *)
Definition beforeBatch (superBeforeBatch : Optimizer → Optimizer) (o : AdamOptimizer)
    : AdamOptimizer :=
  let b := superBeforeBatch (base o) in
  let first :=
    if decide (size (firstMomentGraph o) = 0%nat)
    then zeroMoments (firstMomentGraph o) (variableNodes b)
    else firstMomentGraph o in
  let second :=
    if decide (size (secondMomentGraph o) = 0%nat)
    then zeroMoments (secondMomentGraph o) (variableNodes b)
    else secondMomentGraph o in
  setGraph o b first second.

(** ** Vocabulary of the further properties *)

(** Every component of the tensor lies in [[lo, hi]]. *)
Definition within (lo hi : R) (t : Tensor) : Prop :=
  Forall (λ x, lo <= x <= hi) (values t).

(** The step Adam takes on a component whose gradient is [x] at every
    call. *)
Definition constantStep (learningRate epsilon x : R) : R :=
  learningRate * x / (epsilon + Rabs x).

(** The slot of [name] after [k] calls that all passed the gradient [g],
    for a parameter that started at [v0] in a fresh optimizer: the moments
    are [(1 - beta1^k) * g] and [(1 - beta2^k) * g^2], the value is [k]
    constant steps away from [v0]. *)
Definition constantRun (learningRate epsilon b1 b2 : R) (name : string)
    (g v0 : Tensor) (k : nat) (e : Env) : Prop :=
  ∃ val, registeredVariables e !! name = Some val ∧
    ∀ i x vi, values g !! i = Some x → values v0 !! i = Some vi →
      values (momentOrZeros (accumulatedFirstMoment (optimizer e)) name val) !! i
        = Some ((1 - b1 ^ k) * x) ∧
      values (momentOrZeros (accumulatedSecondMoment (optimizer e)) name val) !! i
        = Some ((1 - b2 ^ k) * (x * x)) ∧
      values val !! i = Some (vi - INR k * constantStep learningRate epsilon x).

(** Every variable node has an activation, a summed gradient and both
    graph moments, all of one shape. *)
Definition graphReady (g : GraphEnv) : Prop :=
  ∀ node, node ∈ variableNodes (base (graphOptimizer g)) →
    ∃ v grad fm sm,
      graphSlot g (id (output node)) = (Some fm, Some sm, Some v) ∧
      variableGradients (base (graphOptimizer g)) !! id (output node) = Some grad ∧
      sameShape fm v = true ∧ sameShape sm v = true ∧ sameShape grad v = true.

(** A graph set-up on the optimizer of the example: two variable nodes of
    shape [[2]] and what the base class leaves before a batch. *)
Definition nodeA : Node := mkNode (mkSymbolicTensor 1 [2%nat]) exampleValue.

Definition nodeB : Node := mkNode (mkSymbolicTensor 2 [2%nat]) exampleValue.

Definition exampleSuper (b : Optimizer) : Optimizer :=
  mkOptimizer (-1/2) [nodeA; nodeB]
    (<[1%nat := exampleGradient]> {[2%nat := zeroGradient]}).

Definition exampleGraph : GraphEnv :=
  {| graphOptimizer := beforeBatch exampleSuper (optimizer exampleEnv);
     activationArrayMap := <[1%nat := exampleValue]> {[2%nat := exampleValue]} |}.

(** ** The variables as objects of the engine *)

Module Aliasing.

(** Modelled from the spec: the variables of the engine, which the source
    reaches through [ENV.engine.registeredVariables] (line 61) and builds
    with [variable(initialValue, trainable)] (lines 64 and 69).  A variable
    holds a tensor and is trainable or not ("shape-matched zero tensor, not
    itself trainable").  The class [Variable] is not part of the sources;
    what is modelled of it is what the engine does: every variable is
    registered under its name, a variable built without a name takes the
    decimal string of a counter ([Variable.nextVarId]) as its name, and a
    name that is taken is refused.  A name therefore identifies one object,
    and a reference to a variable is kept as the variable's name.
    ([Variable] is a reserved word here, hence the underscore.) *)
Record Variable_ := mkVariable { trainable : bool; tensor : Tensor }.

Record Engine := mkEngine {
  registeredVariables : gmap string Variable_;
  nextVarId : nat }.

(** Modelled from the spec: [variable(initialValue, trainable)] called
    without a name, as in lines 64-65 and 69-70: the new variable takes the
    decimal string of the counter as its name, the counter advances and the
    variable is registered; the engine throws when the name is taken.  The
    result is the new variable (its name) and the engine. *)
Definition variable (en : Engine) (initialValue : Tensor) (trainable_ : bool)
    : option (string * Engine) :=
  let name := pretty (nextVarId en) in
  match registeredVariables en !! name with
  | Some _ => None
  | None =>
      Some (name,
            {| registeredVariables :=
                 <[name := mkVariable trainable_ initialValue]> (registeredVariables en);
               nextVarId := S (nextVarId en) |})
  end.

(** Modelled from the spec: "in-place [assign(newValue)]" on the variable
    registered as [name]: the object stays, its tensor is replaced; a
    shape mismatch throws. *)
Definition assign (vars : gmap string Variable_) (name : string) (newValue : Tensor)
    : option (gmap string Variable_) :=
  var ← vars !! name;
  if sameShape (tensor var) newValue
  then Some (<[name := mkVariable (trainable var) newValue]> vars)
  else None.

(** The members of the class, the moment maps holding variables. *)
Record AdamOptimizer := mkAdam {
  base : Optimizer;
  c : Scalar;
  eps : Scalar;
  beta1 : Scalar;
  beta2 : Scalar;
  accBeta1 : Scalar;
  accBeta2 : Scalar;
  one : Scalar;
  accumulatedFirstMoment : gmap string string;
  accumulatedSecondMoment : gmap string string;
  firstMomentGraph : TensorArrayMap;
  secondMomentGraph : TensorArrayMap }.

Record Env := mkEnv { optimizer : AdamOptimizer; engine : Engine }.

(** Lines 44-57, the constructor: no moment yet. *)
Definition new_AdamOptimizer (super_ : Optimizer)
    (learningRate beta1_ beta2_ : R) (epsilon : option R) : AdamOptimizer :=
  {| base := super_;
     c := - learningRate;
     eps := default (1 / 100000000) epsilon;
     beta1 := beta1_;
     beta2 := beta2_;
     accBeta1 := beta1_;
     accBeta2 := beta2_;
     one := 1;
     accumulatedFirstMoment := ∅;
     accumulatedSecondMoment := ∅;
     firstMomentGraph := ∅;
     secondMomentGraph := ∅ |}.

Definition setMoments (o : AdamOptimizer) (m1 m2 : gmap string string) : AdamOptimizer :=
  mkAdam (base o) (c o) (eps o) (beta1 o) (beta2 o) (accBeta1 o) (accBeta2 o) (one o)
         m1 m2 (firstMomentGraph o) (secondMomentGraph o).

Definition setAcc (o : AdamOptimizer) (a1 a2 : Scalar) : AdamOptimizer :=
  mkAdam (base o) (c o) (eps o) (beta1 o) (beta2 o) a1 a2 (one o)
         (accumulatedFirstMoment o) (accumulatedSecondMoment o)
         (firstMomentGraph o) (secondMomentGraph o).

(** Lines 62-66 and 67-71: the moment of [variableName] is created, as a
    variable that is not trainable, when the map has none;
    [zerosLike(undefined)] throws. *)
Definition materialize (en : Engine) (m : gmap string string) (variableName : string)
    (value : option Variable_) : option (gmap string string * Engine) :=
  match m !! variableName with
  | Some _ => Some (m, en)
  | None =>
      v ← value;
      '(moment, en') ← variable en (zerosLike (tensor v)) false;
      Some (<[variableName := moment]> m, en')
  end.

(** Lines 76-97, the body of [tidy]: the tensors of the two moments are read
    (lines 77-82), both moments are assigned (lines 89, 90), then the tensor
    of [value] is read (line 95) and [value] is assigned (line 96). *)
Definition tidyBody (o : AdamOptimizer) (vars : gmap string Variable_)
    (firstMoment secondMoment : string) (gradient : Tensor) (value : string)
    : option (gmap string Variable_) :=
  fm ← vars !! firstMoment;
  sm ← vars !! secondMoment;
  newFirstMoment ← add (smul (beta1 o) (tensor fm)) (smul (one o - beta1 o) gradient);
  newSecondMoment ←
    add (smul (beta2 o) (tensor sm)) (smul (one o - beta2 o) (square gradient));
  let biasCorrectedFirstMoment := divs newFirstMoment (one o - accBeta1 o) in
  let biasCorrectedSecondMoment := divs newSecondMoment (one o - accBeta2 o) in
  vars1 ← assign vars firstMoment newFirstMoment;
  vars2 ← assign vars1 secondMoment newSecondMoment;
  quotient ← div biasCorrectedFirstMoment (sadd (eps o) (tsqrt biasCorrectedSecondMoment));
  v ← vars2 !! value;
  newValue ← add (smul (c o) quotient) (tensor v);
  assign vars2 value newValue.

(** Lines 61-97: one iteration of the [for ... in] loop. *)
Definition updateVariable (e : Env) (variableName : string) (gradient : Tensor)
    : option Env :=
  let o := optimizer e in
  let value := registeredVariables (engine e) !! variableName in
  '(m1, en1) ← materialize (engine e) (accumulatedFirstMoment o) variableName value;
  '(m2, en2) ← materialize en1 (accumulatedSecondMoment o) variableName value;
  firstMoment ← m1 !! variableName;
  secondMoment ← m2 !! variableName;
  vars ← tidyBody o (registeredVariables en2) firstMoment secondMoment gradient
           variableName;
  Some {| optimizer := setMoments o m1 m2;
          engine := {| registeredVariables := vars; nextVarId := nextVarId en2 |} |}.

(** Lines 60-98: the loop over the own keys of [variableGradients]. *)
Fixpoint forIn (e : Env) (variableGradients_ : list (string * Tensor)) : option Env :=
  match variableGradients_ with
  | [] => Some e
  | (variableName, gradient) :: rest =>
      e' ← updateVariable e variableName gradient; forIn e' rest
  end.

(** Lines 100-108: the accumulators are replaced by their products with
    [beta1] and [beta2]. *)
Definition advance (o : AdamOptimizer) : AdamOptimizer :=
  setAcc o (accBeta1 o * beta1 o) (accBeta2 o * beta2 o).

Definition applyGradients (e : Env) (variableGradients_ : list (string * Tensor))
    : option Env :=
  e' ← forIn e variableGradients_;
  Some {| optimizer := advance (optimizer e'); engine := engine e' |}.

(** A sequence of calls; a call that throws ends the run. *)
Fixpoint applyAll (e : Env) (calls : list (list (string * Tensor))) : option Env :=
  match calls with
  | [] => Some e
  | g :: rest => e' ← applyGradients e g; applyAll e' rest
  end.

End Aliasing.

(** The tensors a moment map holds. *)
Definition momentValues (vars : gmap string Aliasing.Variable_) (m : gmap string string)
    : NamedVariableMap :=
  omap (λ moment, Aliasing.tensor <$> vars !! moment) m.

(** The values of the trainable variables. *)
Definition parameters (vars : gmap string Aliasing.Variable_) : NamedVariableMap :=
  omap (λ var, if Aliasing.trainable var then Some (Aliasing.tensor var) else None) vars.

(** What the optimizer and its caller see of an environment: the
    optimizer's members with the tensors of its moments, and the values of
    the trainable variables; neither the names of the moment variables nor
    the counter. *)
Definition view (e : Aliasing.Env) : Env :=
  let o := Aliasing.optimizer e in
  let vars := Aliasing.registeredVariables (Aliasing.engine e) in
  {| optimizer :=
       mkAdam (Aliasing.base o) (Aliasing.c o) (Aliasing.eps o) (Aliasing.beta1 o)
         (Aliasing.beta2 o) (Aliasing.accBeta1 o) (Aliasing.accBeta2 o) (Aliasing.one o)
         (momentValues vars (Aliasing.accumulatedFirstMoment o))
         (momentValues vars (Aliasing.accumulatedSecondMoment o))
         (Aliasing.firstMomentGraph o) (Aliasing.secondMomentGraph o);
     registeredVariables := parameters vars |}.

(** [name] is the name of a trainable variable. *)
Definition trainableName (e : Aliasing.Env) (name : string) : Prop :=
  ∃ var, Aliasing.registeredVariables (Aliasing.engine e) !! name = Some var ∧
         Aliasing.trainable var = true.

(** The moments of [m] are registered variables that are not trainable. *)
Definition momentsRegistered (vars : gmap string Aliasing.Variable_)
    (m : gmap string string) : Prop :=
  ∀ name moment, m !! name = Some moment →
    ∃ var, vars !! moment = Some var ∧ Aliasing.trainable var = false.

(** No variable is the moment of two names, or a first and a second
    moment. *)
Definition momentsDistinct (m1 m2 : gmap string string) : Prop :=
  (∀ n n' moment, m1 !! n = Some moment → m1 !! n' = Some moment → n = n') ∧
  (∀ n n' moment, m2 !! n = Some moment → m2 !! n' = Some moment → n = n') ∧
  (∀ n n' moment, m1 !! n = Some moment → m2 !! n' = Some moment → False).

(** The names the counter will generate are free. *)
Definition counterFresh (en : Aliasing.Engine) : Prop :=
  ∀ k, (Aliasing.nextVarId en ≤ k)%nat →
    Aliasing.registeredVariables en !! pretty k = None.

(** The states the optimizer reaches: the moments are the variables that
    lines 64 and 69 created, one per name and map. *)
Definition separated (e : Aliasing.Env) : Prop :=
  let o := Aliasing.optimizer e in
  let en := Aliasing.engine e in
  momentsRegistered (Aliasing.registeredVariables en) (Aliasing.accumulatedFirstMoment o) ∧
  momentsRegistered (Aliasing.registeredVariables en) (Aliasing.accumulatedSecondMoment o) ∧
  momentsDistinct (Aliasing.accumulatedFirstMoment o) (Aliasing.accumulatedSecondMoment o) ∧
  counterFresh en.

(** The registered variables stay registered, trainable or not as they
    were, with tensors of the shapes they had. *)
Definition variableKept (vars vars' : gmap string Aliasing.Variable_) : Prop :=
  ∀ name var, vars !! name = Some var →
    ∃ var', vars' !! name = Some var' ∧
            Aliasing.trainable var' = Aliasing.trainable var ∧
            sameShape (Aliasing.tensor var') (Aliasing.tensor var) = true.

(** The names the counter generates from [next] up to [next']. *)
Definition generatedNames (next next' : nat) : gset string :=
  list_to_set (pretty <$> seq next (next' - next)).

(** What a run does to the engine: the counter does not go back, the names
    registered are the old ones and the ones generated in between, no
    variable is removed, changes its flag or its shape, and the variables
    registered under the generated names are not trainable. *)
Definition registers (en en' : Aliasing.Engine) : Prop :=
  (Aliasing.nextVarId en ≤ Aliasing.nextVarId en')%nat ∧
  dom (Aliasing.registeredVariables en') =
    dom (Aliasing.registeredVariables en) ∪
    generatedNames (Aliasing.nextVarId en) (Aliasing.nextVarId en') ∧
  variableKept (Aliasing.registeredVariables en) (Aliasing.registeredVariables en') ∧
  (∀ k, (Aliasing.nextVarId en ≤ k < Aliasing.nextVarId en')%nat →
     Aliasing.registeredVariables en !! pretty k = None ∧
     ∃ var, Aliasing.registeredVariables en' !! pretty k = Some var ∧
            Aliasing.trainable var = false).

(** What a run does to a moment map: the names of [names] are added, and
    no name changes its moment variable. *)
Definition momentsKept (names : list string) (m m' : gmap string string) : Prop :=
  dom m' = list_to_set names ∪ dom m ∧
  (∀ name moment, m !! name = Some moment → m' !! name = Some moment).

(** The engine of the example: the trainable variables ["w"] and ["u"],
    named by the caller, and a counter that has generated no name yet. *)
Definition exampleEngine : Aliasing.Engine :=
  Aliasing.mkEngine
    (<["u" := Aliasing.mkVariable true exampleValue]>
       {["w" := Aliasing.mkVariable true exampleValue]}) 0.

Definition exampleObjects : Aliasing.Env :=
  Aliasing.mkEnv (Aliasing.new_AdamOptimizer noGraph 1 (1/2) (1/2) (Some 1)) exampleEngine.

(** Another engine with the same trainable variables: it also holds a
    variable that is not trainable, under a generated name, and its counter
    has advanced. *)
Definition otherEngine : Aliasing.Engine :=
  Aliasing.mkEngine
    (<["0" := Aliasing.mkVariable false zeroGradient]>
       (Aliasing.registeredVariables exampleEngine)) 1.

Definition otherObjects : Aliasing.Env :=
  Aliasing.mkEnv (Aliasing.new_AdamOptimizer noGraph 1 (1/2) (1/2) (Some 1)) otherEngine.

(** The example after moments have been created for ["w"]: they are the
    variables ["0"] and ["1"]. *)
Definition momentEngine : Aliasing.Engine :=
  Aliasing.mkEngine
    (<["1" := Aliasing.mkVariable false zeroGradient]>
       (<["0" := Aliasing.mkVariable false zeroGradient]>
          (Aliasing.registeredVariables exampleEngine))) 2.

Definition momentObjects : Aliasing.Env :=
  Aliasing.mkEnv
    (Aliasing.setMoments (Aliasing.new_AdamOptimizer noGraph 1 (1/2) (1/2) (Some 1))
       {["w" := "0"]} {["w" := "1"]})
    momentEngine.

(** An engine whose only variable was named by the counter: a trainable
    variable ["0"]. *)
Definition autoObjects : Aliasing.Env :=
  Aliasing.mkEnv (Aliasing.new_AdamOptimizer noGraph 1 (1/2) (1/2) (Some 1))
    (Aliasing.mkEngine {["0" := Aliasing.mkVariable true exampleValue]} 1).

(** The scalar members seen through [view]. *)
Definition scalarsOf (o : Aliasing.AdamOptimizer) : list Scalar :=
  [Aliasing.c o; Aliasing.eps o; Aliasing.beta1 o; Aliasing.beta2 o;
   Aliasing.accBeta1 o; Aliasing.accBeta2 o; Aliasing.one o].

(** ** Lemmas on tensors *)

Lemma sameShape_iff a b :
  sameShape a b = true ↔ shape a = shape b ∧ length (values a) = length (values b).
Proof.
  unfold sameShape. rewrite andb_true_iff, !bool_decide_eq_true. tauto.
Qed.

Lemma sameShape_refl a : sameShape a a = true.
Proof. by apply sameShape_iff. Qed.

Lemma sameShape_sym a b : sameShape a b = true → sameShape b a = true.
Proof. rewrite !sameShape_iff. intros [-> ->]. done. Qed.

Lemma sameShape_trans a b d :
  sameShape a b = true → sameShape b d = true → sameShape a d = true.
Proof. rewrite !sameShape_iff. intros [-> ->] [-> ->]. done. Qed.

Lemma sameShape_zerosLike v : sameShape (zerosLike v) v = true.
Proof. apply sameShape_iff. simpl. by rewrite length_replicate. Qed.

Lemma elementwise_Some f a b :
  sameShape a b = true →
  elementwise f a b = Some (mkTensor (shape a) (zip_with f (values a) (values b))).
Proof. intros H. unfold elementwise. by rewrite H. Qed.

Lemma elementwise_sameShape f a b t :
  elementwise f a b = Some t → sameShape a b = true ∧ sameShape t a = true.
Proof.
  unfold elementwise. destruct (sameShape a b) eqn:E; [|done].
  intros [= <-]. split; [done|]. apply sameShape_iff in E as [_ E].
  apply sameShape_iff. simpl. rewrite length_zip_with. split; [done|lia].
Qed.

Lemma sameShape_broadcastL f s a : sameShape (broadcastL f s a) a = true.
Proof. apply sameShape_iff. simpl. by rewrite length_fmap. Qed.

Lemma sameShape_broadcastR f a s : sameShape (broadcastR f a s) a = true.
Proof. apply sameShape_iff. simpl. by rewrite length_fmap. Qed.

Lemma sameShape_unary f a : sameShape (unary f a) a = true.
Proof. apply sameShape_iff. simpl. by rewrite length_fmap. Qed.

Create HintDb shapes.
#[local] Hint Resolve sameShape_refl sameShape_sym sameShape_trans
  sameShape_zerosLike sameShape_broadcastL sameShape_broadcastR sameShape_unary
  : shapes.

(** ** The loop body on well-shaped data *)

Lemma tidyUpdate_spec o fm sm g v :
  one o = 1 →
  sameShape fm v = true → sameShape sm v = true → sameShape g v = true →
  ∃ nf ns nv,
    tidyUpdate o fm sm g (Some v) = Some (nf, ns, nv) ∧
    sameShape nf v = true ∧ sameShape ns v = true ∧ sameShape nv v = true ∧
    ∀ i,
      values nf !! i =
        (m ← values fm !! i; x ← values g !! i; Some (newFirst (beta1 o) m x)) ∧
      values ns !! i =
        (m ← values sm !! i; x ← values g !! i; Some (newSecond (beta2 o) m x)) ∧
      values nv !! i =
        (m1 ← values fm !! i; m2 ← values sm !! i; x ← values g !! i;
         vi ← values v !! i;
         Some (newParameter (- c o) (eps o) (accBeta1 o) (accBeta2 o) vi
                 (newFirst (beta1 o) m1 x) (newSecond (beta2 o) m2 x))).
Proof.
  intros H1 Hfm Hsm Hg.
  assert (Hfg : sameShape fm g = true) by eauto with shapes.
  assert (Hsg : sameShape sm g = true) by eauto with shapes.
  pose proof Hfm as Hfm'. pose proof Hsm as Hsm'. pose proof Hg as Hg'.
  pose proof Hfg as Hfg'. pose proof Hsg as Hsg'.
  apply sameShape_iff in Hfm' as [Sf Lf]. apply sameShape_iff in Hsm' as [Ss Ls].
  apply sameShape_iff in Hg' as [Sg Lg]. apply sameShape_iff in Hfg' as [Sfg Lfg].
  apply sameShape_iff in Hsg' as [Ssg Lsg].
  set (nf := mkTensor (shape fm)
         (zip_with Rplus (Rmult (beta1 o) <$> values fm)
                         (Rmult (one o - beta1 o) <$> values g))).
  set (ns := mkTensor (shape sm)
         (zip_with Rplus (Rmult (beta2 o) <$> values sm)
                         (Rmult (one o - beta2 o) <$> values (square g)))).
  assert (Enf : add (smul (beta1 o) fm) (smul (one o - beta1 o) g) = Some nf).
  { unfold add. rewrite elementwise_Some; [done|].
    apply sameShape_iff; simpl. rewrite !length_fmap. done. }
  assert (Ens : add (smul (beta2 o) sm) (smul (one o - beta2 o) (square g)) = Some ns).
  { unfold add. rewrite elementwise_Some; [done|].
    apply sameShape_iff; simpl. rewrite !length_fmap. done. }
  assert (Lnf : length (values nf) = length (values v)).
  { simpl. rewrite length_zip_with, !length_fmap. lia. }
  assert (Lns : length (values ns) = length (values v)).
  { simpl. rewrite length_zip_with, !length_fmap. lia. }
  set (q := mkTensor (shape nf)
         (zip_with Rdiv (values (divs nf (one o - accBeta1 o)))
            (values (sadd (eps o) (tsqrt (divs ns (one o - accBeta2 o))))))).
  assert (Eq_ : div (divs nf (one o - accBeta1 o))
                    (sadd (eps o) (tsqrt (divs ns (one o - accBeta2 o)))) = Some q).
  { unfold div. rewrite elementwise_Some; [done|].
    apply sameShape_iff; simpl. rewrite !length_fmap. split; [congruence|].
    rewrite !length_zip_with, !length_fmap. lia. }
  set (nv := mkTensor (shape nf) (zip_with Rplus (Rmult (c o) <$> values q) (values v))).
  assert (Env_ : add (smul (c o) q) v = Some nv).
  { unfold add. rewrite elementwise_Some; [done|].
    apply sameShape_iff; simpl. rewrite !length_fmap. split; [done|].
    rewrite !length_zip_with, !length_fmap. simpl.
    rewrite !length_zip_with, !length_fmap. lia. }
  assert (Snv : sameShape nv v = true).
  { apply sameShape_iff; simpl. split; [done|].
    rewrite !length_zip_with, !length_fmap. simpl.
    rewrite !length_zip_with, !length_fmap. simpl.
    rewrite !length_zip_with, !length_fmap. lia. }
  exists nf, ns, nv. split.
  { unfold tidyUpdate. rewrite Enf, Ens. simpl. unfold assign.
    assert (sameShape fm nf = true) as -> by (apply sameShape_iff; split; [done|lia]).
    assert (sameShape sm ns = true) as -> by (apply sameShape_iff; split; [done|lia]).
    simpl. fold q. rewrite Eq_. simpl. rewrite Env_. simpl.
    apply sameShape_sym in Snv. by rewrite Snv. }
  split; [apply sameShape_iff; split; [done|lia]|].
  split; [apply sameShape_iff; split; [done|lia]|].
  split; [done|].
  intros i. simpl.
  repeat (rewrite ?lookup_zip_with, ?list_lookup_fmap; simpl).
  rewrite H1.
  destruct (values fm !! i) as [m1|], (values sm !! i) as [m2|],
    (values g !! i) as [x|], (values v !! i) as [vi|]; simpl; try done.
  repeat split; f_equal.
  unfold newParameter, biasCorrected, newFirst, newSecond. lra.
Qed.

Lemma tidyUpdate_unregistered o fm sm g : tidyUpdate o fm sm g None = None.
Proof.
  unfold tidyUpdate.
  destruct (add (smul (beta1 o) fm) _) as [nf|]; simpl; [|done].
  destruct (add (smul (beta2 o) sm) _) as [ns|]; simpl; [|done].
  destruct (assign fm nf); simpl; [|done].
  destruct (assign sm ns); simpl; [|done].
  by destruct (div _ _).
Qed.

(** The environment an iteration leaves, given what [tidy] computed. *)
Lemma updateVariable_registered e name g v :
  registeredVariables e !! name = Some v →
  updateVariable e name g =
    '(nf, ns, nv) ←
      tidyUpdate (optimizer e)
        (momentOrZeros (accumulatedFirstMoment (optimizer e)) name v)
        (momentOrZeros (accumulatedSecondMoment (optimizer e)) name v) g (Some v);
    Some {| optimizer :=
              setMoments (optimizer e)
                (<[name := nf]> (accumulatedFirstMoment (optimizer e)))
                (<[name := ns]> (accumulatedSecondMoment (optimizer e)));
            registeredVariables := <[name := nv]> (registeredVariables e) |}.
Proof.
  intros Hv. unfold updateVariable, materialize, momentOrZeros. rewrite Hv.
  destruct (accumulatedFirstMoment (optimizer e) !! name) as [t1|] eqn:E1;
    destruct (accumulatedSecondMoment (optimizer e) !! name) as [t2|] eqn:E2;
    simpl; rewrite ?E1, ?E2, ?lookup_insert_eq; simpl;
    destruct (tidyUpdate _ _ _ _ _) as [[[nf ns] nv]|]; simpl;
    rewrite ?insert_insert_eq; done.
Qed.

Lemma updateVariable_unregistered e name g :
  registeredVariables e !! name = None → updateVariable e name g = None.
Proof.
  intros Hv. unfold updateVariable, materialize. rewrite Hv.
  destruct (accumulatedFirstMoment (optimizer e) !! name) as [t1|] eqn:E1;
    simpl; [|done].
  destruct (accumulatedSecondMoment (optimizer e) !! name) as [t2|] eqn:E2;
    simpl; [|done].
  rewrite E1, E2. simpl. by rewrite tidyUpdate_unregistered.
Qed.

(** What a completed iteration did. *)
Lemma updateVariable_inv e name g e' :
  updateVariable e name g = Some e' →
  ∃ v nf ns nv,
    registeredVariables e !! name = Some v ∧
    tidyUpdate (optimizer e)
      (momentOrZeros (accumulatedFirstMoment (optimizer e)) name v)
      (momentOrZeros (accumulatedSecondMoment (optimizer e)) name v) g (Some v)
      = Some (nf, ns, nv) ∧
    e' = {| optimizer :=
              setMoments (optimizer e)
                (<[name := nf]> (accumulatedFirstMoment (optimizer e)))
                (<[name := ns]> (accumulatedSecondMoment (optimizer e)));
            registeredVariables := <[name := nv]> (registeredVariables e) |}.
Proof.
  intros H. destruct (registeredVariables e !! name) as [v|] eqn:Hv.
  - rewrite (updateVariable_registered _ _ _ _ Hv) in H.
    destruct (tidyUpdate _ _ _ _ _) as [[[nf ns] nv]|] eqn:Ht; simpl in H; [|done].
    injection H as <-. by exists v, nf, ns, nv.
  - by rewrite updateVariable_unregistered in H.
Qed.

Lemma tidyUpdate_shapes o fm sm g v nf ns nv :
  tidyUpdate o fm sm g (Some v) = Some (nf, ns, nv) →
  sameShape nf fm = true ∧ sameShape ns sm = true ∧ sameShape nv v = true.
Proof.
  unfold tidyUpdate, assign. intros H.
  destruct (add (smul (beta1 o) fm) _) as [nf'|]; simpl in H; [|done].
  destruct (add (smul (beta2 o) sm) _) as [ns'|]; simpl in H; [|done].
  destruct (sameShape fm nf') eqn:E1; simpl in H; [|done].
  destruct (sameShape sm ns') eqn:E2; simpl in H; [|done].
  destruct (div _ _) as [q|]; simpl in H; [|done].
  destruct (add (smul (c o) q) v) as [nv'|]; simpl in H; [|done].
  destruct (sameShape v nv') eqn:E3; simpl in H; [|done].
  injection H as <- <- <-. auto using sameShape_sym.
Qed.

(** ** Frame properties of one iteration *)

Lemma tidyUpdate_scalars o o' fm sm g v :
  scalars o = scalars o' → tidyUpdate o fm sm g v = tidyUpdate o' fm sm g v.
Proof.
  unfold scalars. intros [= Hc He Hb1 Hb2 Ha1 Ha2 H1].
  unfold tidyUpdate. by rewrite Hc, He, Hb1, Hb2, Ha1, Ha2, H1.
Qed.

Lemma updateVariable_frame e name g e' other :
  updateVariable e name g = Some e' → other ≠ name → slot e' other = slot e other.
Proof.
  intros H Hne. apply updateVariable_inv in H as (v & nf & ns & nv & _ & _ & ->).
  unfold slot; simpl. by rewrite !lookup_insert_ne.
Qed.

Lemma updateVariable_scalars e name g e' :
  updateVariable e name g = Some e' →
  scalars (optimizer e') = scalars (optimizer e) ∧
  base (optimizer e') = base (optimizer e) ∧
  firstMomentGraph (optimizer e') = firstMomentGraph (optimizer e) ∧
  secondMomentGraph (optimizer e') = secondMomentGraph (optimizer e).
Proof.
  intros H. by apply updateVariable_inv in H as (v & nf & ns & nv & _ & _ & ->).
Qed.

(** An iteration reads nothing but the slot of its own name and the
    scalars: two environments that agree there get the same slot. *)
Lemma updateVariable_local e1 e2 name g :
  slot e1 name = slot e2 name →
  scalars (optimizer e1) = scalars (optimizer e2) →
  (λ e', slot e' name) <$> updateVariable e1 name g =
  (λ e', slot e' name) <$> updateVariable e2 name g.
Proof.
  unfold slot at 1 2. intros [= Hf Hs Hv] Hsc.
  destruct (registeredVariables e1 !! name) as [v|] eqn:E1.
  - symmetry in Hv.
    rewrite (updateVariable_registered e1 _ _ _ E1),
            (updateVariable_registered e2 _ _ _ Hv).
    unfold momentOrZeros. rewrite Hf, Hs, (tidyUpdate_scalars _ _ _ _ _ _ Hsc).
    destruct (tidyUpdate _ _ _ _ _) as [[[nf ns] nv]|]; simpl; [|done].
    unfold slot; simpl. by rewrite !lookup_insert_eq.
  - symmetry in Hv. by rewrite !updateVariable_unregistered.
Qed.

Lemma forIn_app e l1 l2 :
  forIn e (l1 ++ l2) = (e1 ← forIn e l1; forIn e1 l2).
Proof.
  revert e. induction l1 as [|[n g] l1 IH]; intros e; simpl; [done|].
  destruct (updateVariable e n g) as [e'|]; simpl; [apply IH|done].
Qed.

Lemma forIn_frame e l e' other :
  forIn e l = Some e' → other ∉ l.*1 → slot e' other = slot e other.
Proof.
  revert e. induction l as [|[n g] l IH]; intros e; simpl.
  - by intros [= ->].
  - intros H Hni. apply not_elem_of_cons in Hni as [Hne Hni].
    destruct (updateVariable e n g) as [e1|] eqn:E; simpl in H; [|done].
    rewrite (IH _ H Hni). by eapply updateVariable_frame.
Qed.

Lemma forIn_scalars e l e' :
  forIn e l = Some e' →
  scalars (optimizer e') = scalars (optimizer e) ∧
  base (optimizer e') = base (optimizer e) ∧
  firstMomentGraph (optimizer e') = firstMomentGraph (optimizer e) ∧
  secondMomentGraph (optimizer e') = secondMomentGraph (optimizer e).
Proof.
  revert e. induction l as [|[n g] l IH]; intros e; simpl.
  - by intros [= ->].
  - intros H.
    destruct (updateVariable e n g) as [e1|] eqn:E; simpl in H; [|done].
    apply IH in H as (-> & -> & -> & ->). by eapply updateVariable_scalars.
Qed.

(** In a completed loop over distinct names, the slot of each name is the
    one its iteration computes from the environment the loop started in. *)
Lemma forIn_entry e l e' name g :
  NoDup l.*1 → (name, g) ∈ l → forIn e l = Some e' →
  ∃ e1, updateVariable e name g = Some e1 ∧ slot e' name = slot e1 name.
Proof.
  intros Hnd Hin H.
  apply list_elem_of_split in Hin as (l1 & l2 & ->).
  rewrite fmap_app, fmap_cons in Hnd. simpl in Hnd.
  apply NoDup_app in Hnd as (_ & Hdisj & Hnd2).
  apply NoDup_cons in Hnd2 as [Hn2 _].
  assert (Hn1 : name ∉ l1.*1) by (intros Hx; eapply Hdisj; [done|left]).
  rewrite forIn_app in H.
  destruct (forIn e l1) as [ea|] eqn:Ea; simpl in H; [|done].
  destruct (updateVariable ea name g) as [eb|] eqn:Eb; simpl in H; [|done].
  pose proof (forIn_frame _ _ _ _ Ea Hn1) as Hslot.
  pose proof (forIn_scalars _ _ _ Ea) as (Hsc & _).
  pose proof (updateVariable_local ea e name g Hslot Hsc) as Hloc.
  rewrite Eb in Hloc.
  destruct (updateVariable e name g) as [e1|]; [|done].
  exists e1. split; [done|].
  rewrite (forIn_frame _ _ _ _ H Hn2).
  change (Some (slot eb name) = Some (slot e1 name)) in Hloc. congruence.
Qed.

(** ** Well-shaped calls complete *)

Lemma shapesPreserved_refl vars : shapesPreserved vars vars.
Proof. intros n v H. exists v. by rewrite sameShape_refl. Qed.

Lemma shapesPreserved_trans v1 v2 v3 :
  shapesPreserved v1 v2 → shapesPreserved v2 v3 → shapesPreserved v1 v3.
Proof.
  intros H12 H23 n v H. apply H12 in H as (v' & H & S1).
  apply H23 in H as (v'' & H & S2). exists v''. eauto using sameShape_trans.
Qed.

Lemma gradientsMatch_preserved vars vars' grads :
  shapesPreserved vars vars' → gradientsMatch vars grads → gradientsMatch vars' grads.
Proof.
  intros Hp Hg n g Hin. apply Hg in Hin as (v & Hv & S).
  apply Hp in Hv as (v' & Hv' & S'). exists v'. split; [done|].
  eapply sameShape_trans; [done|]. by apply sameShape_sym.
Qed.

Lemma momentOrZeros_sameShape e name v :
  momentsMatch e → registeredVariables e !! name = Some v →
  sameShape (momentOrZeros (accumulatedFirstMoment (optimizer e)) name v) v = true ∧
  sameShape (momentOrZeros (accumulatedSecondMoment (optimizer e)) name v) v = true.
Proof.
  intros Hm Hv. unfold momentOrZeros. split.
  - destruct (accumulatedFirstMoment (optimizer e) !! name) as [t|] eqn:E; simpl.
    + destruct (Hm name t) as (v' & Hv' & S); [by left|]. congruence.
    + apply sameShape_zerosLike.
  - destruct (accumulatedSecondMoment (optimizer e) !! name) as [t|] eqn:E; simpl.
    + destruct (Hm name t) as (v' & Hv' & S); [by right|]. congruence.
    + apply sameShape_zerosLike.
Qed.

Lemma updateVariable_total e name g v :
  one (optimizer e) = 1 → momentsMatch e →
  registeredVariables e !! name = Some v → sameShape g v = true →
  ∃ e', updateVariable e name g = Some e' ∧ momentsMatch e' ∧
        shapesPreserved (registeredVariables e) (registeredVariables e').
Proof.
  intros H1 Hm Hv Hg.
  destruct (momentOrZeros_sameShape _ _ _ Hm Hv) as [S1 S2].
  destruct (tidyUpdate_spec (optimizer e) _ _ g v H1 S1 S2 Hg)
    as (nf & ns & nv & Ht & Snf & Sns & Snv & _).
  rewrite (updateVariable_registered _ _ _ _ Hv), Ht. simpl.
  eexists. split; [done|]. split.
  - intros n t. simpl. destruct (decide (n = name)) as [->|Hne].
    + rewrite !lookup_insert_eq. exists nv. split; [done|].
      apply sameShape_sym in Snv.
      destruct H as [[= <-]|[= <-]]; eauto using sameShape_trans.
    + rewrite !lookup_insert_ne by done. apply Hm.
  - intros n w Hw. simpl. destruct (decide (n = name)) as [->|Hne].
    + rewrite lookup_insert_eq. exists nv. split; [done|]. congruence.
    + rewrite lookup_insert_ne by done. exists w. by rewrite sameShape_refl.
Qed.

Lemma forIn_total e grads :
  one (optimizer e) = 1 → momentsMatch e →
  gradientsMatch (registeredVariables e) grads →
  ∃ e', forIn e grads = Some e' ∧ momentsMatch e' ∧
        shapesPreserved (registeredVariables e) (registeredVariables e').
Proof.
  revert e. induction grads as [|[n g] grads IH]; intros e H1 Hm Hg; simpl.
  - exists e. eauto using shapesPreserved_refl.
  - destruct (Hg n g) as (v & Hv & S); [left|].
    destruct (updateVariable_total e n g v H1 Hm Hv S) as (e1 & E1 & Hm1 & Hp1).
    rewrite E1. simpl.
    destruct (IH e1) as (e' & E' & Hm' & Hp'); [| done | |].
    + apply updateVariable_scalars in E1 as ([= _ _ _ _ _ _ ->] & _). done.
    + eapply gradientsMatch_preserved; [done|].
      intros n' g' Hin. apply Hg. by right.
    + exists e'. eauto using shapesPreserved_trans.
Qed.

Lemma applyGradients_total e grads :
  one (optimizer e) = 1 → momentsMatch e →
  gradientsMatch (registeredVariables e) grads →
  ∃ e', applyGradients e grads = Some e' ∧ momentsMatch e' ∧
        one (optimizer e') = 1 ∧
        shapesPreserved (registeredVariables e) (registeredVariables e').
Proof.
  intros H1 Hm Hg. destruct (forIn_total e grads H1 Hm Hg) as (e' & E & Hm' & Hp).
  unfold applyGradients. rewrite E. simpl. eexists. split; [done|].
  split; [exact Hm'|]. split; [|done]. simpl.
  apply forIn_scalars in E as ([= _ _ _ _ _ _ ->] & _). done.
Qed.

Lemma applyAll_total e calls :
  one (optimizer e) = 1 → momentsMatch e →
  Forall (gradientsMatch (registeredVariables e)) calls →
  ∃ e', applyAll e calls = Some e' ∧ momentsMatch e' ∧
        shapesPreserved (registeredVariables e) (registeredVariables e').
Proof.
  revert e. induction calls as [|g calls IH]; intros e H1 Hm Hg; simpl.
  - exists e. eauto using shapesPreserved_refl.
  - apply Forall_cons in Hg as [Hg Hrest].
    destruct (applyGradients_total e g H1 Hm Hg) as (e1 & E1 & Hm1 & H11 & Hp1).
    rewrite E1. simpl.
    destruct (IH e1 H11 Hm1) as (e' & E' & Hm' & Hp').
    + eapply Forall_impl; [exact Hrest|]. intros grads.
      by apply gradientsMatch_preserved.
    + exists e'. eauto using shapesPreserved_trans.
Qed.

Lemma momentsMatch_fresh super_ lr b1 b2 epsilon vars :
  momentsMatch (freshEnv super_ lr b1 b2 epsilon vars).
Proof. intros n t. simpl. rewrite !lookup_empty. by intros [|]. Qed.

(** ** The update rule *)

(** One iteration on a registered, well-shaped parameter: it completes, and
    every component of the slot it leaves follows the update rule. *)
Lemma updateVariable_rule e lr b1 b2 epsilon name g v :
  hyperparameters lr b1 b2 epsilon (optimizer e) →
  momentsMatch e →
  registeredVariables e !! name = Some v → sameShape g v = true →
  ∃ e1 nf ns nv,
    updateVariable e name g = Some e1 ∧
    slot e1 name = (Some nf, Some ns, Some nv) ∧
    sameShape nf v = true ∧ sameShape ns v = true ∧ sameShape nv v = true ∧
    ∀ i,
      values nf !! i =
        (m ← values (momentOrZeros (accumulatedFirstMoment (optimizer e)) name v) !! i;
         x ← values g !! i; Some (newFirst b1 m x)) ∧
      values ns !! i =
        (m ← values (momentOrZeros (accumulatedSecondMoment (optimizer e)) name v) !! i;
         x ← values g !! i; Some (newSecond b2 m x)) ∧
      values nv !! i =
        (m1 ← values (momentOrZeros (accumulatedFirstMoment (optimizer e)) name v) !! i;
         m2 ← values (momentOrZeros (accumulatedSecondMoment (optimizer e)) name v) !! i;
         x ← values g !! i; vi ← values v !! i;
         Some (newParameter lr epsilon (accBeta1 (optimizer e)) (accBeta2 (optimizer e))
                 vi (newFirst b1 m1 x) (newSecond b2 m2 x))).
Proof.
  intros (Hc & He & Hb1 & Hb2 & H1) Hm Hv Hg.
  destruct (momentOrZeros_sameShape _ _ _ Hm Hv) as [S1 S2].
  destruct (tidyUpdate_spec (optimizer e) _ _ g v H1 S1 S2 Hg)
    as (nf & ns & nv & Ht & Snf & Sns & Snv & Hpt).
  rewrite Hc, He, Hb1, Hb2, Ropp_involutive in Hpt.
  rewrite (updateVariable_registered _ _ _ _ Hv), Ht. simpl.
  eexists _, nf, ns, nv. split; [done|]. split.
  { unfold slot; simpl. by rewrite !lookup_insert_eq. }
  done.
Qed.

Lemma slot_applyGradients e grads e' :
  applyGradients e grads = Some e' →
  ∃ e1, forIn e grads = Some e1 ∧ (∀ name, slot e' name = slot e1 name) ∧
        optimizer e' = advance (optimizer e1).
Proof.
  unfold applyGradients. destruct (forIn e grads) as [e1|]; simpl; [|done].
  intros [= <-]. by exists e1.
Qed.

(** C1. In a call of [applyGradients] on well-shaped gradients for distinct
    registered names, which completes, every name of the gradient map ends
    with a first moment [beta1 * firstMoment + (1 - beta1) * g], a second
    moment [beta2 * secondMoment + (1 - beta2) * g^2] and the value
    [v + (-learningRate) * biasCorrectedFirst / (epsilon +
    sqrt biasCorrectedSecond)], component by component, where the moments
    read are the ones stored before the call (zero when absent) and the bias
    corrections divide by one minus the accumulators held before the call. *)
Theorem applyGradients_update_rule e lr b1 b2 epsilon grads :
  hyperparameters lr b1 b2 epsilon (optimizer e) →
  momentsMatch e →
  gradientsMatch (registeredVariables e) grads →
  NoDup grads.*1 →
  ∃ e', applyGradients e grads = Some e' ∧
    ∀ name g v, (name, g) ∈ grads → registeredVariables e !! name = Some v →
      ∃ nf ns nv,
        slot e' name = (Some nf, Some ns, Some nv) ∧
        sameShape nf v = true ∧ sameShape ns v = true ∧ sameShape nv v = true ∧
        ∀ i m1 m2 x vi,
          values (momentOrZeros (accumulatedFirstMoment (optimizer e)) name v) !! i
            = Some m1 →
          values (momentOrZeros (accumulatedSecondMoment (optimizer e)) name v) !! i
            = Some m2 →
          values g !! i = Some x → values v !! i = Some vi →
          values nf !! i = Some (newFirst b1 m1 x) ∧
          values ns !! i = Some (newSecond b2 m2 x) ∧
          values nv !! i =
            Some (newParameter lr epsilon
                    (accBeta1 (optimizer e)) (accBeta2 (optimizer e)) vi
                    (newFirst b1 m1 x) (newSecond b2 m2 x)).
Proof.
  intros Hh Hm Hg Hnd.
  pose proof Hh as (_ & _ & _ & _ & H1).
  destruct (applyGradients_total e grads H1 Hm Hg) as (e' & E & _).
  exists e'. split; [done|]. intros name g v Hin Hv.
  apply slot_applyGradients in E as (e1 & E1 & Hslot & _).
  destruct (forIn_entry _ _ _ _ _ Hnd Hin E1) as (e2 & E2 & Hs2).
  destruct (Hg _ _ Hin) as (v' & Hv' & S). assert (v' = v) as -> by congruence.
  destruct (updateVariable_rule e lr b1 b2 epsilon name g v Hh Hm Hv S)
    as (e3 & nf & ns & nv & E3 & Hs3 & Snf & Sns & Snv & Hpt).
  assert (e3 = e2) as -> by congruence.
  exists nf, ns, nv. rewrite Hslot, Hs2. split; [done|].
  do 3 (split; [done|]).
  intros i m1 m2 x vi Hm1 Hm2 Hx Hvi.
  destruct (Hpt i) as (P1 & P2 & P3).
  rewrite P1, P2, P3, Hm1, Hm2, Hx, Hvi. done.
Qed.

(** ** The first update of a fresh optimizer *)

Lemma hyperparameters_new super_ lr b1 b2 epsilon :
  hyperparameters lr b1 b2 epsilon (new_AdamOptimizer super_ lr b1 b2 (Some epsilon)).
Proof. by repeat split. Qed.

Lemma fresh_single_call super_ lr b1 b2 epsilon vars name g v :
  vars !! name = Some v → sameShape g v = true →
  ∃ e' nf ns nv,
    applyGradients (freshEnv super_ lr b1 b2 (Some epsilon) vars) [(name, g)] = Some e' ∧
    slot e' name = (Some nf, Some ns, Some nv) ∧
    sameShape nf v = true ∧ sameShape ns v = true ∧ sameShape nv v = true ∧
    ∀ i x vi, values g !! i = Some x → values v !! i = Some vi →
      values nf !! i = Some ((1 - b1) * x) ∧
      values ns !! i = Some ((1 - b2) * (x * x)) ∧
      values nv !! i = Some (firstValue lr b1 b2 epsilon vi x).
Proof.
  intros Hv Hg.
  set (e := freshEnv super_ lr b1 b2 (Some epsilon) vars).
  destruct (updateVariable_rule e lr b1 b2 epsilon name g v)
    as (e1 & nf & ns & nv & E1 & Hs & Snf & Sns & Snv & Hpt);
    [apply hyperparameters_new | apply momentsMatch_fresh | done | done |].
  unfold applyGradients. simpl. rewrite E1. simpl.
  eexists _, nf, ns, nv. split; [done|]. split; [exact Hs|].
  do 3 (split; [done|]).
  intros i x vi Hx Hvi. destruct (Hpt i) as (P1 & P2 & P3).
  assert (Hz : values (zerosLike v) !! i = Some 0).
  { simpl. apply lookup_replicate_2. by eapply lookup_lt_Some. }
  unfold momentOrZeros in P1, P2, P3. simpl in P1, P2, P3.
  rewrite lookup_empty in P1, P2, P3. simpl in P1, P2, P3. simpl in Hz.
  rewrite Hz, Hx in P1, P2, P3. rewrite Hvi in P3. simpl in P1, P2, P3.
  rewrite P1, P2, P3. repeat split; f_equal.
  - unfold newFirst. lra.
  - unfold newSecond. lra.
  - unfold newParameter, biasCorrected, newFirst, newSecond, firstValue.
    replace (b1 * 0 + (1 - b1) * x) with ((1 - b1) * x) by lra.
    replace (b2 * 0 + (1 - b2) * (x * x)) with ((1 - b2) * (x * x)) by lra.
    lra.
Qed.

(** C2, amended.  After one call on a fresh optimizer with valid
    hyperparameters and a single parameter of value [v] and gradient [g],
    the stored moments are [(1 - beta1) * g] and [(1 - beta2) * g^2] and the
    new value is [v - learningRate * newFirst / (1 - beta1) / (epsilon +
    sqrt (newSecond / (1 - beta2)))]: the first call corrects the bias with
    the accumulators' initial values [beta1] and [beta2], not with their
    squares. *)
Theorem fresh_single_update super_ lr b1 b2 epsilon vars name g v :
  validHyper lr b1 b2 epsilon →
  vars !! name = Some v → sameShape g v = true →
  ∃ e' nf ns nv,
    applyGradients (freshEnv super_ lr b1 b2 (Some epsilon) vars) [(name, g)] = Some e' ∧
    slot e' name = (Some nf, Some ns, Some nv) ∧
    sameShape nf v = true ∧ sameShape ns v = true ∧ sameShape nv v = true ∧
    ∀ i x vi, values g !! i = Some x → values v !! i = Some vi →
      values nf !! i = Some ((1 - b1) * x) ∧
      values ns !! i = Some ((1 - b2) * (x * x)) ∧
      values nv !! i = Some (firstValue lr b1 b2 epsilon vi x) ∧
      firstValue lr b1 b2 epsilon vi x = vi - lr * x / (epsilon + Rabs x).
Proof.
  intros (_ & Hb1 & Hb2 & He) Hv Hg.
  destruct (fresh_single_call super_ lr b1 b2 epsilon vars name g v Hv Hg)
    as (e' & nf & ns & nv & E & Hs & Snf & Sns & Snv & Hpt).
  exists e', nf, ns, nv. do 5 (split; [done|]).
  intros i x vi Hx Hvi. destruct (Hpt i x vi Hx Hvi) as (P1 & P2 & P3).
  do 3 (split; [done|]). unfold firstValue.
  replace ((1 - b2) * (x * x) / (1 - b2)) with (Rsqr x)
    by (unfold Rsqr; field; lra).
  rewrite sqrt_Rsqr_abs. pose proof (Rabs_pos x). field. lra.
Qed.

(** C2, counterexample.  With [learningRate = 1], [beta1 = 1/2],
    [beta2 = 7/9], [epsilon = 1], [v = 0] and [g = 1] the call leaves the
    value [-1/2], and the value with the squared accumulators is [-8/21]. *)
Lemma fresh_single_update_not_squared :
  validHyper 1 (1/2) (7/9) 1 ∧
  ∃ e' nv,
    applyGradients (freshEnv noGraph 1 (1/2) (7/9) (Some 1) {["x" := rank0 0]})
      [("x", rank0 1)] = Some e' ∧
    registeredVariables e' !! "x" = Some nv ∧
    values nv = [- (1/2)] ∧
    values nv ≠ [claimedFirstValue 1 (1/2) (7/9) 1 0 1].
Proof.
  split; [unfold validHyper; lra|].
  destruct (fresh_single_call noGraph 1 (1/2) (7/9) 1 {["x" := rank0 0]} "x"
              (rank0 1) (rank0 0))
    as (e' & nf & ns & nv & E & Hs & Snf & Sns & Snv & Hpt); [done|done|].
  exists e', nv. split; [done|]. split; [by injection Hs|].
  destruct (Hpt 0%nat 1 0) as (_ & _ & P3); [done|done|].
  apply sameShape_iff in Snv as [_ Ln]. simpl in Ln.
  destruct (values nv) as [|y [|? ?]]; try done. simpl in P3. injection P3 as ->.
  assert (Ha : firstValue 1 (1/2) (7/9) 1 0 1 = - (1/2)).
  { unfold firstValue.
    replace ((1 - 7/9) * (1 * 1) / (1 - 7/9)) with 1 by lra.
    rewrite sqrt_1. lra. }
  assert (Hc : claimedFirstValue 1 (1/2) (7/9) 1 0 1 = - (8/21)).
  { unfold claimedFirstValue.
    replace ((1 - 7/9) * (1 * 1) / (1 - 7/9 * (7/9))) with ((3/4) * (3/4)) by lra.
    rewrite sqrt_square by lra. lra. }
  rewrite Ha, Hc. split; [done|]. intros [= H]. lra.
Qed.

(** ** The power accumulators *)

Lemma applyGradients_scalars e grads e' :
  applyGradients e grads = Some e' →
  accBeta1 (optimizer e') = accBeta1 (optimizer e) * beta1 (optimizer e) ∧
  accBeta2 (optimizer e') = accBeta2 (optimizer e) * beta2 (optimizer e) ∧
  c (optimizer e') = c (optimizer e) ∧ eps (optimizer e') = eps (optimizer e) ∧
  beta1 (optimizer e') = beta1 (optimizer e) ∧
  beta2 (optimizer e') = beta2 (optimizer e) ∧
  one (optimizer e') = one (optimizer e).
Proof.
  intros H. apply slot_applyGradients in H as (e1 & E1 & _ & ->).
  apply forIn_scalars in E1 as ([= Hc He Hb1 Hb2 Ha1 Ha2 H1] & _). simpl.
  by rewrite Hc, He, Hb1, Hb2, Ha1, Ha2, H1.
Qed.

Lemma applyAll_scalars e calls e' :
  applyAll e calls = Some e' →
  accBeta1 (optimizer e') = accBeta1 (optimizer e) * beta1 (optimizer e) ^ length calls ∧
  accBeta2 (optimizer e') = accBeta2 (optimizer e) * beta2 (optimizer e) ^ length calls ∧
  c (optimizer e') = c (optimizer e) ∧ eps (optimizer e') = eps (optimizer e) ∧
  beta1 (optimizer e') = beta1 (optimizer e) ∧
  beta2 (optimizer e') = beta2 (optimizer e) ∧
  one (optimizer e') = one (optimizer e).
Proof.
  revert e. induction calls as [|g calls IH]; intros e; simpl.
  - intros [= <-]. repeat split; lra.
  - intros H. destruct (applyGradients e g) as [e1|] eqn:E1; simpl in H; [|done].
    apply IH in H as (-> & -> & -> & -> & Hb1 & Hb2 & ->).
    apply applyGradients_scalars in E1 as (-> & -> & -> & -> & Hb1' & Hb2' & ->).
    rewrite Hb1, Hb2, Hb1', Hb2'. repeat split; lra.
Qed.

(** C3. The constructor sets the accumulators to [beta1] and [beta2]; after
    any [N] completed calls of [applyGradients] on a fresh optimizer, with
    arbitrary (possibly empty) gradient maps, they are [beta1^(N+1)] and
    [beta2^(N+1)]; and every sequence of calls whose gradients have the
    shapes of registered variables completes. *)
Theorem accumulators_after_calls super_ lr b1 b2 epsilon vars calls :
  (∀ e', applyAll (freshEnv super_ lr b1 b2 epsilon vars) calls = Some e' →
     accBeta1 (optimizer e') = b1 ^ (length calls + 1) ∧
     accBeta2 (optimizer e') = b2 ^ (length calls + 1)) ∧
  (Forall (gradientsMatch vars) calls →
     is_Some (applyAll (freshEnv super_ lr b1 b2 epsilon vars) calls)).
Proof.
  split.
  - intros e' H. apply applyAll_scalars in H as (-> & -> & _). simpl.
    rewrite !pow_add. simpl. split; lra.
  - intros Hg.
    destruct (applyAll_total (freshEnv super_ lr b1 b2 epsilon vars) calls)
      as (e' & E & _); [done | apply momentsMatch_fresh | done |].
    by exists e'.
Qed.

(** ** What a completed iteration implies *)

Lemma tidyUpdate_success_shapes o fm sm g v r :
  tidyUpdate o fm sm g (Some v) = Some r →
  sameShape fm v = true ∧ sameShape sm v = true ∧ sameShape g v = true.
Proof.
  unfold tidyUpdate, assign, add, div. intros H.
  destruct (elementwise Rplus (smul (beta1 o) fm) _) as [nf|] eqn:E1;
    simpl in H; [|done].
  destruct (elementwise Rplus (smul (beta2 o) sm) _) as [ns|] eqn:E2;
    simpl in H; [|done].
  destruct (sameShape fm nf) eqn:A1; simpl in H; [|done].
  destruct (sameShape sm ns) eqn:A2; simpl in H; [|done].
  destruct (elementwise Rdiv _ _) as [q|] eqn:E3; simpl in H; [|done].
  destruct (elementwise Rplus (smul (c o) q) v) as [nv|] eqn:E4;
    simpl in H; [|done].
  apply elementwise_sameShape in E1 as [B1 _], E2 as [B2 _], E3 as [_ B3],
    E4 as [B4 _].
  apply sameShape_iff in A1 as [? ?], A2 as [? ?], B1 as [? ?], B2 as [? ?],
    B3 as [? ?], B4 as [? ?].
  simpl in *. rewrite ?length_fmap in *.
  rewrite !sameShape_iff. repeat split; congruence.
Qed.

Lemma tidyUpdate_pointwise o fm sm g v nf ns nv :
  one o = 1 →
  tidyUpdate o fm sm g (Some v) = Some (nf, ns, nv) →
  sameShape fm v = true ∧ sameShape sm v = true ∧ sameShape g v = true ∧
  sameShape nf v = true ∧ sameShape ns v = true ∧ sameShape nv v = true ∧
  ∀ i,
    values nf !! i =
      (m ← values fm !! i; x ← values g !! i; Some (newFirst (beta1 o) m x)) ∧
    values ns !! i =
      (m ← values sm !! i; x ← values g !! i; Some (newSecond (beta2 o) m x)) ∧
    values nv !! i =
      (m1 ← values fm !! i; m2 ← values sm !! i; x ← values g !! i;
       vi ← values v !! i;
       Some (newParameter (- c o) (eps o) (accBeta1 o) (accBeta2 o) vi
               (newFirst (beta1 o) m1 x) (newSecond (beta2 o) m2 x))).
Proof.
  intros H1 H. destruct (tidyUpdate_success_shapes _ _ _ _ _ _ H) as (S1 & S2 & S3).
  destruct (tidyUpdate_spec o fm sm g v H1 S1 S2 S3)
    as (nf' & ns' & nv' & Ht & Snf & Sns & Snv & Hpt).
  rewrite H in Ht. injection Ht as <- <- <-. done.
Qed.

(** C4. In a completed call, every iteration of the loop, whatever its
    place in the gradient map, starts from the accumulators the call started
    with and leaves them so, and the value it assigns is
    [v + (-learningRate) * (newFirst / (1 - accBeta1)) /
    (epsilon + sqrt (newSecond / (1 - accBeta2)))], component by component,
    with [accBeta1] and [accBeta2] as they were before the call: the bias
    correction of every entry reads the same accumulators, which are
    advanced once, after the loop. *)
Theorem accumulator_snapshot e lr b1 b2 epsilon grads e' :
  hyperparameters lr b1 b2 epsilon (optimizer e) →
  applyGradients e grads = Some e' →
  (∀ pre name g post, grads = pre ++ (name, g) :: post →
     ∃ ei ei' v nf ns nv,
       forIn e pre = Some ei ∧ updateVariable ei name g = Some ei' ∧
       accBeta1 (optimizer ei) = accBeta1 (optimizer e) ∧
       accBeta2 (optimizer ei) = accBeta2 (optimizer e) ∧
       accBeta1 (optimizer ei') = accBeta1 (optimizer e) ∧
       accBeta2 (optimizer ei') = accBeta2 (optimizer e) ∧
       registeredVariables ei !! name = Some v ∧
       slot ei' name = (Some nf, Some ns, Some nv) ∧
       ∀ i m1 m2 x vi,
         values (momentOrZeros (accumulatedFirstMoment (optimizer ei)) name v) !! i
           = Some m1 →
         values (momentOrZeros (accumulatedSecondMoment (optimizer ei)) name v) !! i
           = Some m2 →
         values g !! i = Some x → values v !! i = Some vi →
         values nv !! i =
           Some (newParameter lr epsilon
                   (accBeta1 (optimizer e)) (accBeta2 (optimizer e)) vi
                   (newFirst b1 m1 x) (newSecond b2 m2 x))) ∧
  accBeta1 (optimizer e') = accBeta1 (optimizer e) * b1 ∧
  accBeta2 (optimizer e') = accBeta2 (optimizer e) * b2.
Proof.
  intros (Hc & He & Hb1 & Hb2 & H1) H. split.
  - intros pre name g post ->.
    apply slot_applyGradients in H as (e1 & E1 & _).
    rewrite forIn_app in E1.
    destruct (forIn e pre) as [ei|] eqn:Ei; simpl in E1; [|done].
    destruct (updateVariable ei name g) as [ei'|] eqn:Ei'; simpl in E1; [|done].
    pose proof (forIn_scalars _ _ _ Ei) as ([= Hci Hei Hb1i Hb2i Ha1 Ha2 H1i] & _).
    pose proof (updateVariable_scalars _ _ _ _ Ei') as ([= _ _ _ _ Ha1' Ha2' _] & _).
    destruct (updateVariable_inv _ _ _ _ Ei') as (v & nf & ns & nv & Hv & Ht & Hei').
    exists ei, ei', v, nf, ns, nv. do 2 (split; [done|]).
    split; [done|]. split; [done|].
    split; [by rewrite <- Ha1|]. split; [by rewrite <- Ha2|].
    split; [done|].
    split; [rewrite Hei'; unfold slot; simpl; by rewrite !lookup_insert_eq|].
    intros i m1 m2 x vi Hm1 Hm2 Hx Hvi.
    destruct (tidyUpdate_pointwise _ _ _ _ _ _ _ _ (eq_trans H1i H1) Ht)
      as (_ & _ & _ & _ & _ & _ & Hpt).
    destruct (Hpt i) as (_ & _ & P3).
    rewrite P3, Hm1, Hm2, Hx, Hvi. simpl.
    rewrite Hci, Hei, Hb1i, Hb2i, Ha1, Ha2, Hc, He, Hb1, Hb2.
    by replace (- - lr) with lr by lra.
  - apply applyGradients_scalars in H as (-> & -> & _). by rewrite Hb1, Hb2.
Qed.

Lemma sameShape_lookup a b i :
  sameShape a b = true → is_Some (values a !! i) ↔ is_Some (values b !! i).
Proof.
  intros [_ L]%sameShape_iff. rewrite !lookup_lt_is_Some. lia.
Qed.

Lemma tensor_eq a b :
  sameShape a b = true → (∀ i, values a !! i = values b !! i) → a = b.
Proof.
  intros [S _]%sameShape_iff H. destruct a, b; simpl in *. subst.
  f_equal. by apply list_eq.
Qed.

Lemma isZero_lookup t i x : isZero t → values t !! i = Some x → x = 0.
Proof. intros Hz Hx. exact (proj1 (Forall_lookup _ _) Hz i x Hx). Qed.

Lemma isZero_zerosLike v : isZero (zerosLike v).
Proof. unfold isZero. simpl. by apply Forall_replicate. Qed.

(** ** Zero gradients *)

Lemma zero_iteration e name g v e1 :
  one (optimizer e) = 1 →
  registeredVariables e !! name = Some v →
  isZero (momentOrZeros (accumulatedFirstMoment (optimizer e)) name v) →
  isZero (momentOrZeros (accumulatedSecondMoment (optimizer e)) name v) →
  isZero g →
  updateVariable e name g = Some e1 →
  ∃ nf ns, slot e1 name = (Some nf, Some ns, Some v) ∧ isZero nf ∧ isZero ns.
Proof.
  intros H1 Hv Z1 Z2 Zg H.
  apply updateVariable_inv in H as (v' & nf & ns & nv & Hv' & Ht & ->).
  assert (v' = v) as -> by congruence.
  destruct (tidyUpdate_pointwise _ _ _ _ _ _ _ _ H1 Ht)
    as (S1 & S2 & S3 & Snf & Sns & Snv & Hpt).
  assert (nv = v) as ->.
  { apply tensor_eq; [done|]. intros i. destruct (Hpt i) as (_ & _ & ->).
    destruct (values v !! i) as [vi|] eqn:Ev.
    - destruct (proj2 (sameShape_lookup _ _ i S1)) as [m1 E1]; [by eexists|].
      destruct (proj2 (sameShape_lookup _ _ i S2)) as [m2 E2]; [by eexists|].
      destruct (proj2 (sameShape_lookup _ _ i S3)) as [x E3]; [by eexists|].
      rewrite E1, E2, E3. simpl. f_equal.
      rewrite (isZero_lookup _ _ _ Z1 E1), (isZero_lookup _ _ _ Z2 E2),
              (isZero_lookup _ _ _ Zg E3).
      unfold newParameter, biasCorrected, newFirst, newSecond, Rdiv. ring.
    - repeat (match goal with
              | |- context [values ?t !! i] => destruct (values t !! i)
              end; simpl); done. }
  exists nf, ns. split.
  { unfold slot; simpl. by rewrite !lookup_insert_eq. }
  split; apply Forall_lookup; intros i y Hy; destruct (Hpt i) as (P1 & P2 & _).
  - rewrite Hy in P1.
    destruct (values (momentOrZeros (accumulatedFirstMoment _) name v) !! i)
      as [m|] eqn:E1; simpl in P1; [|done].
    destruct (values g !! i) as [x|] eqn:E3; simpl in P1; [|done].
    injection P1 as ->.
    rewrite (isZero_lookup _ _ _ Z1 E1), (isZero_lookup _ _ _ Zg E3).
    unfold newFirst. ring.
  - rewrite Hy in P2.
    destruct (values (momentOrZeros (accumulatedSecondMoment _) name v) !! i)
      as [m|] eqn:E2; simpl in P2; [|done].
    destruct (values g !! i) as [x|] eqn:E3; simpl in P2; [|done].
    injection P2 as ->.
    rewrite (isZero_lookup _ _ _ Z2 E2), (isZero_lookup _ _ _ Zg E3).
    unfold newSecond. ring.
Qed.

Lemma zero_call e name g v call e1 :
  one (optimizer e) = 1 →
  registeredVariables e !! name = Some v →
  isZero (momentOrZeros (accumulatedFirstMoment (optimizer e)) name v) →
  isZero (momentOrZeros (accumulatedSecondMoment (optimizer e)) name v) →
  NoDup call.*1 → (name, g) ∈ call → isZero g →
  applyGradients e call = Some e1 →
  ∃ nf ns, slot e1 name = (Some nf, Some ns, Some v) ∧ isZero nf ∧ isZero ns.
Proof.
  intros H1 Hv Z1 Z2 Hnd Hin Zg H.
  apply slot_applyGradients in H as (e2 & E2 & Hs & _).
  destruct (forIn_entry _ _ _ _ _ Hnd Hin E2) as (e3 & E3 & Hs3).
  destruct (zero_iteration _ _ _ _ _ H1 Hv Z1 Z2 Zg E3) as (nf & ns & Hslot & Znf & Zns).
  exists nf, ns. by rewrite Hs, Hs3.
Qed.

(** C5. For hyperparameters with [epsilon > 0] and [beta1], [beta2] in
    (0,1), take a parameter whose moments are zero (or not yet created) and
    [N >= 1] consecutive calls that each give it a zero gradient: after
    each of the first [k] calls, [1 <= k <= N], its value is its initial
    value and its first and second moments are zero tensors. *)
Theorem zero_gradient_unchanged e lr b1 b2 epsilon name v calls :
  validHyper lr b1 b2 epsilon →
  hyperparameters lr b1 b2 epsilon (optimizer e) →
  registeredVariables e !! name = Some v →
  isZero (momentOrZeros (accumulatedFirstMoment (optimizer e)) name v) →
  isZero (momentOrZeros (accumulatedSecondMoment (optimizer e)) name v) →
  Forall (λ call, NoDup call.*1 ∧ ∃ g, (name, g) ∈ call ∧ isZero g) calls →
  ∀ k ek, (1 ≤ k ≤ length calls)%nat →
    applyAll e (take k calls) = Some ek →
    ∃ nf ns, slot ek name = (Some nf, Some ns, Some v) ∧ isZero nf ∧ isZero ns.
Proof.
  intros _ (_ & _ & _ & _ & H1). revert e H1.
  induction calls as [|call calls IH]; intros e H1 Hv Z1 Z2 Hc k ek [Hk1 Hk2] H.
  { simpl in Hk2. lia. }
  apply Forall_cons in Hc as [(Hnd & g & Hin & Zg) Hrest].
  destruct k as [|k]; [lia|]. simpl in H, Hk2.
  destruct (applyGradients e call) as [e1|] eqn:E1; simpl in H; [|done].
  destruct (zero_call _ _ _ _ _ _ H1 Hv Z1 Z2 Hnd Hin Zg E1)
    as (nf & ns & Hslot & Znf & Zns).
  destruct k as [|k].
  { rewrite take_0 in H. injection H as <-. by exists nf, ns. }
  injection Hslot as Hf Hs Hv1.
  apply (IH e1) with (k := S k); try done.
  - apply applyGradients_scalars in E1 as (_ & _ & _ & _ & _ & _ & ->). done.
  - unfold momentOrZeros. by rewrite Hf.
  - unfold momentOrZeros. by rewrite Hs.
  - lia.
Qed.

(** ** The moment maps *)

Lemma updateVariable_tracked e name g e' :
  momentsMatch e → updateVariable e name g = Some e' →
  momentsMatch e' ∧ tracked e' name ∧ (∀ n, tracked e n → tracked e' n) ∧
  shapesPreserved (registeredVariables e) (registeredVariables e').
Proof.
  intros Hm H. pose proof H as H'.
  apply updateVariable_inv in H as (v & nf & ns & nv & Hv & Ht & ->).
  destruct (tidyUpdate_success_shapes _ _ _ _ _ _ Ht) as (S1 & S2 & S3).
  destruct (tidyUpdate_shapes _ _ _ _ _ _ _ _ Ht) as (Snf & Sns & Snv).
  assert (Tn : sameShape nf nv = true) by eauto with shapes.
  assert (Tm : sameShape ns nv = true) by eauto with shapes.
  assert (Ht' : tracked
            {| optimizer := setMoments (optimizer e)
                 (<[name:=nf]> (accumulatedFirstMoment (optimizer e)))
                 (<[name:=ns]> (accumulatedSecondMoment (optimizer e)));
               registeredVariables := <[name:=nv]> (registeredVariables e) |} name).
  { exists nf, ns, nv. unfold slot; simpl. by rewrite !lookup_insert_eq. }
  split; [|split; [done|split]].
  - intros n t. simpl. destruct (decide (n = name)) as [->|Hne].
    + rewrite !lookup_insert_eq. exists nv. split; [done|].
      by destruct H as [[= <-]|[= <-]].
    + rewrite !lookup_insert_ne by done. apply Hm.
  - intros n Hn. destruct (decide (n = name)) as [->|Hne]; [done|].
    destruct Hn as (a & b & w & Hs & Sa & Sb). exists a, b, w.
    by rewrite (updateVariable_frame _ _ _ _ _ H' Hne).
  - intros n w Hw. simpl. destruct (decide (n = name)) as [->|Hne].
    + rewrite lookup_insert_eq. exists nv. split; [done|]. congruence.
    + rewrite lookup_insert_ne by done. exists w. by rewrite sameShape_refl.
Qed.

Lemma forIn_tracked e grads e' :
  momentsMatch e → forIn e grads = Some e' →
  momentsMatch e' ∧ (∀ n g, (n, g) ∈ grads → tracked e' n) ∧
  (∀ n, tracked e n → tracked e' n) ∧
  shapesPreserved (registeredVariables e) (registeredVariables e').
Proof.
  revert e. induction grads as [|[n g] grads IH]; intros e Hm H; simpl in H.
  - injection H as <-. repeat split; [done | | done | apply shapesPreserved_refl].
    intros n g Hin. by apply elem_of_nil in Hin.
  - destruct (updateVariable e n g) as [e1|] eqn:E1; simpl in H; [|done].
    destruct (updateVariable_tracked _ _ _ _ Hm E1) as (Hm1 & T1 & K1 & P1).
    destruct (IH _ Hm1 H) as (Hm' & T' & K' & P').
    repeat split; [done | | by auto | by eapply shapesPreserved_trans].
    intros n' g' [[= -> ->]|Hin]%elem_of_cons; [by auto|by eauto].
Qed.

Lemma tracked_slot e e' n : slot e' n = slot e n → tracked e n → tracked e' n.
Proof. intros Hs (a & b & w & H & Sa & Sb). exists a, b, w. by rewrite Hs. Qed.

Lemma applyGradients_tracked e grads e' :
  momentsMatch e → applyGradients e grads = Some e' →
  momentsMatch e' ∧ (∀ n g, (n, g) ∈ grads → tracked e' n) ∧
  (∀ n, tracked e n → tracked e' n) ∧
  shapesPreserved (registeredVariables e) (registeredVariables e').
Proof.
  intros Hm H. unfold applyGradients in H.
  destruct (forIn e grads) as [e1|] eqn:E1; simpl in H; [|done].
  injection H as <-.
  destruct (forIn_tracked _ _ _ Hm E1) as (Hm1 & T1 & K1 & P1).
  split; [exact Hm1|]. split; [|split; [|exact P1]].
  - intros n g Hin. eapply tracked_slot; [|by eapply T1]. done.
  - intros n Hn. eapply tracked_slot; [|by eapply K1]. done.
Qed.

Lemma applyAll_tracked e calls e' :
  momentsMatch e → applyAll e calls = Some e' →
  momentsMatch e' ∧
  (∀ call n g, call ∈ calls → (n, g) ∈ call → tracked e' n) ∧
  (∀ n, tracked e n → tracked e' n) ∧
  shapesPreserved (registeredVariables e) (registeredVariables e').
Proof.
  revert e. induction calls as [|call calls IH]; intros e Hm H; simpl in H.
  - injection H as <-. repeat split; [done | | done | apply shapesPreserved_refl].
    intros call n g Hin. by apply elem_of_nil in Hin.
  - destruct (applyGradients e call) as [e1|] eqn:E1; simpl in H; [|done].
    destruct (applyGradients_tracked _ _ _ Hm E1) as (Hm1 & T1 & K1 & P1).
    destruct (IH _ Hm1 H) as (Hm' & T' & K' & P').
    repeat split; [done | | by auto | by eapply shapesPreserved_trans].
    intros call' n g [->|Hin]%elem_of_cons Hin'; [by eauto|by eauto].
Qed.

(** C6. (a) For a name that has no moment yet, lines 62-71 create a zero
    tensor of the shape of the parameter's value; (b) the iteration that
    first sees a name leaves for it moments of that shape that are the
    update of zero moments, [(1 - beta1) * g] and [(1 - beta2) * g^2];
    (c) after any completed sequence of calls on a fresh optimizer, every
    name that any of the calls passed has a first and a second moment, both
    of the shape of the parameter's current value, and the registered
    variables kept their shapes. *)
Theorem moments_created_and_kept :
  (∀ (m : NamedVariableMap) name v, m !! name = None →
     ∃ z, materialize m name (Some v) = Some (<[name := z]> m) ∧
          isZero z ∧ sameShape z v = true) ∧
  (∀ e lr b1 b2 epsilon name g v,
     hyperparameters lr b1 b2 epsilon (optimizer e) → momentsMatch e →
     slot e name = (None, None, Some v) → sameShape g v = true →
     ∃ e' nf ns nv,
       updateVariable e name g = Some e' ∧
       slot e' name = (Some nf, Some ns, Some nv) ∧
       sameShape nf v = true ∧ sameShape ns v = true ∧
       values nf = (λ x, (1 - b1) * x) <$> values g ∧
       values ns = (λ x, (1 - b2) * (x * x)) <$> values g) ∧
  (∀ super_ lr b1 b2 epsilon vars calls e',
     applyAll (freshEnv super_ lr b1 b2 epsilon vars) calls = Some e' →
     momentsMatch e' ∧
     shapesPreserved vars (registeredVariables e') ∧
     ∀ call name g, call ∈ calls → (name, g) ∈ call → tracked e' name).
Proof.
  split; [|split].
  - intros m name v Hn. exists (zerosLike v). unfold materialize. rewrite Hn.
    split; [done|]. split; [apply isZero_zerosLike | apply sameShape_zerosLike].
  - intros e lr b1 b2 epsilon name g v Hh Hm [= Hf Hs Hv] Hg.
    destruct (updateVariable_rule e lr b1 b2 epsilon name g v Hh Hm Hv Hg)
      as (e' & nf & ns & nv & E & Hslot & Snf & Sns & Snv & Hpt).
    exists e', nf, ns, nv. do 4 (split; [done|]).
    unfold momentOrZeros in Hpt. rewrite Hf, Hs in Hpt. simpl in Hpt.
    apply sameShape_iff in Hg as [_ Lg].
    split; apply list_eq; intros i; destruct (Hpt i) as (P1 & P2 & _);
      rewrite list_lookup_fmap.
    + rewrite P1. destruct (values g !! i) as [x|] eqn:Ex; simpl.
      * rewrite lookup_replicate_2 by (rewrite <- Lg; by eapply lookup_lt_Some).
        simpl. f_equal. unfold newFirst. ring.
      * by destruct (replicate _ _ !! i).
    + rewrite P2. destruct (values g !! i) as [x|] eqn:Ex; simpl.
      * rewrite lookup_replicate_2 by (rewrite <- Lg; by eapply lookup_lt_Some).
        simpl. f_equal. unfold newSecond. ring.
      * by destruct (replicate _ _ !! i).
  - intros super_ lr b1 b2 epsilon vars calls e' H.
    destruct (applyAll_tracked _ _ _ (momentsMatch_fresh _ _ _ _ _ _) H)
      as (Hm & T & _ & P). done.
Qed.

(** ** Independence of the iteration order *)

Lemma updateVariable_put e name g v :
  registeredVariables e !! name = Some v →
  updateVariable e name g =
    (λ r, put name r e) <$>
      tidyUpdate (optimizer e)
        (momentOrZeros (accumulatedFirstMoment (optimizer e)) name v)
        (momentOrZeros (accumulatedSecondMoment (optimizer e)) name v) g (Some v).
Proof.
  intros Hv. rewrite (updateVariable_registered _ _ _ _ Hv).
  by destruct (tidyUpdate _ _ _ _ _) as [[[nf ns] nv]|].
Qed.

Lemma put_commute n1 r1 n2 r2 e :
  n1 ≠ n2 → put n1 r1 (put n2 r2 e) = put n2 r2 (put n1 r1 e).
Proof.
  intros Hne. unfold put; simpl. f_equal; [|by apply insert_insert_ne].
  unfold setMoments; simpl. f_equal; by apply insert_insert_ne.
Qed.

(** Writing the slot of another name commutes with an iteration. *)
Lemma updateVariable_after_put e n1 r n2 g :
  n1 ≠ n2 →
  updateVariable (put n1 r e) n2 g = put n1 r <$> updateVariable e n2 g.
Proof.
  intros Hne. destruct (registeredVariables e !! n2) as [v|] eqn:Hv.
  - rewrite (updateVariable_put e n2 g v Hv).
    rewrite (updateVariable_put (put n1 r e) n2 g v)
      by (simpl; by rewrite lookup_insert_ne).
    unfold momentOrZeros. simpl. rewrite !lookup_insert_ne by done.
    rewrite (tidyUpdate_scalars (setMoments _ _ _) (optimizer e)) by done.
    destruct (tidyUpdate _ _ _ _ _) as [r2|]; simpl; [|done].
    f_equal. by apply put_commute.
  - rewrite (updateVariable_unregistered e) by done.
    rewrite updateVariable_unregistered; [done|].
    simpl. by rewrite lookup_insert_ne.
Qed.

Lemma updateVariable_is_put e name g e' :
  updateVariable e name g = Some e' → ∃ r, e' = put name r e.
Proof.
  intros H. apply updateVariable_inv in H as (v & nf & ns & nv & _ & _ & ->).
  by exists (nf, ns, nv).
Qed.

Lemma updateVariable_commute e n1 g1 n2 g2 :
  n1 ≠ n2 →
  (e1 ← updateVariable e n1 g1; updateVariable e1 n2 g2) =
  (e2 ← updateVariable e n2 g2; updateVariable e2 n1 g1).
Proof.
  intros Hne.
  destruct (updateVariable e n1 g1) as [e1|] eqn:E1;
    destruct (updateVariable e n2 g2) as [e2|] eqn:E2; simpl.
  - destruct (updateVariable_is_put _ _ _ _ E1) as [r1 ->].
    destruct (updateVariable_is_put _ _ _ _ E2) as [r2 ->].
    rewrite !updateVariable_after_put, E1, E2 by done. simpl.
    f_equal. by apply put_commute.
  - destruct (updateVariable_is_put _ _ _ _ E1) as [r1 ->].
    by rewrite updateVariable_after_put, E2.
  - destruct (updateVariable_is_put _ _ _ _ E2) as [r2 ->].
    by rewrite updateVariable_after_put, E1.
  - done.
Qed.

Lemma forIn_Permutation grads grads' :
  grads ≡ₚ grads' → NoDup grads.*1 → ∀ e, forIn e grads = forIn e grads'.
Proof.
  induction 1 as [|[n g] l l' Hp IH|[n1 g1] [n2 g2] l|l l' l'' Hp1 IH1 Hp2 IH2];
    intros Hnd e.
  - done.
  - simpl. apply NoDup_cons in Hnd as [_ Hnd].
    destruct (updateVariable e n g); simpl; [by apply IH|done].
  - simpl. simpl in Hnd. apply NoDup_cons in Hnd as [Hni _].
    apply not_elem_of_cons in Hni as [Hne _].
    pose proof (updateVariable_commute e n1 g1 n2 g2 (not_eq_sym Hne)) as Hc.
    destruct (updateVariable e n1 g1) as [e1|];
      destruct (updateVariable e n2 g2) as [e2|]; simpl in *.
    + destruct (updateVariable e2 n1 g1), (updateVariable e1 n2 g2);
        simpl; congruence.
    + by destruct (updateVariable e1 n2 g2).
    + by destruct (updateVariable e2 n1 g1).
    + done.
  - rewrite IH1 by done. apply IH2.
    assert (Hq : l.*1 ≡ₚ l'.*1) by (by apply fmap_Permutation).
    by rewrite <- Hq.
Qed.

Lemma applyGradients_Permutation e grads grads' :
  grads ≡ₚ grads' → NoDup grads.*1 →
  applyGradients e grads = applyGradients e grads'.
Proof.
  intros Hp Hnd. unfold applyGradients. by rewrite (forIn_Permutation _ _ Hp Hnd).
Qed.

(** ** The graph-execution update *)

Lemma smul_one v : smul 1 v = v.
Proof.
  destruct v as [sh vs]. unfold smul, broadcastL; simpl. f_equal.
  rewrite <- (list_fmap_id vs) at 2. apply list_fmap_ext. intros _ x _.
  simpl. lra.
Qed.

(** A node's iteration computes what the body of [tidy] computes with the
    step scalar [cGraph]. *)
Lemma nodeUpdate_tidyUpdate o fm sm g v :
  one o = 1 →
  nodeUpdate o fm sm g v = tidyUpdate (withStep o (cGraph (base o))) fm sm g (Some v).
Proof.
  intros H1. unfold nodeUpdate, tidyUpdate, scaledArrayAdd, assign. simpl.
  destruct (add (smul (beta1 o) fm) _) as [nf|] eqn:E1; simpl; [|done].
  destruct (add (smul (beta2 o) sm) _) as [ns|] eqn:E2; simpl; [|done].
  apply elementwise_sameShape in E1 as [_ A1], E2 as [_ A2].
  assert (sameShape fm nf = true) as -> by eauto with shapes.
  assert (sameShape sm ns = true) as -> by eauto with shapes.
  simpl. destruct (div _ _) as [q|]; simpl; [|done].
  rewrite H1, smul_one.
  destruct (add (smul (cGraph (base o)) q) v) as [nv|] eqn:E4; simpl; [|done].
  apply elementwise_sameShape in E4 as [B4 A4].
  assert (Hs : sameShape v nv = true).
  { eauto with shapes. }
  by rewrite Hs.
Qed.

Lemma afterBatchNode_scalars g node g' node' :
  afterBatchNode g node = Some (g', node') →
  scalars (graphOptimizer g') = scalars (graphOptimizer g) ∧
  cGraph (base (graphOptimizer g')) = cGraph (base (graphOptimizer g)) ∧
  variableNodes (base (graphOptimizer g')) = variableNodes (base (graphOptimizer g)).
Proof.
  unfold afterBatchNode. intros H.
  destruct (activationArrayMap g !! _); simpl in H; [|done].
  destruct (variableGradients _ !! _); simpl in H; [|done].
  destruct (firstMomentGraph _ !! _); simpl in H; [|done].
  destruct (secondMomentGraph _ !! _); simpl in H; [|done].
  destruct (nodeUpdate _ _ _ _ _) as [[[nf ns] nv]|]; simpl in H; [|done].
  by injection H as <- <-.
Qed.

Lemma forEachNode_scalars g nodes g' nodes' :
  forEachNode g nodes = Some (g', nodes') →
  scalars (graphOptimizer g') = scalars (graphOptimizer g) ∧
  cGraph (base (graphOptimizer g')) = cGraph (base (graphOptimizer g)) ∧
  variableNodes (base (graphOptimizer g')) = variableNodes (base (graphOptimizer g)).
Proof.
  revert g g' nodes'. induction nodes as [|node nodes IH]; intros g g' nodes'; simpl.
  - by intros [= <- <-].
  - intros H. destruct (afterBatchNode g node) as [[g1 n1]|] eqn:E1;
      simpl in H; [|done].
    destruct (forEachNode g1 nodes) as [[g2 ns2]|] eqn:E2; simpl in H; [|done].
    injection H as <- <-.
    apply IH in E2 as (-> & -> & ->). by eapply afterBatchNode_scalars.
Qed.

Lemma forEachNode_app g l1 l2 :
  forEachNode g (l1 ++ l2) =
    ('(g1, n1) ← forEachNode g l1;
     '(g2, n2) ← forEachNode g1 l2; Some (g2, n1 ++ n2)).
Proof.
  revert g. induction l1 as [|node l1 IH]; intros g; simpl.
  - by destruct (forEachNode g l2) as [[g2 n2]|].
  - destruct (afterBatchNode g node) as [[ga na]|]; simpl; [|done].
    rewrite IH. destruct (forEachNode ga l1) as [[g1 n1]|]; simpl; [|done].
    by destruct (forEachNode g1 l2) as [[g2 n2]|].
Qed.

(** C8, amended.  For a variable node, [afterBatch] computes what an
    iteration of the eager [applyGradients] computes from the same moments,
    gradient and value - the same moment recurrences, the same bias
    correction by the accumulators held before the advance, the same form of
    parameter step - in an optimizer whose step scalar [c] is the graph-side
    [cGraph]; it stores the results in the per-node maps and in the node;
    every node's iteration runs with the accumulators and the [cGraph] the
    call started with, and the accumulators are advanced once after all
    nodes.  In particular the two paths agree when [cGraph = c]. *)
Theorem afterBatch_rule (g : GraphEnv) (node : Node) (e : Env) (name : string)
    (fm sm grad v : Tensor) :
  one (graphOptimizer g) = 1 →
  graphSlot g (id (output node)) = (Some fm, Some sm, Some v) →
  variableGradients (base (graphOptimizer g)) !! id (output node) = Some grad →
  slot e name = (Some fm, Some sm, Some v) →
  scalars (optimizer e) =
    scalars (withStep (graphOptimizer g) (cGraph (base (graphOptimizer g)))) →
  (λ r, graphSlot r.1 (id (output node))) <$> afterBatchNode g node =
    (λ e', slot e' name) <$> updateVariable e name grad ∧
  (λ r, Some (data r.2)) <$> afterBatchNode g node =
    (λ e', registeredVariables e' !! name) <$> updateVariable e name grad ∧
  (∀ g' pre nd post,
     afterBatch g = Some g' →
     variableNodes (base (graphOptimizer g)) = pre ++ nd :: post →
     ∃ gi nodes',
       forEachNode g pre = Some (gi, nodes') ∧ is_Some (afterBatchNode gi nd) ∧
       scalars (graphOptimizer gi) = scalars (graphOptimizer g) ∧
       cGraph (base (graphOptimizer gi)) = cGraph (base (graphOptimizer g))) ∧
  (∀ g', afterBatch g = Some g' →
     accBeta1 (graphOptimizer g') =
       accBeta1 (graphOptimizer g) * beta1 (graphOptimizer g) ∧
     accBeta2 (graphOptimizer g') =
       accBeta2 (graphOptimizer g) * beta2 (graphOptimizer g)).
Proof.
  intros H1 [= Gf Gs Gv] Gg [= Ef Es Ev] Hsc.
  assert (Hupd : updateVariable e name grad =
                 (λ r, put name r e) <$> nodeUpdate (graphOptimizer g) fm sm grad v).
  { rewrite (updateVariable_put _ _ _ _ Ev). unfold momentOrZeros.
    rewrite Ef, Es. simpl.
    by rewrite (tidyUpdate_scalars _ _ _ _ _ _ Hsc), nodeUpdate_tidyUpdate. }
  assert (Hnode : afterBatchNode g node =
    (λ r, ({| graphOptimizer :=
                setGraph (graphOptimizer g)
                  (disposeGradient (base (graphOptimizer g)) (id (output node)))
                  (<[id (output node) := r.1.1]> (firstMomentGraph (graphOptimizer g)))
                  (<[id (output node) := r.1.2]> (secondMomentGraph (graphOptimizer g)));
              activationArrayMap :=
                <[id (output node) := r.2]> (activationArrayMap g) |},
           {| output := output node; data := r.2 |})) <$>
      nodeUpdate (graphOptimizer g) fm sm grad v).
  { unfold afterBatchNode. rewrite Gv, Gg, Gf, Gs. simpl.
    by destruct (nodeUpdate _ _ _ _ _) as [[[nf ns] nv]|]. }
  split; [|split; [|split]].
  - rewrite Hupd, Hnode.
    destruct (nodeUpdate _ _ _ _ _) as [[[nf ns] nv]|]; simpl; [|done].
    unfold graphSlot, slot; simpl. by rewrite !lookup_insert_eq.
  - rewrite Hupd, Hnode.
    destruct (nodeUpdate _ _ _ _ _) as [[[nf ns] nv]|]; simpl; [|done].
    by rewrite !lookup_insert_eq.
  - intros g' pre nd post H Hnodes. unfold afterBatch in H.
    rewrite Hnodes, forEachNode_app in H.
    destruct (forEachNode g pre) as [[gi ni]|] eqn:Ei; simpl in H; [|done].
    destruct (afterBatchNode gi nd) as [[ga na]|] eqn:Ea; simpl in H; [|done].
    exists gi, ni. split; [done|]. split; [by eexists|].
    apply forEachNode_scalars in Ei as (-> & -> & _). done.
  - intros g' H. unfold afterBatch in H.
    destruct (forEachNode g _) as [[g1 ns1]|] eqn:E1; simpl in H; [|done].
    injection H as <-. simpl.
    apply forEachNode_scalars in E1 as ([= _ _ -> -> -> -> _] & _ & _). done.
Qed.

(** C8, counterexample.  In one optimizer with [c = -1] and [cGraph = -1/2],
    from the same zero moments, gradient [1] and value [0], the graph path
    leaves the value [-1/4] and the eager path leaves [-1/2]. *)
Lemma afterBatch_step_differs :
  ∃ g' node' e',
    afterBatchNode halfStepGraph node0 = Some (g', node') ∧
    updateVariable halfStepEager "x" (rank0 1) = Some e' ∧
    activationArrayMap g' !! 0%nat = Some (rank0 (- (1/4))) ∧
    registeredVariables e' !! "x" = Some (rank0 (- (1/2))) ∧
    activationArrayMap g' !! 0%nat ≠ registeredVariables e' !! "x".
Proof.
  assert (Hn : nodeUpdate halfStepOptimizer (rank0 0) (rank0 0) (rank0 1) (rank0 0)
               = Some (rank0 (1/2), rank0 (1/2), rank0 (- (1/4)))).
  { unfold nodeUpdate, scaledArrayAdd, add, div, elementwise, assign, sameShape.
    simpl. unfold rank0. repeat f_equal; try lra.
    replace ((1 / 2 * 0 + (1 - 1 / 2) * (1 * 1)) / (1 - 1 / 2)) with 1 by lra.
    rewrite sqrt_1. lra. }
  assert (Ht : tidyUpdate halfStepOptimizer (rank0 0) (rank0 0) (rank0 1)
                 (Some (rank0 0))
               = Some (rank0 (1/2), rank0 (1/2), rank0 (- (1/2)))).
  { unfold tidyUpdate, add, div, elementwise, assign, sameShape.
    simpl. unfold rank0. repeat f_equal; try lra.
    replace ((1 / 2 * 0 + (1 - 1 / 2) * (1 * 1)) / (1 - 1 / 2)) with 1 by lra.
    rewrite sqrt_1. lra. }
  eexists _, _, _. split; [|split].
  - unfold afterBatchNode. cbn -[nodeUpdate]. rewrite !lookup_singleton_eq.
    cbn -[nodeUpdate]. rewrite Hn. simpl. done.
  - rewrite (updateVariable_put _ _ _ (rank0 0)) by apply lookup_singleton_eq.
    unfold momentOrZeros. cbn -[tidyUpdate]. rewrite !lookup_singleton_eq.
    cbn -[tidyUpdate]. rewrite Ht. simpl. done.
  - simpl. rewrite !lookup_insert_eq. split; [done|]. split; [done|].
    intros [= H]. lra.
Qed.

(** ** Divisors *)

Lemma nonneg_momentOrZeros e name v :
  safeState e → nonneg (momentOrZeros (accumulatedSecondMoment (optimizer e)) name v).
Proof.
  intros (_ & _ & _ & _ & _ & _ & Hn). unfold momentOrZeros.
  destruct (accumulatedSecondMoment (optimizer e) !! name) as [t|] eqn:E; simpl.
  - by eapply Hn.
  - unfold nonneg. simpl. apply Forall_replicate. lra.
Qed.

Lemma updateVariable_safe e name g e' :
  safeState e → updateVariable e name g = Some e' → safeState e'.
Proof.
  intros Hs H. pose proof (nonneg_momentOrZeros e name) as Hz.
  destruct Hs as (A1 & A2 & B1 & B2 & He & H1 & Hn).
  apply updateVariable_inv in H as (v & nf & ns & nv & Hv & Ht & ->).
  repeat split; simpl; try done; try lra.
  intros n t. destruct (decide (n = name)) as [->|Hne].
  - rewrite lookup_insert_eq. intros [= <-].
    destruct (tidyUpdate_pointwise _ _ _ _ _ _ _ _ H1 Ht) as (_ & _ & _ & _ & _ & _ & Hpt).
    apply Forall_lookup. intros i y Hy. destruct (Hpt i) as (_ & P2 & _).
    rewrite Hy in P2.
    destruct (values (momentOrZeros _ name v) !! i) as [m|] eqn:Em;
      simpl in P2; [|done].
    destruct (values g !! i) as [x|]; simpl in P2; [|done].
    injection P2 as ->.
    assert (0 <= m).
    { specialize (Hz v).
      assert (safeState e) as Hs' by (repeat split; try done; lra).
      exact (proj1 (Forall_lookup _ _) (Hz Hs') i m Em). }
    unfold newSecond. nra.
  - rewrite lookup_insert_ne by done. apply Hn.
Qed.

Lemma forIn_safe e grads e' :
  safeState e → forIn e grads = Some e' → safeState e'.
Proof.
  revert e. induction grads as [|[n g] grads IH]; intros e Hs H; simpl in H.
  - by injection H as <-.
  - destruct (updateVariable e n g) as [e1|] eqn:E1; simpl in H; [|done].
    eauto using updateVariable_safe.
Qed.

Lemma applyGradients_safe e grads e' :
  safeState e → applyGradients e grads = Some e' → safeState e'.
Proof.
  intros Hs H. unfold applyGradients in H.
  destruct (forIn e grads) as [e1|] eqn:E1; simpl in H; [|done].
  injection H as <-.
  destruct (forIn_safe _ _ _ Hs E1) as (A1 & A2 & B1 & B2 & He & H1 & Hn).
  repeat split; simpl; try done; try lra; nra.
Qed.

Lemma applyAll_safe e calls e' :
  safeState e → applyAll e calls = Some e' → safeState e'.
Proof.
  revert e. induction calls as [|g calls IH]; intros e Hs H; simpl in H.
  - by injection H as <-.
  - destruct (applyGradients e g) as [e1|] eqn:E1; simpl in H; [|done].
    eauto using applyGradients_safe.
Qed.

Lemma safeState_fresh super_ lr b1 b2 epsilon vars :
  validHyper lr b1 b2 (default (1 / 100000000) epsilon) →
  safeState (freshEnv super_ lr b1 b2 epsilon vars).
Proof.
  intros (_ & Hb1 & Hb2 & He). repeat split; simpl; try done; lra.
Qed.

(** C10. Take an optimizer constructed with [beta1], [beta2] in (0,1) and
    [epsilon > 0] (given or the default), any number of completed calls and
    any number of completed iterations of a further call.  In the
    environment reached the accumulators are in (0,1), every second moment
    is elementwise nonnegative, and for the next iteration: the argument of
    [sqrt] is elementwise nonnegative, the divisors [1 - accBeta1] and
    [1 - accBeta2] are not zero and the divisor
    [epsilon + sqrt(biasCorrectedSecond)] is elementwise positive; these
    divisors exist whenever the gradient has the shape of the registered
    variable. *)
Theorem divisors_nonzero super_ lr b1 b2 epsilon vars calls e pre ei :
  validHyper lr b1 b2 (default (1 / 100000000) epsilon) →
  applyAll (freshEnv super_ lr b1 b2 epsilon vars) calls = Some e →
  forIn e pre = Some ei →
  (0 < accBeta1 (optimizer ei) < 1 ∧ 0 < accBeta2 (optimizer ei) < 1) ∧
  (∀ name t, accumulatedSecondMoment (optimizer ei) !! name = Some t → nonneg t) ∧
  (∀ name g v d1 d2 dT,
     registeredVariables ei !! name = Some v →
     divisors (optimizer ei)
       (momentOrZeros (accumulatedSecondMoment (optimizer ei)) name v) g
       = Some (d1, d2, dT) →
     d1 ≠ 0 ∧ d2 ≠ 0 ∧ Forall (λ x, 0 < x) (values dT)) ∧
  (∀ name g v a,
     registeredVariables ei !! name = Some v →
     sqrtArgument (optimizer ei)
       (momentOrZeros (accumulatedSecondMoment (optimizer ei)) name v) g = Some a →
     nonneg a) ∧
  (∀ name g v,
     registeredVariables ei !! name = Some v → sameShape g v = true →
     is_Some (divisors (optimizer ei)
                (momentOrZeros (accumulatedSecondMoment (optimizer ei)) name v) g)).
Proof.
  intros Hv Ha Hf.
  assert (Hs : safeState ei).
  { eapply forIn_safe; [|exact Hf]. eapply applyAll_safe; [|exact Ha].
    by apply safeState_fresh. }
  assert (Hm : momentsMatch ei).
  { destruct (applyAll_tracked _ _ _ (momentsMatch_fresh _ _ _ _ _ _) Ha) as (Hm & _).
    by destruct (forIn_tracked _ _ _ Hm Hf) as (Hm' & _). }
  pose proof (nonneg_momentOrZeros ei) as Hz.
  pose proof Hs as (A1 & A2 & B1 & B2 & He & H1 & Hn).
  split; [done|]. split; [done|]. split; [|split].
  - intros name g v d1 d2 dT _ Hd. unfold divisors in Hd.
    destruct (add _ _) as [ns|]; simpl in Hd; [|done].
    injection Hd as <- <- <-. rewrite H1. split; [lra|]. split; [lra|].
    simpl. rewrite !Forall_fmap. apply Forall_forall. intros x _. simpl.
    pose proof (sqrt_pos (x / (1 - accBeta2 (optimizer ei)))). lra.
  - intros name g v a _ Hd. unfold sqrtArgument, add, elementwise in Hd.
    destruct (sameShape _ _); simpl in Hd; [|done]. injection Hd as <-.
    apply Forall_lookup. intros i y. simpl.
    repeat (rewrite ?lookup_zip_with, ?list_lookup_fmap; simpl).
    destruct (values (momentOrZeros _ name v) !! i) as [m|] eqn:Em; simpl; [|done].
    destruct (values g !! i) as [x|]; simpl; [|done]. intros [= <-].
    assert (0 <= m) by exact (proj1 (Forall_lookup _ _) (Hz name v Hs) i m Em).
    rewrite H1. apply Rmult_le_pos; [nra|].
    apply Rlt_le, Rinv_0_lt_compat. lra.
  - intros name g v Hv' Hg.
    destruct (momentOrZeros_sameShape _ _ _ Hm Hv') as [_ S2].
    unfold divisors, add. rewrite elementwise_Some; [by eexists|].
    apply sameShape_iff in S2 as [? ?], Hg as [? ?].
    apply sameShape_iff; simpl. rewrite !length_fmap. split; congruence.
Qed.

(** ** The theorems on the example set-up *)

Lemma exampleEnv_hyperparameters :
  hyperparameters 1 (1/2) (1/2) 1 (optimizer exampleEnv).
Proof. apply hyperparameters_new. Qed.

Lemma example_validHyper : validHyper 1 (1/2) (1/2) 1.
Proof. unfold validHyper. lra. Qed.

Lemma exampleVariables_w : exampleVariables !! "w" = Some exampleValue.
Proof. reflexivity. Qed.

Lemma exampleVariables_u : exampleVariables !! "u" = Some exampleValue.
Proof. reflexivity. Qed.

Lemma example_gradientsMatch grads :
  Forall (λ ng, (ng.1 = "w" ∨ ng.1 = "u") ∧ sameShape ng.2 exampleValue = true) grads →
  gradientsMatch exampleVariables grads.
Proof.
  intros Hall n g Hin.
  destruct (proj1 (Forall_forall _ _) Hall _ Hin) as [[Hn|Hn] Hs];
    simpl in Hn, Hs; subst n; exists exampleValue; done.
Qed.

Lemma example_single g :
  sameShape g exampleValue = true → gradientsMatch exampleVariables [("w", g)].
Proof.
  intros Hg. apply example_gradientsMatch. apply Forall_singleton. by split; [left|].
Qed.

Lemma example_NoDup (g : Tensor) : NoDup [("w", g)].*1.
Proof. apply NoDup_singleton. Qed.

Lemma example_NoDup2 (n1 n2 : string) (g1 g2 : Tensor) :
  n1 ≠ n2 → NoDup [(n1, g1); (n2, g2)].*1.
Proof.
  intros Hne. simpl. apply NoDup_cons_2; [|apply NoDup_singleton].
  by intros ?%list_elem_of_singleton.
Qed.

(** C1 on the example: the first component of ["w"] after one call. *)
Lemma applyGradients_update_rule_witness :
  ∃ e', applyGradients exampleEnv [("w", exampleGradient)] = Some e' ∧
    ∃ nf ns nv, slot e' "w" = (Some nf, Some ns, Some nv) ∧
      values nf !! 0%nat = Some (newFirst (1/2) 0 1) ∧
      values ns !! 0%nat = Some (newSecond (1/2) 0 1) ∧
      values nv !! 0%nat =
        Some (newParameter 1 1 (1/2) (1/2) 1 (newFirst (1/2) 0 1) (newSecond (1/2) 0 1)).
Proof.
  destruct (applyGradients_update_rule exampleEnv 1 (1/2) (1/2) 1
              [("w", exampleGradient)] exampleEnv_hyperparameters
              (momentsMatch_fresh _ _ _ _ _ _)
              (example_single exampleGradient eq_refl)
              (example_NoDup exampleGradient))
    as (e' & E & Hall).
  exists e'. split; [exact E|].
  destruct (Hall "w" exampleGradient exampleValue)
    as (nf & ns & nv & Hs & _ & _ & _ & Hpt);
    [apply list_elem_of_here | exact exampleVariables_w |].
  destruct (Hpt 0%nat 0 0 1 1 eq_refl eq_refl eq_refl eq_refl) as (P1 & P2 & P3).
  exists nf, ns, nv. repeat split; assumption.
Defined.

(** C2 (amended) on the example: the second component of ["w"]. *)
Lemma fresh_single_update_witness :
  ∃ e' nf ns nv,
    applyGradients exampleEnv [("w", exampleGradient)] = Some e' ∧
    slot e' "w" = (Some nf, Some ns, Some nv) ∧
    values nf !! 1%nat = Some ((1 - 1/2) * -1) ∧
    values nv !! 1%nat = Some (firstValue 1 (1/2) (1/2) 1 2 (-1)) ∧
    firstValue 1 (1/2) (1/2) 1 2 (-1) = 2 - 1 * -1 / (1 + Rabs (-1)).
Proof.
  destruct (fresh_single_update noGraph 1 (1/2) (1/2) 1 exampleVariables
              "w" exampleGradient exampleValue example_validHyper
              exampleVariables_w eq_refl)
    as (e' & nf & ns & nv & E & Hs & _ & _ & _ & Hpt).
  destruct (Hpt 1%nat (-1) 2 eq_refl eq_refl) as (P1 & _ & P3 & P4).
  exists e', nf, ns, nv. repeat split; assumption.
Defined.

(** C3 on the example: three calls, one of them with an empty map. *)
Lemma accumulators_after_calls_witness :
  ∃ e', applyAll exampleEnv [[("w", exampleGradient)]; []; [("u", zeroGradient)]]
          = Some e' ∧
        accBeta1 (optimizer e') = (1/2) ^ 4 ∧ accBeta2 (optimizer e') = (1/2) ^ 4.
Proof.
  destruct (accumulators_after_calls noGraph 1 (1/2) (1/2) (Some 1)
              exampleVariables
              [[("w", exampleGradient)]; []; [("u", zeroGradient)]])
    as [Hacc Htotal].
  destruct Htotal as [e' E].
  { repeat apply Forall_cons_2; [| | |apply Forall_nil_2];
      apply example_gradientsMatch; repeat constructor; by right. }
  exists e'. split; [exact E|]. exact (Hacc e' E).
Defined.

(** C4 on the example: the second entry of a map with two names; its bias
    correction divides by [1 - 1/2], the accumulator before the call. *)
Lemma accumulator_snapshot_witness :
  ∃ e' ei ei' nv,
    applyGradients exampleEnv [("w", exampleGradient); ("u", exampleGradient)] = Some e' ∧
    forIn exampleEnv [("w", exampleGradient)] = Some ei ∧
    updateVariable ei "u" exampleGradient = Some ei' ∧
    accBeta1 (optimizer ei) = 1/2 ∧ accBeta1 (optimizer ei') = 1/2 ∧
    accBeta1 (optimizer e') = 1/2 * (1/2) ∧
    registeredVariables ei' !! "u" = Some nv ∧
    values nv !! 0%nat =
      Some (newParameter 1 1 (1/2) (1/2) 1
              (newFirst (1/2) 0 1) (newSecond (1/2) 0 1)).
Proof.
  destruct (applyGradients_total exampleEnv
              [("w", exampleGradient); ("u", exampleGradient)] eq_refl
              (momentsMatch_fresh _ _ _ _ _ _))
    as (e' & E & _).
  { apply example_gradientsMatch.
    repeat apply Forall_cons_2; [by split; [left|] | by split; [right|] |
                                 apply Forall_nil_2]. }
  destruct (accumulator_snapshot exampleEnv 1 (1/2) (1/2) 1
              [("w", exampleGradient); ("u", exampleGradient)] e'
              exampleEnv_hyperparameters E)
    as (Hiter & Ha1 & _).
  destruct (Hiter [("w", exampleGradient)] "u" exampleGradient [] eq_refl)
    as (ei & ei' & v & nf & ns & nv & Ei & Ei' & A1 & _ & A1' & _ & Hv & Hs & Hpt).
  assert (Hfr : slot ei "u" = slot exampleEnv "u").
  { apply (forIn_frame _ _ _ _ Ei). simpl. by intros ?%list_elem_of_singleton. }
  injection Hfr as Hf0 Hs0 Hv0.
  rewrite Hv0 in Hv. injection Hv as <-.
  exists e', ei, ei', nv. do 6 (split; [assumption|]).
  split; [by injection Hs|].
  apply (Hpt 0%nat 0 0 1 1); unfold momentOrZeros; rewrite ?Hf0, ?Hs0; reflexivity.
Defined.

(** C5 on the example: two calls with a zero gradient for ["w"], the second
    with a gradient for ["u"] as well. *)
Lemma zero_gradient_unchanged_witness :
  ∃ ek nf ns,
    applyAll exampleEnv
      [[("w", zeroGradient)]; [("u", exampleGradient); ("w", zeroGradient)]] = Some ek ∧
    slot ek "w" = (Some nf, Some ns, Some exampleValue) ∧ isZero nf ∧ isZero ns.
Proof.
  destruct (applyAll_total exampleEnv
              [[("w", zeroGradient)]; [("u", exampleGradient); ("w", zeroGradient)]]
              eq_refl (momentsMatch_fresh _ _ _ _ _ _))
    as (ek & E & _).
  { repeat apply Forall_cons_2; [| |apply Forall_nil_2];
      apply example_gradientsMatch; repeat constructor; by right. }
  destruct (zero_gradient_unchanged exampleEnv 1 (1/2) (1/2) 1 "w" exampleValue
              [[("w", zeroGradient)]; [("u", exampleGradient); ("w", zeroGradient)]]
              example_validHyper exampleEnv_hyperparameters
              exampleVariables_w (isZero_zerosLike _) (isZero_zerosLike _))
    with (k := 2%nat) (ek := ek) as (nf & ns & Hs & Z1 & Z2).
  - repeat apply Forall_cons_2; [| |apply Forall_nil_2].
    + split; [apply example_NoDup|]. exists zeroGradient.
      split; [apply list_elem_of_here|]. repeat constructor.
    + split; [by apply example_NoDup2|]. exists zeroGradient.
      split; [apply list_elem_of_further, list_elem_of_here|]. repeat constructor.
  - simpl. lia.
  - exact E.
  - exists ek, nf, ns. repeat split; assumption.
Defined.

(** C8 (amended) on the example: the eager step scalar set to [cGraph]. *)
Lemma afterBatch_rule_witness :
  (λ r, graphSlot r.1 0%nat) <$> afterBatchNode halfStepGraph node0 =
    (λ e', slot e' "x") <$> updateVariable sameStepEager "x" (rank0 1) ∧
  (λ r, Some (data r.2)) <$> afterBatchNode halfStepGraph node0 =
    (λ e', registeredVariables e' !! "x") <$> updateVariable sameStepEager "x" (rank0 1).
Proof.
  destruct (afterBatch_rule halfStepGraph node0 sameStepEager "x"
              (rank0 0) (rank0 0) (rank0 1) (rank0 0)) as (Hslot & Hdata & _ & _).
  - reflexivity.
  - reflexivity.
  - reflexivity.
  - reflexivity.
  - reflexivity.
  - split; assumption.
Defined.

(** C10 on the example: after one call and one further iteration. *)
Lemma divisors_nonzero_witness :
  ∃ e ei v,
    applyAll exampleEnv [[("w", exampleGradient)]] = Some e ∧
    forIn e [("w", zeroGradient)] = Some ei ∧
    registeredVariables ei !! "w" = Some v ∧
    0 < accBeta1 (optimizer ei) < 1 ∧ 0 < accBeta2 (optimizer ei) < 1 ∧
    is_Some (divisors (optimizer ei)
               (momentOrZeros (accumulatedSecondMoment (optimizer ei)) "w" v)
               exampleGradient).
Proof.
  destruct (applyAll_total exampleEnv [[("w", exampleGradient)]] eq_refl
              (momentsMatch_fresh _ _ _ _ _ _))
    as (e & E & Hm & Hp).
  { apply Forall_cons_2; [|apply Forall_nil_2]. by apply example_single. }
  assert (H1 : one (optimizer e) = 1).
  { apply applyAll_scalars in E as (_ & _ & _ & _ & _ & _ & ->). reflexivity. }
  destruct (forIn_total e [("w", zeroGradient)] H1 Hm) as (ei & Ei & _ & Hp').
  { eapply gradientsMatch_preserved; [exact Hp|]. by apply example_single. }
  destruct (divisors_nonzero noGraph 1 (1/2) (1/2) (Some 1) exampleVariables
              [[("w", exampleGradient)]] e [("w", zeroGradient)] ei
              example_validHyper E Ei)
    as (Hacc & _ & _ & _ & Hsome).
  destruct (Hp "w" exampleValue exampleVariables_w) as (v1 & Hv1 & S1).
  destruct (Hp' "w" v1 Hv1) as (v2 & Hv2 & S2).
  exists e, ei, v2. do 3 (split; [assumption|]).
  split; [apply Hacc|]. split; [apply Hacc|].
  apply Hsome; [exact Hv2|].
  assert (S0 : sameShape exampleValue exampleGradient = true) by reflexivity.
  eauto with shapes.
Defined.

(** C6 on the example: both names are tracked after two calls. *)
Lemma moments_created_and_kept_witness :
  ∃ e', applyAll exampleEnv [[("w", exampleGradient)]; [("u", zeroGradient)]] = Some e' ∧
        tracked e' "w" ∧ tracked e' "u".
Proof.
  destruct (applyAll_total exampleEnv
              [[("w", exampleGradient)]; [("u", zeroGradient)]]
              eq_refl (momentsMatch_fresh _ _ _ _ _ _))
    as (e' & E & _).
  { repeat apply Forall_cons_2; [| |apply Forall_nil_2];
      apply example_gradientsMatch; repeat constructor; by right. }
  destruct moments_created_and_kept as (_ & _ & Hkept).
  destruct (Hkept noGraph 1 (1/2) (1/2) (Some 1) exampleVariables
              [[("w", exampleGradient)]; [("u", zeroGradient)]] e' E)
    as (_ & _ & Htracked).
  exists e'. split; [exact E|]. split.
  - apply (Htracked [("w", exampleGradient)] "w" exampleGradient);
      [apply list_elem_of_here | apply list_elem_of_here].
  - apply (Htracked [("u", zeroGradient)] "u" zeroGradient);
      [apply list_elem_of_further, list_elem_of_here | apply list_elem_of_here].
Defined.

(** ** Further properties of [applyGradients]: what a call touches *)

(** X4. A completed call changes nothing of the optimizer but the two eager
    moment maps and the two accumulators: the step scalar, [eps], [beta1],
    [beta2], [one], the inherited members and the moments of the graph mode
    are as before. *)
Theorem applyGradients_frame e grads e' :
  applyGradients e grads = Some e' →
  c (optimizer e') = c (optimizer e) ∧ eps (optimizer e') = eps (optimizer e) ∧
  beta1 (optimizer e') = beta1 (optimizer e) ∧
  beta2 (optimizer e') = beta2 (optimizer e) ∧
  one (optimizer e') = one (optimizer e) ∧
  base (optimizer e') = base (optimizer e) ∧
  firstMomentGraph (optimizer e') = firstMomentGraph (optimizer e) ∧
  secondMomentGraph (optimizer e') = secondMomentGraph (optimizer e).
Proof.
  intros H. pose proof (applyGradients_scalars _ _ _ H) as (_ & _ & -> & -> & -> & -> & ->).
  apply slot_applyGradients in H as (e1 & E1 & _ & ->).
  apply forIn_scalars in E1 as (_ & Hb & H1 & H2). simpl. by rewrite Hb, H1, H2.
Qed.

(** ** Further properties of [applyGradients]: the size of the steps *)

Lemma firstValue_constantStep lr b1 b2 epsilon vi x :
  0 < b1 < 1 → 0 < b2 < 1 → 0 < epsilon →
  firstValue lr b1 b2 epsilon vi x = vi - constantStep lr epsilon x.
Proof.
  intros Hb1 Hb2 He. unfold firstValue, constantStep.
  replace ((1 - b2) * (x * x) / (1 - b2)) with (Rsqr x)
    by (unfold Rsqr; field; lra).
  rewrite sqrt_Rsqr_abs. pose proof (Rabs_pos x). field. lra.
Qed.

Lemma constantStep_bounds lr epsilon x :
  0 < lr → 0 < epsilon →
  Rabs (constantStep lr epsilon x) < lr ∧
  (0 < x → 0 < constantStep lr epsilon x) ∧
  (x < 0 → constantStep lr epsilon x < 0) ∧
  (x = 0 → constantStep lr epsilon x = 0).
Proof.
  intros Hlr He. unfold constantStep.
  set (d := epsilon + Rabs x).
  assert (Hd : 0 < d) by (pose proof (Rabs_pos x); unfold d; lra).
  assert (Hx : - d < x < d).
  { unfold d, Rabs. destruct (Rcase_abs x); lra. }
  set (q := x / d).
  assert (Hq : q * d = x) by (unfold q; field; lra).
  replace (lr * x / d) with (lr * q) by (unfold q; field; lra).
  assert (Hq1 : -1 < q < 1) by (split; nra).
  repeat split.
  - unfold Rabs. destruct (Rcase_abs (lr * q)); nra.
  - intros Hpos. assert (0 < q) by nra. nra.
  - intros Hneg. assert (q < 0) by nra. nra.
  - intros ->. assert (q = 0) by nra. nra.
Qed.

(** X5. The first update of a fresh optimizer with valid hyperparameters
    moves every component of the parameter by less than [learningRate],
    against the sign of its gradient, and leaves a component whose gradient
    is zero where it was. *)
Theorem first_step_bounded super_ lr b1 b2 epsilon vars name g v :
  validHyper lr b1 b2 epsilon →
  vars !! name = Some v → sameShape g v = true →
  ∃ e' nv,
    applyGradients (freshEnv super_ lr b1 b2 (Some epsilon) vars) [(name, g)] = Some e' ∧
    registeredVariables e' !! name = Some nv ∧
    ∀ i x vi, values g !! i = Some x → values v !! i = Some vi →
      ∃ y, values nv !! i = Some y ∧ Rabs (y - vi) < lr ∧
           (0 < x → y < vi) ∧ (x < 0 → vi < y) ∧ (x = 0 → y = vi).
Proof.
  intros (Hlr & Hb1 & Hb2 & He) Hv Hg.
  destruct (fresh_single_call super_ lr b1 b2 epsilon vars name g v Hv Hg)
    as (e' & nf & ns & nv & E & Hs & _ & _ & _ & Hpt).
  exists e', nv. split; [done|]. split; [by injection Hs|].
  intros i x vi Hx Hvi. destruct (Hpt i x vi Hx Hvi) as (_ & _ & P3).
  rewrite firstValue_constantStep in P3 by done.
  destruct (constantStep_bounds lr epsilon x Hlr He) as (B & Bp & Bn & Bz).
  eexists. split; [exact P3|].
  replace (vi - constantStep lr epsilon x - vi) with (- constantStep lr epsilon x)
    by lra.
  rewrite Rabs_Ropp. split; [done|]. split; [|split].
  - intros Hp. specialize (Bp Hp). lra.
  - intros Hn. specialize (Bn Hn). lra.
  - intros Hz. rewrite (Bz Hz). lra.
Qed.

(** ** Further properties of [applyGradients]: bounds on the moments *)

Lemma updateVariable_within G e name g e' :
  one (optimizer e) = 1 → 0 < beta1 (optimizer e) < 1 → 0 < beta2 (optimizer e) < 1 →
  0 <= G → within (- G) G g →
  (∀ n t, accumulatedFirstMoment (optimizer e) !! n = Some t → within (- G) G t) →
  (∀ n t, accumulatedSecondMoment (optimizer e) !! n = Some t → within 0 (G * G) t) →
  updateVariable e name g = Some e' →
  (∀ n t, accumulatedFirstMoment (optimizer e') !! n = Some t → within (- G) G t) ∧
  (∀ n t, accumulatedSecondMoment (optimizer e') !! n = Some t → within 0 (G * G) t).
Proof.
  intros H1 Hb1 Hb2 HG Hg I1 I2 H.
  apply updateVariable_inv in H as (v & nf & ns & nv & Hv & Ht & ->).
  destruct (tidyUpdate_pointwise _ _ _ _ _ _ _ _ H1 Ht) as (_ & _ & _ & _ & _ & _ & Hpt).
  assert (Z1 : within (- G) G (momentOrZeros (accumulatedFirstMoment (optimizer e)) name v)).
  { unfold momentOrZeros.
    destruct (accumulatedFirstMoment (optimizer e) !! name) as [t|] eqn:E; simpl.
    - by eapply I1.
    - unfold within. simpl. apply Forall_replicate. lra. }
  assert (Z2 : within 0 (G * G)
                 (momentOrZeros (accumulatedSecondMoment (optimizer e)) name v)).
  { unfold momentOrZeros.
    destruct (accumulatedSecondMoment (optimizer e) !! name) as [t|] eqn:E; simpl.
    - by eapply I2.
    - unfold within. simpl. apply Forall_replicate. nra. }
  simpl. split; intros n t; (destruct (decide (n = name)) as [->|Hne];
    [rewrite lookup_insert_eq; intros [= <-]
    |rewrite lookup_insert_ne by done; by eauto]).
  - apply Forall_lookup. intros i y Hy. destruct (Hpt i) as (P1 & _ & _).
    rewrite Hy in P1.
    destruct (values (momentOrZeros (accumulatedFirstMoment _) name v) !! i)
      as [m|] eqn:Em; simpl in P1; [|done].
    destruct (values g !! i) as [x|] eqn:Ex; simpl in P1; [|done].
    injection P1 as ->.
    pose proof (proj1 (Forall_lookup _ _) Z1 i m Em) as Bm.
    pose proof (proj1 (Forall_lookup _ _) Hg i x Ex) as Bx.
    simpl in Bm, Bx. unfold newFirst. split; nra.
  - apply Forall_lookup. intros i y Hy. destruct (Hpt i) as (_ & P2 & _).
    rewrite Hy in P2.
    destruct (values (momentOrZeros (accumulatedSecondMoment _) name v) !! i)
      as [m|] eqn:Em; simpl in P2; [|done].
    destruct (values g !! i) as [x|] eqn:Ex; simpl in P2; [|done].
    injection P2 as ->.
    pose proof (proj1 (Forall_lookup _ _) Z2 i m Em) as Bm.
    pose proof (proj1 (Forall_lookup _ _) Hg i x Ex) as Bx.
    simpl in Bm, Bx. unfold newSecond.
    assert (0 <= x * x <= G * G) by (split; nra). split; nra.
Qed.

Lemma forIn_within G e grads e' :
  one (optimizer e) = 1 → 0 < beta1 (optimizer e) < 1 → 0 < beta2 (optimizer e) < 1 →
  0 <= G → Forall (λ ng, within (- G) G ng.2) grads →
  (∀ n t, accumulatedFirstMoment (optimizer e) !! n = Some t → within (- G) G t) →
  (∀ n t, accumulatedSecondMoment (optimizer e) !! n = Some t → within 0 (G * G) t) →
  forIn e grads = Some e' →
  (∀ n t, accumulatedFirstMoment (optimizer e') !! n = Some t → within (- G) G t) ∧
  (∀ n t, accumulatedSecondMoment (optimizer e') !! n = Some t → within 0 (G * G) t).
Proof.
  revert e. induction grads as [|[n g] grads IH]; intros e H1 Hb1 Hb2 HG Hg I1 I2 H;
    simpl in H.
  - by injection H as <-.
  - apply Forall_cons in Hg as [Hg Hrest]. simpl in Hg.
    destruct (updateVariable e n g) as [e1|] eqn:E1; simpl in H; [|done].
    destruct (updateVariable_within G _ _ _ _ H1 Hb1 Hb2 HG Hg I1 I2 E1) as [J1 J2].
    apply updateVariable_scalars in E1 as ([= _ _ Eb1 Eb2 _ _ E1'] & _).
    apply (IH e1); try done; congruence.
Qed.

(** X6. When every component of every gradient passed to a fresh optimizer
    (with [beta1], [beta2] in (0,1)) lies in [[-G, G]], then after any
    completed sequence of calls every component of every first moment lies
    in [[-G, G]] and every component of every second moment in
    [[0, G^2]]. *)
Theorem moments_within_gradient_bounds super_ lr b1 b2 epsilon vars calls G e' :
  0 < b1 < 1 → 0 < b2 < 1 → 0 <= G →
  Forall (Forall (λ ng, within (- G) G ng.2)) calls →
  applyAll (freshEnv super_ lr b1 b2 epsilon vars) calls = Some e' →
  (∀ name t, accumulatedFirstMoment (optimizer e') !! name = Some t →
     within (- G) G t) ∧
  (∀ name t, accumulatedSecondMoment (optimizer e') !! name = Some t →
     within 0 (G * G) t).
Proof.
  intros Hb1 Hb2 HG.
  assert (Hgen : ∀ calls e,
    one (optimizer e) = 1 → beta1 (optimizer e) = b1 → beta2 (optimizer e) = b2 →
    Forall (Forall (λ ng, within (- G) G ng.2)) calls →
    (∀ n t, accumulatedFirstMoment (optimizer e) !! n = Some t → within (- G) G t) →
    (∀ n t, accumulatedSecondMoment (optimizer e) !! n = Some t → within 0 (G * G) t) →
    applyAll e calls = Some e' →
    (∀ n t, accumulatedFirstMoment (optimizer e') !! n = Some t → within (- G) G t) ∧
    (∀ n t, accumulatedSecondMoment (optimizer e') !! n = Some t →
       within 0 (G * G) t)).
  { clear calls. induction calls as [|call calls IH]; intros e H1 E1 E2 Hc I1 I2 H;
      simpl in H.
    - by injection H as <-.
    - apply Forall_cons in Hc as [Hc Hrest].
      destruct (applyGradients e call) as [e1|] eqn:Ec; simpl in H; [|done].
      pose proof (applyGradients_scalars _ _ _ Ec) as (_ & _ & _ & _ & F1 & F2 & F3).
      apply slot_applyGradients in Ec as (e2 & Ef & _ & Ho).
      destruct (forIn_within G e call e2) as [J1 J2]; try done; try lra.
      apply (IH e1); try congruence.
      + rewrite Ho. exact J1.
      + rewrite Ho. exact J2. }
  intros Hc H.
  apply (Hgen calls (freshEnv super_ lr b1 b2 epsilon vars)); try done.
Qed.

(** ** Further properties of [applyGradients]: a constant gradient *)

Lemma pow_unit_interval b n : 0 < b < 1 → 0 < b ^ n <= 1.
Proof.
  intros Hb. induction n as [|n IH]; simpl; [lra|]. nra.
Qed.

Lemma newParameter_constant lr epsilon b1 b2 p1 p2 w x :
  0 < b1 < 1 → 0 < b2 < 1 → 0 < epsilon → 0 < p1 <= 1 → 0 < p2 <= 1 →
  newParameter lr epsilon (b1 * p1) (b2 * p2) w
    (newFirst b1 ((1 - p1) * x) x) (newSecond b2 ((1 - p2) * (x * x)) x)
  = w - constantStep lr epsilon x.
Proof.
  intros Hb1 Hb2 He Hp1 Hp2.
  unfold newParameter, biasCorrected, newFirst, newSecond, constantStep.
  replace ((b1 * ((1 - p1) * x) + (1 - b1) * x) / (1 - b1 * p1)) with x
    by (field; nra).
  replace ((b2 * ((1 - p2) * (x * x)) + (1 - b2) * (x * x)) / (1 - b2 * p2))
    with (Rsqr x) by (unfold Rsqr; field; nra).
  rewrite sqrt_Rsqr_abs. pose proof (Rabs_pos x). field. lra.
Qed.

Lemma constantRun_slot lr epsilon b1 b2 name g v0 k e e' :
  slot e' name = slot e name →
  constantRun lr epsilon b1 b2 name g v0 k e →
  constantRun lr epsilon b1 b2 name g v0 k e'.
Proof.
  unfold slot. intros [= Hf Hs Hv] (val & Hval & Hpt). exists val.
  unfold momentOrZeros. rewrite Hf, Hs, Hv. done.
Qed.

Lemma constant_iteration e lr b1 b2 epsilon name g v0 k e1 :
  0 < b1 < 1 → 0 < b2 < 1 → 0 < epsilon →
  hyperparameters lr b1 b2 epsilon (optimizer e) →
  accBeta1 (optimizer e) = b1 ^ (k + 1) → accBeta2 (optimizer e) = b2 ^ (k + 1) →
  constantRun lr epsilon b1 b2 name g v0 k e →
  updateVariable e name g = Some e1 →
  constantRun lr epsilon b1 b2 name g v0 (S k) e1.
Proof.
  intros Hb1 Hb2 He (Hc & Heps & Eb1 & Eb2 & H1) A1 A2 (val & Hval & Hinv) H.
  apply updateVariable_inv in H as (v & nf & ns & nv & Hv & Ht & ->).
  assert (v = val) as -> by congruence.
  destruct (tidyUpdate_pointwise _ _ _ _ _ _ _ _ H1 Ht)
    as (_ & _ & _ & _ & _ & _ & Hpt).
  exists nv. cbn -[INR pow]. split; [by rewrite lookup_insert_eq|].
  intros i x vi Hx Hvi. unfold momentOrZeros. rewrite !lookup_insert_eq.
  cbn -[INR pow].
  destruct (Hinv i x vi Hx Hvi) as (I1 & I2 & I3).
  destruct (Hpt i) as (P1 & P2 & P3).
  rewrite I1, Hx in P1. rewrite I2, Hx in P2. rewrite I1, I2, Hx, I3 in P3.
  simpl in P1, P2, P3.
  rewrite Hc, Heps, Eb1, Eb2, A1, A2, Ropp_involutive in P3.
  rewrite Eb1 in P1. rewrite Eb2 in P2.
  rewrite P1, P2, P3. rewrite !Nat.add_1_r. simpl pow.
  pose proof (pow_unit_interval b1 k Hb1). pose proof (pow_unit_interval b2 k Hb2).
  repeat split; f_equal.
  - unfold newFirst. ring.
  - unfold newSecond. ring.
  - rewrite newParameter_constant by done. rewrite S_INR. ring.
Qed.

Lemma constant_call e lr b1 b2 epsilon name g v0 k call e1 :
  0 < b1 < 1 → 0 < b2 < 1 → 0 < epsilon →
  hyperparameters lr b1 b2 epsilon (optimizer e) →
  accBeta1 (optimizer e) = b1 ^ (k + 1) → accBeta2 (optimizer e) = b2 ^ (k + 1) →
  constantRun lr epsilon b1 b2 name g v0 k e →
  NoDup call.*1 → (name, g) ∈ call →
  applyGradients e call = Some e1 →
  hyperparameters lr b1 b2 epsilon (optimizer e1) ∧
  accBeta1 (optimizer e1) = b1 ^ (S k + 1) ∧ accBeta2 (optimizer e1) = b2 ^ (S k + 1) ∧
  constantRun lr epsilon b1 b2 name g v0 (S k) e1.
Proof.
  intros Hb1 Hb2 He Hh A1 A2 Hrun Hnd Hin H.
  pose proof Hh as (Hc & Heps & Eb1 & Eb2 & H1).
  pose proof (applyGradients_scalars _ _ _ H) as (F1 & F2 & F3 & F4 & F5 & F6 & F7).
  split; [unfold hyperparameters; by rewrite F3, F4, F5, F6, F7|].
  split.
  { rewrite F1, A1, Eb1, !Nat.add_1_r. simpl. unfold Scalar. ring. }
  split.
  { rewrite F2, A2, Eb2, !Nat.add_1_r. simpl. unfold Scalar. ring. }
  apply slot_applyGradients in H as (e2 & E2 & Hs & _).
  destruct (forIn_entry _ _ _ _ _ Hnd Hin E2) as (e3 & E3 & Hs3).
  apply (constantRun_slot _ _ _ _ _ _ _ _ e3); [by rewrite Hs, Hs3|].
  by apply (constant_iteration e lr b1 b2 epsilon name g v0 k e3).
Qed.

Lemma constant_calls calls e lr b1 b2 epsilon name g v0 k e' :
  0 < b1 < 1 → 0 < b2 < 1 → 0 < epsilon →
  hyperparameters lr b1 b2 epsilon (optimizer e) →
  accBeta1 (optimizer e) = b1 ^ (k + 1) → accBeta2 (optimizer e) = b2 ^ (k + 1) →
  constantRun lr epsilon b1 b2 name g v0 k e →
  Forall (λ call, NoDup call.*1 ∧ (name, g) ∈ call) calls →
  applyAll e calls = Some e' →
  constantRun lr epsilon b1 b2 name g v0 (k + length calls) e'.
Proof.
  intros Hb1 Hb2 He. revert e k.
  induction calls as [|call calls IH]; intros e k Hh A1 A2 Hrun Hc H; simpl in H.
  - injection H as <-. simpl. by rewrite Nat.add_0_r.
  - apply Forall_cons in Hc as [[Hnd Hin] Hrest].
    destruct (applyGradients e call) as [e1|] eqn:E1; simpl in H; [|done].
    destruct (constant_call _ _ _ _ _ _ _ _ _ _ _ Hb1 Hb2 He Hh A1 A2 Hrun Hnd Hin E1)
      as (Hh1 & B1 & B2 & Hrun1).
    simpl. rewrite <- Nat.add_succ_comm. by apply (IH e1).
Qed.

(** X7. Bias correction makes a constant gradient give constant steps:
    when every one of [N] completed calls on a fresh optimizer with valid
    hyperparameters passes the same gradient [g] for a parameter that
    started at [v0], each component of the parameter ends at
    [v0 - N * learningRate * g / (epsilon + |g|)], and its moments are
    [(1 - beta1^N) * g] and [(1 - beta2^N) * g^2]. *)
Theorem constant_gradient_steps super_ lr b1 b2 epsilon vars name g v0 calls e' :
  validHyper lr b1 b2 epsilon →
  vars !! name = Some v0 →
  Forall (λ call, NoDup call.*1 ∧ (name, g) ∈ call) calls →
  applyAll (freshEnv super_ lr b1 b2 (Some epsilon) vars) calls = Some e' →
  ∃ val, registeredVariables e' !! name = Some val ∧ sameShape val v0 = true ∧
    ∀ i x vi, values g !! i = Some x → values v0 !! i = Some vi →
      values val !! i = Some (vi - INR (length calls) * constantStep lr epsilon x) ∧
      values (momentOrZeros (accumulatedFirstMoment (optimizer e')) name val) !! i
        = Some ((1 - b1 ^ length calls) * x) ∧
      values (momentOrZeros (accumulatedSecondMoment (optimizer e')) name val) !! i
        = Some ((1 - b2 ^ length calls) * (x * x)).
Proof.
  intros (_ & Hb1 & Hb2 & He) Hv Hc H.
  set (e0 := freshEnv super_ lr b1 b2 (Some epsilon) vars) in *.
  assert (Hrun0 : constantRun lr epsilon b1 b2 name g v0 0 e0).
  { exists v0. split; [done|]. intros i x vi Hx Hvi.
    unfold momentOrZeros. simpl. rewrite !lookup_empty. simpl.
    rewrite lookup_replicate_2 by (by eapply lookup_lt_Some).
    rewrite Hvi. repeat split; f_equal; ring. }
  assert (A1 : accBeta1 (optimizer e0) = b1 ^ (0 + 1)) by (simpl; unfold Scalar; ring).
  assert (A2 : accBeta2 (optimizer e0) = b2 ^ (0 + 1)) by (simpl; unfold Scalar; ring).
  destruct (constant_calls calls e0 lr b1 b2 epsilon name g v0 0 e' Hb1 Hb2 He
              (hyperparameters_new _ _ _ _ _) A1 A2 Hrun0 Hc H)
    as (val & Hval & Hpt).
  exists val. split; [done|]. split.
  - destruct (applyAll_tracked _ _ _ (momentsMatch_fresh _ _ _ _ _ _) H)
      as (_ & _ & _ & Hp).
    destruct (Hp name v0 Hv) as (val' & Hval' & S). congruence.
  - intros i x vi Hx Hvi. destruct (Hpt i x vi Hx Hvi) as (I1 & I2 & I3).
    simpl in I1, I2, I3. done.
Qed.

(** ** [beforeBatch]: the moments of the graph mode *)

Lemma zeroMoments_cons m node nodes :
  zeroMoments m (node :: nodes) =
  zeroMoments (<[id (output node) := zeros (symShape (output node))]> m) nodes.
Proof. done. Qed.

Lemma zeroMoments_lookup_other m nodes key :
  key ∉ (λ n, id (output n)) <$> nodes → zeroMoments m nodes !! key = m !! key.
Proof.
  revert m. induction nodes as [|node nodes IH]; intros m Hni; [done|].
  rewrite fmap_cons in Hni. apply not_elem_of_cons in Hni as [Hne Hni].
  rewrite zeroMoments_cons, IH by done. by rewrite lookup_insert_ne.
Qed.

Lemma zeroMoments_lookup_key m nodes key :
  key ∈ (λ n, id (output n)) <$> nodes →
  ∃ node', node' ∈ nodes ∧ id (output node') = key ∧
    zeroMoments m nodes !! key = Some (zeros (symShape (output node'))).
Proof.
  revert m. induction nodes as [|n0 nodes IH]; intros m Hin.
  - by apply elem_of_nil in Hin.
  - rewrite zeroMoments_cons.
    destruct (decide (key ∈ (λ n, id (output n)) <$> nodes)) as [Hk|Hk].
    + destruct (IH (<[id (output n0) := zeros (symShape (output n0))]> m) Hk)
        as (node' & Hin' & Hid' & Hl).
      exists node'. split; [by right|]. done.
    + rewrite fmap_cons in Hin. apply elem_of_cons in Hin as [->|Hin]; [|done].
      exists n0. split; [left|]. split; [done|].
      rewrite zeroMoments_lookup_other by done. by rewrite lookup_insert_eq.
Qed.

Lemma zeroMoments_lookup m nodes node :
  node ∈ nodes →
  ∃ node', node' ∈ nodes ∧ id (output node') = id (output node) ∧
    zeroMoments m nodes !! id (output node) = Some (zeros (symShape (output node'))).
Proof.
  intros Hin. apply zeroMoments_lookup_key.
  apply list_elem_of_fmap. by exists node.
Qed.

Lemma zeroMoments_dom m nodes :
  dom (zeroMoments m nodes) =
  list_to_set ((λ n, id (output n)) <$> nodes) ∪ dom m.
Proof.
  revert m. induction nodes as [|n0 nodes IH]; intros m.
  - simpl. by rewrite (left_id_L ∅ (∪)).
  - rewrite zeroMoments_cons, IH, dom_insert_L. simpl.
    rewrite (assoc_L (∪)). f_equal. apply (comm_L (∪)).
Qed.

Lemma isZero_zeros sh : isZero (zeros sh).
Proof. unfold isZero. simpl. by apply Forall_replicate. Qed.

Lemma NoDup_ids_eq (nodes : list Node) n1 n2 :
  NoDup ((λ n, id (output n)) <$> nodes) → n1 ∈ nodes → n2 ∈ nodes →
  id (output n1) = id (output n2) → n1 = n2.
Proof.
  intros Hnd H1 H2 Hid.
  apply list_elem_of_lookup in H1 as [i Hi], H2 as [j Hj].
  assert (i = j) as ->; [|congruence].
  eapply NoDup_lookup; [exact Hnd| |].
  - rewrite list_lookup_fmap, Hi. done.
  - rewrite list_lookup_fmap, Hj. simpl. by rewrite Hid.
Qed.

(** X8. [beforeBatch] installs what the base class chose and leaves the
    scalars and the eager moments alone.  While the optimizer has no graph
    moments it creates one zero tensor per variable node, keyed by the
    node's output and (for nodes with distinct outputs) of the output's
    shape, and nothing else; once the map is not empty it is left as it
    is.  The second moments are treated the same way. *)
Theorem beforeBatch_moments superBeforeBatch o :
  let o' := beforeBatch superBeforeBatch o in
  let nodes := variableNodes (superBeforeBatch (base o)) in
  base o' = superBeforeBatch (base o) ∧
  scalars o' = scalars o ∧
  accumulatedFirstMoment o' = accumulatedFirstMoment o ∧
  accumulatedSecondMoment o' = accumulatedSecondMoment o ∧
  (firstMomentGraph o = ∅ →
     dom (firstMomentGraph o') = list_to_set ((λ n, id (output n)) <$> nodes) ∧
     ∀ node, node ∈ nodes →
       ∃ t, firstMomentGraph o' !! id (output node) = Some t ∧ isZero t ∧
            (NoDup ((λ n, id (output n)) <$> nodes) →
             t = zeros (symShape (output node)))) ∧
  (firstMomentGraph o ≠ ∅ → firstMomentGraph o' = firstMomentGraph o) ∧
  (secondMomentGraph o = ∅ →
     dom (secondMomentGraph o') = list_to_set ((λ n, id (output n)) <$> nodes) ∧
     ∀ node, node ∈ nodes →
       ∃ t, secondMomentGraph o' !! id (output node) = Some t ∧ isZero t ∧
            (NoDup ((λ n, id (output n)) <$> nodes) →
             t = zeros (symShape (output node)))) ∧
  (secondMomentGraph o ≠ ∅ → secondMomentGraph o' = secondMomentGraph o).
Proof.
  intros o' nodes. unfold o', beforeBatch. simpl.
  assert (Hcreate : ∀ m : TensorArrayMap, m = ∅ →
    dom (zeroMoments m nodes) = list_to_set ((λ n, id (output n)) <$> nodes) ∧
    ∀ node, node ∈ nodes →
      ∃ t, zeroMoments m nodes !! id (output node) = Some t ∧ isZero t ∧
           (NoDup ((λ n, id (output n)) <$> nodes) →
            t = zeros (symShape (output node)))).
  { intros m ->. split.
    - by rewrite zeroMoments_dom, dom_empty_L, (right_id_L ∅ (∪)).
    - intros node Hin.
      destruct (zeroMoments_lookup ∅ nodes node Hin) as (node' & Hin' & Hid & Hl).
      eexists. split; [exact Hl|]. split; [apply isZero_zeros|].
      intros Hnd. by rewrite (NoDup_ids_eq nodes node' node Hnd Hin' Hin Hid). }
  do 4 (split; [done|]).
  split; [|split; [|split]].
  - intros He. rewrite decide_True by (by rewrite He, map_size_empty).
    by apply Hcreate.
  - intros Hne. rewrite decide_False; [done|].
    intros Hs. by apply map_size_empty_iff in Hs.
  - intros He. rewrite decide_True by (by rewrite He, map_size_empty).
    by apply Hcreate.
  - intros Hne. rewrite decide_False; [done|].
    intros Hs. by apply map_size_empty_iff in Hs.
Qed.

(** ** [afterBatch]: errors *)

Lemma afterBatchNode_inv g node g' node' :
  afterBatchNode g node = Some (g', node') →
  ∃ v grad fm sm nf ns nv,
    graphSlot g (id (output node)) = (Some fm, Some sm, Some v) ∧
    variableGradients (base (graphOptimizer g)) !! id (output node) = Some grad ∧
    nodeUpdate (graphOptimizer g) fm sm grad v = Some (nf, ns, nv) ∧
    g' = {| graphOptimizer :=
              setGraph (graphOptimizer g)
                (disposeGradient (base (graphOptimizer g)) (id (output node)))
                (<[id (output node) := nf]> (firstMomentGraph (graphOptimizer g)))
                (<[id (output node) := ns]> (secondMomentGraph (graphOptimizer g)));
            activationArrayMap := <[id (output node) := nv]> (activationArrayMap g) |} ∧
    node' = {| output := output node; data := nv |}.
Proof.
  unfold afterBatchNode, graphSlot. intros H.
  destruct (activationArrayMap g !! _) as [v|]; simpl in H; [|done].
  destruct (variableGradients _ !! _) as [grad|]; simpl in H; [|done].
  destruct (firstMomentGraph _ !! _) as [fm|]; simpl in H; [|done].
  destruct (secondMomentGraph _ !! _) as [sm|]; simpl in H; [|done].
  destruct (nodeUpdate _ _ _ _ _) as [[[nf ns] nv]|] eqn:E; simpl in H; [|done].
  injection H as <- <-. by exists v, grad, fm, sm, nf, ns, nv.
Qed.

(** A node lacks an entry in one of the four maps of the graph mode. *)
Lemma forEachNode_missing g nodes node :
  node ∈ nodes →
  activationArrayMap g !! id (output node) = None ∨
  variableGradients (base (graphOptimizer g)) !! id (output node) = None ∨
  firstMomentGraph (graphOptimizer g) !! id (output node) = None ∨
  secondMomentGraph (graphOptimizer g) !! id (output node) = None →
  forEachNode g nodes = None.
Proof.
  revert g. induction nodes as [|n0 nodes IH]; intros g Hin Hmiss.
  - by apply elem_of_nil in Hin.
  - simpl. destruct (afterBatchNode g n0) as [[g1 n1]|] eqn:E1; simpl; [|done].
    apply afterBatchNode_inv in E1
      as (v & grad & fm & sm & nf & ns & nv & [= Hf Hs Hv] & Hg & _ & -> & _).
    assert (Hne : id (output n0) ≠ id (output node)).
    { intros Heq. rewrite Heq in Hf, Hs, Hv, Hg.
      destruct Hmiss as [?|[?|[?|?]]]; congruence. }
    apply elem_of_cons in Hin as [->|Hin]; [done|].
    rewrite (IH _ Hin); [done|]. simpl.
    by rewrite !lookup_insert_ne, lookup_delete_ne.
Qed.

(** X9. [afterBatch] throws when some variable node has no activation, no
    summed gradient, no first moment or no second moment under its output,
    whatever the other nodes hold. *)
Theorem afterBatch_missing_entry g node :
  node ∈ variableNodes (base (graphOptimizer g)) →
  activationArrayMap g !! id (output node) = None ∨
  variableGradients (base (graphOptimizer g)) !! id (output node) = None ∨
  firstMomentGraph (graphOptimizer g) !! id (output node) = None ∨
  secondMomentGraph (graphOptimizer g) !! id (output node) = None →
  afterBatch g = None.
Proof.
  intros Hin Hmiss. unfold afterBatch.
  by rewrite (forEachNode_missing _ _ _ Hin Hmiss).
Qed.

(** X10. Moments are created for the variable nodes of the first batch
    only: when the optimizer already has graph moments and the base class
    then selects a variable node whose output has no first moment,
    [beforeBatch] creates none for it, and an [afterBatch] on the variable
    nodes and first moments that [beforeBatch] left throws, whatever the
    session's activations and the summed gradients are. *)
Theorem afterBatch_new_node_throws superBeforeBatch o node g :
  firstMomentGraph o ≠ ∅ →
  node ∈ variableNodes (superBeforeBatch (base o)) →
  firstMomentGraph o !! id (output node) = None →
  variableNodes (base (graphOptimizer g)) =
    variableNodes (base (beforeBatch superBeforeBatch o)) →
  firstMomentGraph (graphOptimizer g) =
    firstMomentGraph (beforeBatch superBeforeBatch o) →
  afterBatch g = None.
Proof.
  intros Hne Hin Hmiss Hnodes Hfm. unfold afterBatch.
  rewrite (forEachNode_missing g _ node); [done|by rewrite Hnodes|].
  right; right; left. rewrite Hfm. simpl.
  rewrite decide_False; [done|]. intros Hs. by apply map_size_empty_iff in Hs.
Qed.

(** ** [afterBatch]: completion and what a batch touches *)

Lemma nodeUpdate_total o fm sm grad v :
  one o = 1 →
  sameShape fm v = true → sameShape sm v = true → sameShape grad v = true →
  ∃ nf ns nv, nodeUpdate o fm sm grad v = Some (nf, ns, nv) ∧
    sameShape nf v = true ∧ sameShape ns v = true ∧ sameShape nv v = true.
Proof.
  intros H1 S1 S2 S3. rewrite nodeUpdate_tidyUpdate by done.
  destruct (tidyUpdate_spec (withStep o (cGraph (base o))) fm sm grad v H1 S1 S2 S3)
    as (nf & ns & nv & Ht & Snf & Sns & Snv & _).
  by exists nf, ns, nv.
Qed.

Lemma forEachNode_total g nodes :
  one (graphOptimizer g) = 1 →
  NoDup ((λ n, id (output n)) <$> nodes) →
  (∀ node, node ∈ nodes →
     ∃ v grad fm sm,
       graphSlot g (id (output node)) = (Some fm, Some sm, Some v) ∧
       variableGradients (base (graphOptimizer g)) !! id (output node) = Some grad ∧
       sameShape fm v = true ∧ sameShape sm v = true ∧ sameShape grad v = true) →
  is_Some (forEachNode g nodes).
Proof.
  revert g. induction nodes as [|n0 nodes IH]; intros g H1 Hnd Hready; simpl.
  - by eexists.
  - rewrite fmap_cons in Hnd. apply NoDup_cons in Hnd as [Hni Hnd].
    destruct (Hready n0) as (v & grad & fm & sm & [= Hf Hs Hv] & Hg & S1 & S2 & S3);
      [left|].
    destruct (nodeUpdate_total (graphOptimizer g) fm sm grad v H1 S1 S2 S3)
      as (nf & ns & nv & En & Snf & Sns & Snv).
    unfold afterBatchNode. rewrite Hv, Hg, Hf, Hs. simpl. rewrite En. simpl.
    match goal with |- context [forEachNode ?g1 nodes] =>
      destruct (IH g1) as [[g2 rest'] E2]; [done|done| |by rewrite E2; eexists] end.
    intros node Hin.
    destruct (Hready node) as (v' & grad' & fm' & sm' & [= Hf' Hs' Hv'] & Hg' & T1 & T2 & T3);
      [by right|].
    assert (Hne : id (output n0) ≠ id (output node)).
    { intros Heq. apply Hni. rewrite Heq.
      by apply (list_elem_of_fmap_2 (λ n, id (output n))). }
    unfold graphSlot. simpl.
    rewrite !lookup_insert_ne, lookup_delete_ne by done.
    exists v', grad', fm', sm'. by rewrite Hf', Hs', Hv'.
Qed.

(** X11. [afterBatch] completes when the variable nodes have distinct
    outputs and every one of them has, under its output, an activation, a
    summed gradient and both moments, all of one shape (and [one] is 1, as
    the constructor leaves it). *)
Theorem afterBatch_total g :
  one (graphOptimizer g) = 1 →
  NoDup ((λ n, id (output n)) <$> variableNodes (base (graphOptimizer g))) →
  graphReady g → is_Some (afterBatch g).
Proof.
  intros H1 Hnd Hready. unfold afterBatch.
  destruct (forEachNode_total g _ H1 Hnd Hready) as [[g' nodes'] E].
  rewrite E. simpl. by eexists.
Qed.

Lemma forEachNode_duplicate g nodes :
  ¬ NoDup ((λ n, id (output n)) <$> nodes) → forEachNode g nodes = None.
Proof.
  revert g. induction nodes as [|n0 nodes IH]; intros g Hnd.
  - destruct Hnd. constructor.
  - simpl. destruct (afterBatchNode g n0) as [[g1 n1]|] eqn:E1; simpl; [|done].
    destruct (decide (id (output n0) ∈ (λ n, id (output n)) <$> nodes)) as [Hin|Hni].
    + apply list_elem_of_fmap in Hin as (node & Hid & Hin).
      apply afterBatchNode_inv in E1 as (v & grad & fm & sm & nf & ns & nv & _ & _ & _ & -> & _).
      rewrite (forEachNode_missing _ nodes node Hin); [done|].
      right; left. simpl. rewrite <- Hid. apply lookup_delete_eq.
    + rewrite IH; [done|]. intros Hnd'. apply Hnd. rewrite fmap_cons.
      by apply NoDup_cons_2.
Qed.

(** X16. [afterBatch] throws when two variable nodes have the same output:
    the first of them disposes the summed gradient (line 166) that the
    second reads. *)
Theorem afterBatch_duplicate_node g :
  ¬ NoDup ((λ n, id (output n)) <$> variableNodes (base (graphOptimizer g))) →
  afterBatch g = None.
Proof.
  intros Hnd. unfold afterBatch. by rewrite (forEachNode_duplicate _ _ Hnd).
Qed.

Lemma forEachNode_frame g nodes g' nodes' :
  forEachNode g nodes = Some (g', nodes') →
  output <$> nodes' = output <$> nodes ∧
  accumulatedFirstMoment (graphOptimizer g') = accumulatedFirstMoment (graphOptimizer g) ∧
  accumulatedSecondMoment (graphOptimizer g') = accumulatedSecondMoment (graphOptimizer g) ∧
  dom (firstMomentGraph (graphOptimizer g')) = dom (firstMomentGraph (graphOptimizer g)) ∧
  dom (secondMomentGraph (graphOptimizer g')) = dom (secondMomentGraph (graphOptimizer g)) ∧
  dom (activationArrayMap g') = dom (activationArrayMap g) ∧
  (∀ key, key ∉ (λ n, id (output n)) <$> nodes →
     graphSlot g' key = graphSlot g key).
Proof.
  revert g g' nodes'. induction nodes as [|n0 nodes IH]; intros g g' nodes' H;
    simpl in H.
  - by injection H as <- <-.
  - destruct (afterBatchNode g n0) as [[g1 n1]|] eqn:E1; simpl in H; [|done].
    destruct (forEachNode g1 nodes) as [[g2 rest']|] eqn:E2; simpl in H; [|done].
    injection H as <- <-.
    apply afterBatchNode_inv in E1
      as (v & grad & fm & sm & nf & ns & nv & [= Hf Hs Hv] & Hg & _ & -> & ->).
    apply IH in E2 as (Ho & A1 & A2 & D1 & D2 & D3 & Hfr).
    simpl in *. rewrite dom_insert_L in D1, D2, D3.
    split; [by f_equal|]. do 2 (split; [done|]).
    apply elem_of_dom_2 in Hf, Hs, Hv.
    split; [rewrite D1; apply subseteq_union_1_L; by apply singleton_subseteq_l|].
    split; [rewrite D2; apply subseteq_union_1_L; by apply singleton_subseteq_l|].
    split; [rewrite D3; apply subseteq_union_1_L; by apply singleton_subseteq_l|].
    intros key Hni. apply not_elem_of_cons in Hni as [Hne Hni].
    rewrite (Hfr key Hni). unfold graphSlot. simpl.
    by rewrite !lookup_insert_ne.
Qed.

Lemma forEachNode_data g nodes g' nodes' :
  NoDup ((λ n, id (output n)) <$> nodes) →
  forEachNode g nodes = Some (g', nodes') →
  ∀ node', node' ∈ nodes' →
    activationArrayMap g' !! id (output node') = Some (data node').
Proof.
  revert g g' nodes'. induction nodes as [|n0 nodes IH]; intros g g' nodes' Hnd H;
    simpl in H.
  - injection H as <- <-. intros node' Hin. by apply elem_of_nil in Hin.
  - rewrite fmap_cons in Hnd. apply NoDup_cons in Hnd as [Hni Hnd].
    destruct (afterBatchNode g n0) as [[g1 n1]|] eqn:E1; simpl in H; [|done].
    destruct (forEachNode g1 nodes) as [[g2 rest']|] eqn:E2; simpl in H; [|done].
    injection H as <- <-.
    apply afterBatchNode_inv in E1
      as (v & grad & fm & sm & nf & ns & nv & _ & _ & _ & -> & ->).
    intros node' [->|Hin]%elem_of_cons; [|by eapply IH].
    apply forEachNode_frame in E2 as (_ & _ & _ & _ & _ & _ & Hfr).
    specialize (Hfr _ Hni). unfold graphSlot in Hfr. simpl in Hfr.
    simpl. injection Hfr as _ _ ->. by rewrite lookup_insert_eq.
Qed.

(** X12. A completed [afterBatch] empties the summed gradients, keeps the
    step scalars, [eps], the decay rates, the eager moment maps and the
    outputs of the variable nodes, and creates or removes no entry of the
    graph moments and of the activations; when the variable nodes have
    distinct outputs, every node's [data] is the activation stored under
    its output. *)
Theorem afterBatch_frame g g' :
  afterBatch g = Some g' →
  let o := graphOptimizer g in
  let o' := graphOptimizer g' in
  variableGradients (base o') = ∅ ∧ cGraph (base o') = cGraph (base o) ∧
  c o' = c o ∧ eps o' = eps o ∧ beta1 o' = beta1 o ∧ beta2 o' = beta2 o ∧
  one o' = one o ∧
  accumulatedFirstMoment o' = accumulatedFirstMoment o ∧
  accumulatedSecondMoment o' = accumulatedSecondMoment o ∧
  output <$> variableNodes (base o') = output <$> variableNodes (base o) ∧
  dom (firstMomentGraph o') = dom (firstMomentGraph o) ∧
  dom (secondMomentGraph o') = dom (secondMomentGraph o) ∧
  dom (activationArrayMap g') = dom (activationArrayMap g) ∧
  (NoDup ((λ n, id (output n)) <$> variableNodes (base o)) →
   ∀ node', node' ∈ variableNodes (base o') →
     activationArrayMap g' !! id (output node') = Some (data node')).
Proof.
  unfold afterBatch. intros H.
  destruct (forEachNode g _) as [[g1 nodes1]|] eqn:E1; simpl in H; [|done].
  injection H as <-. simpl.
  pose proof (forEachNode_scalars _ _ _ _ E1) as ([= Hc He Hb1 Hb2 _ _ H1] & Hb & _).
  pose proof (forEachNode_frame _ _ _ _ E1) as (Ho & A1 & A2 & D1 & D2 & D3 & _).
  rewrite Hb. do 9 (split; [done|]). do 4 (split; [done|]).
  intros Hnd. by eapply forEachNode_data.
Qed.

(** ** [afterBatch]: zero gradients, and the first batch *)




(** X14. The first batch completes: on an optimizer without graph moments,
    after [beforeBatch] has created the moments for variable nodes with
    distinct outputs, [afterBatch] completes whenever the session holds, for
    every variable node, an activation and a summed gradient of the shape
    of the zero tensor of the node's output (and [one] is 1). *)
Theorem first_batch_completes superBeforeBatch o g :
  firstMomentGraph o = ∅ → secondMomentGraph o = ∅ →
  NoDup ((λ n, id (output n)) <$> variableNodes (superBeforeBatch (base o))) →
  one (graphOptimizer g) = 1 →
  variableNodes (base (graphOptimizer g)) =
    variableNodes (base (beforeBatch superBeforeBatch o)) →
  firstMomentGraph (graphOptimizer g) =
    firstMomentGraph (beforeBatch superBeforeBatch o) →
  secondMomentGraph (graphOptimizer g) =
    secondMomentGraph (beforeBatch superBeforeBatch o) →
  (∀ node, node ∈ variableNodes (superBeforeBatch (base o)) →
     ∃ v grad,
       activationArrayMap g !! id (output node) = Some v ∧
       variableGradients (base (graphOptimizer g)) !! id (output node) = Some grad ∧
       sameShape (zeros (symShape (output node))) v = true ∧
       sameShape grad v = true) →
  is_Some (afterBatch g).
Proof.
  intros E1 E2 Hnd H1 Hnodes Hfm Hsm Hsession.
  assert (Hready : graphReady g).
  { intros node Hin. rewrite Hnodes in Hin. simpl in Hin.
    destruct (Hsession node Hin) as (v & grad & Hv & Hg & S0 & Sg).
    destruct (zeroMoments_lookup ∅ _ node Hin) as (node' & Hin' & Hid & Hl).
    rewrite (NoDup_ids_eq _ node' node Hnd Hin' Hin Hid) in Hl.
    exists v, grad, (zeros (symShape (output node))), (zeros (symShape (output node))).
    unfold graphSlot. rewrite Hfm, Hsm, Hv. simpl.
    rewrite !decide_True by (by rewrite ?E1, ?E2, map_size_empty).
    by rewrite E1, E2, Hl. }
  unfold afterBatch.
  destruct (forEachNode_total g _ H1 (eq_ind_r (λ l, NoDup (_ <$> l)) Hnd Hnodes) Hready)
    as [[g' nodes'] E].
  rewrite E. simpl. by eexists.
Qed.

(** ** The further properties on the example set-up *)

Lemma exampleEnv_call grads :
  Forall (λ ng, (ng.1 = "w" ∨ ng.1 = "u") ∧ sameShape ng.2 exampleValue = true) grads →
  ∃ e', applyGradients exampleEnv grads = Some e'.
Proof.
  intros Hall.
  destruct (applyGradients_total exampleEnv grads eq_refl
              (momentsMatch_fresh _ _ _ _ _ _) (example_gradientsMatch _ Hall))
    as (e' & E & _).
  by exists e'.
Qed.

Lemma exampleGraph_ready : graphReady exampleGraph.
Proof.
  intros node Hin. simpl in Hin.
  apply elem_of_cons in Hin as [->|Hin];
    [|apply list_elem_of_singleton in Hin as ->].
  - exists exampleValue, exampleGradient, (zeros [2%nat]), (zeros [2%nat]). done.
  - exists exampleValue, zeroGradient, (zeros [2%nat]), (zeros [2%nat]). done.
Qed.

Lemma exampleGraph_NoDup :
  NoDup ((λ n, id (output n)) <$> variableNodes (base (graphOptimizer exampleGraph))).
Proof.
  simpl. apply NoDup_cons_2; [|apply NoDup_singleton].
  by intros ?%list_elem_of_singleton.
Qed.

Lemma exampleGraph_afterBatch : ∃ g', afterBatch exampleGraph = Some g'.
Proof.
  unfold afterBatch.
  destruct (forEachNode_total exampleGraph _ eq_refl exampleGraph_NoDup
              exampleGraph_ready)
    as [[g' nodes'] E].
  rewrite E. simpl. by eexists.
Qed.

(** X4 on the example. *)
Lemma applyGradients_frame_witness :
  ∃ e', applyGradients exampleEnv [("w", exampleGradient)] = Some e' ∧
        c (optimizer e') = -1 ∧ base (optimizer e') = noGraph ∧
        firstMomentGraph (optimizer e') = ∅.
Proof.
  destruct (exampleEnv_call [("w", exampleGradient)]) as [e' E].
  { apply Forall_singleton. split; [by left|done]. }
  destruct (applyGradients_frame exampleEnv [("w", exampleGradient)] e' E)
    as (Hc & _ & _ & _ & _ & Hb & Hf & _).
  exists e'. split; [exact E|]. split; [exact Hc|]. split; [exact Hb|exact Hf].
Defined.

(** X5 on the example: the second component of ["w"], whose gradient is
    negative. *)
Lemma first_step_bounded_witness :
  ∃ e' nv y,
    applyGradients exampleEnv [("w", exampleGradient)] = Some e' ∧
    registeredVariables e' !! "w" = Some nv ∧
    values nv !! 1%nat = Some y ∧ Rabs (y - 2) < 1 ∧ 2 < y.
Proof.
  destruct (first_step_bounded noGraph 1 (1/2) (1/2) 1 exampleVariables "w"
              exampleGradient exampleValue example_validHyper exampleVariables_w eq_refl)
    as (e' & nv & E & Hv & Hpt).
  destruct (Hpt 1%nat (-1) 2 eq_refl eq_refl) as (y & Hy & Hb & _ & Hn & _).
  exists e', nv, y. do 4 (split; [assumption|]). apply Hn. lra.
Defined.

(** X6 on the example: gradients with components in [[-1, 1]]. *)
Lemma moments_within_gradient_bounds_witness :
  ∃ e', applyAll exampleEnv [[("w", exampleGradient)]; [("u", zeroGradient)]] = Some e' ∧
    (∀ name t, accumulatedFirstMoment (optimizer e') !! name = Some t → within (-1) 1 t) ∧
    (∀ name t, accumulatedSecondMoment (optimizer e') !! name = Some t →
       within 0 (1 * 1) t).
Proof.
  destruct (applyAll_total exampleEnv
              [[("w", exampleGradient)]; [("u", zeroGradient)]]
              eq_refl (momentsMatch_fresh _ _ _ _ _ _))
    as (e' & E & _).
  { repeat apply Forall_cons_2; [| |apply Forall_nil_2];
      apply example_gradientsMatch; repeat constructor; by right. }
  exists e'. split; [exact E|].
  apply (moments_within_gradient_bounds noGraph 1 (1/2) (1/2) (Some 1) exampleVariables
           [[("w", exampleGradient)]; [("u", zeroGradient)]] 1 e'); try lra;
    [|exact E].
  repeat apply Forall_cons_2; try apply Forall_nil_2; unfold within; simpl;
    repeat apply Forall_cons_2; try apply Forall_nil_2; lra.
Defined.

(** X7 on the example: two calls with the same gradient for ["w"]. *)
Lemma constant_gradient_steps_witness :
  ∃ e' val,
    applyAll exampleEnv [[("w", exampleGradient)]; [("w", exampleGradient)]] = Some e' ∧
    registeredVariables e' !! "w" = Some val ∧
    values val !! 0%nat = Some (1 - INR 2 * constantStep 1 1 1).
Proof.
  destruct (applyAll_total exampleEnv
              [[("w", exampleGradient)]; [("w", exampleGradient)]]
              eq_refl (momentsMatch_fresh _ _ _ _ _ _))
    as (e' & E & _).
  { repeat apply Forall_cons_2; [| |apply Forall_nil_2];
      apply example_gradientsMatch; repeat constructor; by left. }
  destruct (constant_gradient_steps noGraph 1 (1/2) (1/2) 1 exampleVariables "w"
              exampleGradient exampleValue
              [[("w", exampleGradient)]; [("w", exampleGradient)]] e'
              example_validHyper exampleVariables_w)
    as (val & Hval & _ & Hpt); [|exact E|].
  { repeat apply Forall_cons_2; [| |apply Forall_nil_2];
      (split; [apply example_NoDup|apply list_elem_of_here]). }
  destruct (Hpt 0%nat 1 1 eq_refl eq_refl) as (P & _ & _).
  exists e', val. split; [exact E|]. split; [exact Hval|exact P].
Defined.

(** X9 on the example: the session holds no activation. *)
Lemma afterBatch_missing_entry_witness :
  afterBatch {| graphOptimizer := graphOptimizer exampleGraph;
                activationArrayMap := ∅ |} = None.
Proof.
  apply (afterBatch_missing_entry _ nodeA).
  - apply list_elem_of_here.
  - left. reflexivity.
Defined.

(** X10 on the example: a second batch whose variable nodes include a new
    one. *)
Lemma afterBatch_new_node_throws_witness :
  afterBatch
    {| graphOptimizer :=
         beforeBatch
           (λ b, mkOptimizer (cGraph b)
                   (mkNode (mkSymbolicTensor 3 [2%nat]) exampleValue :: variableNodes b)
                   (variableGradients b))
           (graphOptimizer exampleGraph);
       activationArrayMap := activationArrayMap exampleGraph |} = None.
Proof.
  apply (afterBatch_new_node_throws
           (λ b, mkOptimizer (cGraph b)
                   (mkNode (mkSymbolicTensor 3 [2%nat]) exampleValue :: variableNodes b)
                   (variableGradients b))
           (graphOptimizer exampleGraph)
           (mkNode (mkSymbolicTensor 3 [2%nat]) exampleValue)).
  - intros He. apply (f_equal (λ m : TensorArrayMap, m !! 1%nat)) in He.
    rewrite lookup_empty in He. discriminate He.
  - apply list_elem_of_here.
  - reflexivity.
  - reflexivity.
  - reflexivity.
Defined.

(** X11 on the example. *)
Lemma afterBatch_total_witness : is_Some (afterBatch exampleGraph).
Proof.
  exact (afterBatch_total exampleGraph eq_refl exampleGraph_NoDup exampleGraph_ready).
Defined.

(** X16 on the example: the node of output 1 listed twice. *)
Lemma afterBatch_duplicate_node_witness :
  afterBatch
    {| graphOptimizer :=
         setGraph (graphOptimizer exampleGraph)
           (mkOptimizer (-1/2) [nodeA; nodeB; nodeA]
              (variableGradients (base (graphOptimizer exampleGraph))))
           (firstMomentGraph (graphOptimizer exampleGraph))
           (secondMomentGraph (graphOptimizer exampleGraph));
       activationArrayMap := activationArrayMap exampleGraph |} = None.
Proof.
  apply afterBatch_duplicate_node. simpl. intros Hnd.
  apply NoDup_cons in Hnd as [Hni _]. apply Hni.
  apply list_elem_of_further, list_elem_of_here.
Defined.

(** X12 on the example. *)
Lemma afterBatch_frame_witness :
  ∃ g', afterBatch exampleGraph = Some g' ∧
    variableGradients (base (graphOptimizer g')) = ∅ ∧
    dom (activationArrayMap g') = dom (activationArrayMap exampleGraph) ∧
    ∀ node', node' ∈ variableNodes (base (graphOptimizer g')) →
      activationArrayMap g' !! id (output node') = Some (data node').
Proof.
  destruct exampleGraph_afterBatch as [g' E].
  destruct (afterBatch_frame exampleGraph g' E)
    as (Hg & _ & _ & _ & _ & _ & _ & _ & _ & _ & _ & _ & Hd & Hdata).
  exists g'. do 3 (split; [assumption|]). apply Hdata.
  simpl. apply NoDup_cons_2; [|apply NoDup_singleton].
  by intros ?%list_elem_of_singleton.
Defined.


(** X14 on the example: the first batch of the example graph. *)
Lemma first_batch_completes_witness : is_Some (afterBatch exampleGraph).
Proof.
  apply (first_batch_completes exampleSuper (optimizer exampleEnv) exampleGraph);
    try reflexivity.
  - simpl. apply NoDup_cons_2; [|apply NoDup_singleton].
    by intros ?%list_elem_of_singleton.
  - intros node Hin. simpl in Hin.
    apply elem_of_cons in Hin as [->|Hin];
      [|apply list_elem_of_singleton in Hin as ->].
    + by exists exampleValue, exampleGradient.
    + by exists exampleValue, zeroGradient.
Defined.

(** ** The two modes on one optimizer *)

(** X15. The eager and the graph mode advance the same accumulators: after
    a completed [afterBatch] and a completed [applyGradients] on the same
    optimizer, [accBeta1] and [accBeta2] have been multiplied by [beta1]
    and [beta2] twice, so the bias correction of either mode counts the
    updates of both. *)
Theorem modes_share_accumulators g g' vars grads e' :
  afterBatch g = Some g' →
  applyGradients {| optimizer := graphOptimizer g'; registeredVariables := vars |} grads
    = Some e' →
  accBeta1 (optimizer e') =
    accBeta1 (graphOptimizer g) * beta1 (graphOptimizer g) * beta1 (graphOptimizer g) ∧
  accBeta2 (optimizer e') =
    accBeta2 (graphOptimizer g) * beta2 (graphOptimizer g) * beta2 (graphOptimizer g).
Proof.
  intros Hb Ha.
  apply applyGradients_scalars in Ha as (-> & -> & _). simpl.
  unfold afterBatch in Hb.
  destruct (forEachNode g _) as [[g1 nodes1]|] eqn:E1; simpl in Hb; [|done].
  injection Hb as <-. simpl.
  apply forEachNode_scalars in E1 as ([= _ _ -> -> -> -> _] & _ & _). done.
Qed.

(** X15 on the example: a batch, then an eager call. *)
Lemma modes_share_accumulators_witness :
  ∃ g' e',
    afterBatch exampleGraph = Some g' ∧
    applyGradients {| optimizer := graphOptimizer g';
                      registeredVariables := exampleVariables |} [] = Some e' ∧
    accBeta1 (optimizer e') = 1/2 * (1/2) * (1/2).
Proof.
  destruct exampleGraph_afterBatch as [g' E].
  exists g'. eexists. split; [exact E|]. split; [reflexivity|].
  apply (modes_share_accumulators exampleGraph g' exampleVariables [] _ E eq_refl).
Defined.

(** * The variables as objects of the engine *)

(** ** The engine's variables: lemmas *)

Lemma parameters_lookup vars name :
  parameters vars !! name =
    (var ← vars !! name;
     if Aliasing.trainable var then Some (Aliasing.tensor var) else None).
Proof. unfold parameters. by rewrite lookup_omap. Qed.

Lemma momentValues_lookup vars m name :
  momentValues vars m !! name =
    (moment ← m !! name; Aliasing.tensor <$> vars !! moment).
Proof. unfold momentValues. by rewrite lookup_omap. Qed.

Lemma momentsDistinct_sym m1 m2 : momentsDistinct m1 m2 → momentsDistinct m2 m1.
Proof.
  intros (I1 & I2 & D). split; [done|]. split; [done|].
  intros n n' moment H2 H1. by eapply D.
Qed.

Lemma parameters_trainable vars name var :
  vars !! name = Some var → Aliasing.trainable var = true →
  parameters vars !! name = Some (Aliasing.tensor var).
Proof. intros Hv Ht. rewrite parameters_lookup, Hv. simpl. by rewrite Ht. Qed.

Lemma parameters_insert_moment vars moment t :
  (∀ var, vars !! moment = Some var → Aliasing.trainable var = false) →
  parameters (<[moment := Aliasing.mkVariable false t]> vars) = parameters vars.
Proof.
  intros Hm. apply map_eq. intros n. rewrite !parameters_lookup.
  destruct (decide (n = moment)) as [->|Hne].
  - rewrite lookup_insert_eq. simpl.
    destruct (vars !! moment) as [var|] eqn:E; simpl; [|done].
    by rewrite (Hm var).
  - by rewrite lookup_insert_ne.
Qed.

Lemma parameters_insert_trainable vars name t :
  parameters (<[name := Aliasing.mkVariable true t]> vars) = <[name := t]> (parameters vars).
Proof.
  apply map_eq. intros n. rewrite parameters_lookup.
  destruct (decide (n = name)) as [->|Hne].
  - by rewrite !lookup_insert_eq.
  - by rewrite !lookup_insert_ne, parameters_lookup.
Qed.

(** Writing a variable that [m] does not hold. *)
Lemma momentValues_insert_other vars m x var :
  (∀ n, m !! n ≠ Some x) →
  momentValues (<[x := var]> vars) m = momentValues vars m.
Proof.
  intros Hx. apply map_eq. intros n. rewrite !momentValues_lookup.
  destruct (m !! n) as [moment|] eqn:E; simpl; [|done].
  rewrite lookup_insert_ne; [done|]. intros <-. by apply (Hx n).
Qed.

(** Writing the moment of [name]. *)
Lemma momentValues_insert_moment vars m name moment tr t :
  m !! name = Some moment →
  (∀ n, m !! n = Some moment → n = name) →
  momentValues (<[moment := Aliasing.mkVariable tr t]> vars) m =
    <[name := t]> (momentValues vars m).
Proof.
  intros Hm Hinj. apply map_eq. intros n.
  destruct (decide (n = name)) as [->|Hne].
  - rewrite lookup_insert_eq, momentValues_lookup, Hm. simpl.
    by rewrite lookup_insert_eq.
  - rewrite lookup_insert_ne, !momentValues_lookup by done.
    destruct (m !! n) as [h|] eqn:E; simpl; [|done].
    rewrite lookup_insert_ne; [done|]. intros <-. by apply Hne, Hinj.
Qed.

Lemma counterFresh_insert_next vars next var :
  counterFresh (Aliasing.mkEngine vars next) →
  counterFresh (Aliasing.mkEngine (<[pretty next := var]> vars) (S next)).
Proof.
  intros Hf k Hk. simpl in *. rewrite lookup_insert_ne.
  - apply Hf. simpl. lia.
  - intros Heq. apply (inj pretty) in Heq. lia.
Qed.

Lemma counterFresh_insert_registered vars next x var :
  is_Some (vars !! x) →
  counterFresh (Aliasing.mkEngine vars next) →
  counterFresh (Aliasing.mkEngine (<[x := var]> vars) next).
Proof.
  intros [old Hx] Hf k Hk. simpl in *. rewrite lookup_insert_ne; [by apply Hf|].
  intros ->. pose proof (Hf k Hk) as Hn. simpl in Hn. congruence.
Qed.

Lemma momentsRegistered_insert vars m x var :
  (∀ old, vars !! x = Some old → Aliasing.trainable var = Aliasing.trainable old) →
  momentsRegistered vars m → momentsRegistered (<[x := var]> vars) m.
Proof.
  intros Hx Hm n moment Hn. destruct (Hm n moment Hn) as (old & Ho & Ht).
  destruct (decide (moment = x)) as [->|Hne].
  - exists var. rewrite lookup_insert_eq. split; [done|]. by rewrite (Hx old).
  - exists old. by rewrite lookup_insert_ne.
Qed.

Lemma materialize_cases en m name V :
  counterFresh en →
  (∃ moment, m !! name = Some moment ∧
     Aliasing.materialize en m name (Some V) = Some (m, en)) ∨
  (m !! name = None ∧
   Aliasing.registeredVariables en !! pretty (Aliasing.nextVarId en) = None ∧
   Aliasing.materialize en m name (Some V) =
     Some (<[name := pretty (Aliasing.nextVarId en)]> m,
           Aliasing.mkEngine
             (<[pretty (Aliasing.nextVarId en) :=
                  Aliasing.mkVariable false (zerosLike (Aliasing.tensor V))]>
                (Aliasing.registeredVariables en))
             (S (Aliasing.nextVarId en)))).
Proof.
  intros Hf. unfold Aliasing.materialize, Aliasing.variable.
  destruct (m !! name) as [moment|] eqn:E.
  - left. by exists moment.
  - right. split; [done|]. simpl. rewrite (Hf _ (le_n _)). done.
Qed.

(** Lines 62-71 on a separated state, for the name of a trainable variable:
    the moment exists afterwards, holding the tensor it held or zeros; the
    other map, the trainable variables and the separation are kept. *)
Lemma materialize_spec vars next m m' name V :
  momentsRegistered vars m → momentsRegistered vars m' → momentsDistinct m m' →
  counterFresh (Aliasing.mkEngine vars next) →
  vars !! name = Some V → Aliasing.trainable V = true →
  ∃ m1 vars1 next1,
    Aliasing.materialize (Aliasing.mkEngine vars next) m name (Some V)
      = Some (m1, Aliasing.mkEngine vars1 next1) ∧
    momentsRegistered vars1 m1 ∧ momentsRegistered vars1 m' ∧ momentsDistinct m1 m' ∧
    counterFresh (Aliasing.mkEngine vars1 next1) ∧
    vars1 !! name = Some V ∧ is_Some (m1 !! name) ∧
    momentValues vars1 m1 =
      <[name := momentOrZeros (momentValues vars m) name (Aliasing.tensor V)]>
        (momentValues vars m) ∧
    momentValues vars1 m' = momentValues vars m' ∧
    parameters vars1 = parameters vars ∧
    (∀ n var, vars !! n = Some var → vars1 !! n = Some var).
Proof.
  intros R1 R2 (I1 & I2 & D) Hf Hv Ht.
  destruct (materialize_cases (Aliasing.mkEngine vars next) m name V Hf)
    as [(moment & Hm & ->)|(Hm & Hfree & ->)]; simpl in *.
  - exists m, vars, next. split; [done|]. do 5 (split; [done|]).
    split; [by eexists|]. split; [|done].
    destruct (R1 _ _ Hm) as (F & HF & _).
    unfold momentOrZeros. rewrite momentValues_lookup, Hm. simpl. rewrite HF. simpl.
    symmetry. apply insert_id. rewrite momentValues_lookup, Hm. simpl. by rewrite HF.
  - set (h := pretty next) in *.
    assert (Hno : ∀ (mm : gmap string string) n, momentsRegistered vars mm → mm !! n ≠ Some h).
    { intros mm n Rm Hn. destruct (Rm _ _ Hn) as (var & Hvar & _). congruence. }
    eexists _, _, _. split; [done|].
    split; [|split; [|split; [|split; [|split; [|split; [|split; [|split; [|split]]]]]]]].
    + intros n moment Hn. destruct (decide (n = name)) as [->|Hne].
      * rewrite lookup_insert_eq in Hn. injection Hn as <-.
        eexists. rewrite lookup_insert_eq. done.
      * rewrite lookup_insert_ne in Hn by done.
        destruct (R1 _ _ Hn) as (var & Hvar & Htr). exists var.
        rewrite lookup_insert_ne; [done|]. intros <-. congruence.
    + intros n moment Hn. destruct (R2 _ _ Hn) as (var & Hvar & Htr). exists var.
      rewrite lookup_insert_ne; [done|]. intros <-. congruence.
    + split; [|split].
      * intros n n' moment H1 H2.
        destruct (decide (n = name)) as [->|Hne], (decide (n' = name)) as [->|Hne'].
        -- done.
        -- rewrite lookup_insert_eq in H1. rewrite lookup_insert_ne in H2 by done.
           injection H1 as <-. by destruct (Hno m n' R1).
        -- rewrite lookup_insert_eq in H2. rewrite lookup_insert_ne in H1 by done.
           injection H2 as <-. by destruct (Hno m n R1).
        -- rewrite lookup_insert_ne in H1, H2 by done. by eapply I1.
      * done.
      * intros n n' moment H1 H2. destruct (decide (n = name)) as [->|Hne].
        -- rewrite lookup_insert_eq in H1. injection H1 as <-. by destruct (Hno m' n' R2).
        -- rewrite lookup_insert_ne in H1 by done. by eapply D.
    + by apply counterFresh_insert_next.
    + rewrite lookup_insert_ne; [done|]. intros <-. congruence.
    + rewrite lookup_insert_eq. by eexists.
    + apply map_eq. intros n. rewrite momentValues_lookup.
      destruct (decide (n = name)) as [->|Hne].
      * rewrite !lookup_insert_eq. simpl. rewrite lookup_insert_eq. simpl.
        unfold momentOrZeros. by rewrite momentValues_lookup, Hm.
      * rewrite !lookup_insert_ne by done. rewrite momentValues_lookup.
        destruct (m !! n) as [h'|] eqn:E; simpl; [|done].
        rewrite lookup_insert_ne; [done|]. intros <-. by destruct (Hno m n R1).
    + apply momentValues_insert_other. intros n. by apply Hno.
    + apply parameters_insert_moment. intros var Hvar. congruence.
    + intros n var Hn. rewrite lookup_insert_ne; [done|]. intros <-. congruence.
Qed.

(** Lines 76-97 on three different variables: the body of [tidy] computes
    what [tidyUpdate] computes from their tensors and writes the three
    results. *)
Lemma tidyBody_tidyUpdate o O vars firstMoment secondMoment name g F S_ V :
  scalars O = scalarsOf o →
  firstMoment ≠ secondMoment → firstMoment ≠ name → secondMoment ≠ name →
  vars !! firstMoment = Some F → vars !! secondMoment = Some S_ →
  vars !! name = Some V →
  Aliasing.tidyBody o vars firstMoment secondMoment g name =
    '(nf, ns, nv) ←
      tidyUpdate O (Aliasing.tensor F) (Aliasing.tensor S_) g (Some (Aliasing.tensor V));
    Some (<[name := Aliasing.mkVariable (Aliasing.trainable V) nv]>
            (<[secondMoment := Aliasing.mkVariable (Aliasing.trainable S_) ns]>
               (<[firstMoment := Aliasing.mkVariable (Aliasing.trainable F) nf]> vars))).
Proof.
  unfold scalars, scalarsOf. intros [= Hc He Hb1 Hb2 Ha1 Ha2 H1] N1 N2 N3 HF HS HV.
  unfold Aliasing.tidyBody, tidyUpdate, Aliasing.assign, assign.
  rewrite Hc, He, Hb1, Hb2, Ha1, Ha2, H1, HF, HS. simpl.
  destruct (add (smul (Aliasing.beta1 o) (Aliasing.tensor F)) _) as [nf|]; simpl; [|done].
  destruct (add (smul (Aliasing.beta2 o) (Aliasing.tensor S_)) _) as [ns|]; simpl; [|done].
  destruct (sameShape (Aliasing.tensor F) nf); simpl; [|done].
  rewrite lookup_insert_ne, HS by done. simpl.
  destruct (sameShape (Aliasing.tensor S_) ns); simpl; [|done].
  destruct (div _ _) as [q|]; simpl; [|done].
  rewrite !lookup_insert_ne, HV by done. simpl.
  destruct (add (smul (Aliasing.c o) q) (Aliasing.tensor V)) as [nv|]; simpl; [|done].
  by destruct (sameShape (Aliasing.tensor V) nv).
Qed.

Lemma view_scalars e : scalars (optimizer (view e)) = scalarsOf (Aliasing.optimizer e).
Proof. done. Qed.

(** An iteration for the name of a trainable variable, on a separated
    state, is the iteration of the abstract model on the view, and keeps the
    state separated. *)
Lemma updateVariable_view e name g :
  separated e → trainableName e name →
  match Aliasing.updateVariable e name g with
  | Some e' =>
      updateVariable (view e) name g = Some (view e') ∧ separated e' ∧
      (∀ n, trainableName e n → trainableName e' n)
  | None => updateVariable (view e) name g = None
  end.
Proof.
  destruct e as [o [vars next]]. intros (R1 & R2 & DD & Hf) (V & Hv & Ht). simpl in *.
  destruct (materialize_spec vars next _ _ name V R1 R2 DD Hf Hv Ht)
    as (m1 & vars1 & next1 & E1 & R11 & R12 & D1 & Hf1 & Hv1 & [hf Hhf] & MV11 & MV12
        & P1 & Ext1).
  destruct (materialize_spec vars1 next1 _ _ name V R12 R11 (momentsDistinct_sym _ _ D1)
              Hf1 Hv1 Ht)
    as (m2 & vars2 & next2 & E2 & R22 & R21 & D2 & Hf2 & Hv2 & [hs Hhs] & MV22 & MV21
        & P2 & Ext2).
  apply momentsDistinct_sym in D2.
  destruct (R21 _ _ Hhf) as (F & HF & HFt). destruct (R22 _ _ Hhs) as (S_ & HS & HSt).
  assert (N1 : hf ≠ hs).
  { intros <-. destruct D2 as (_ & _ & D). by eapply D. }
  assert (N2 : hf ≠ name) by (intros ->; congruence).
  assert (N3 : hs ≠ name) by (intros ->; congruence).
  unfold Aliasing.updateVariable. simpl. rewrite Hv, E1. simpl. rewrite E2. simpl.
  rewrite Hhf, Hhs. simpl.
  rewrite (tidyBody_tidyUpdate o
             (optimizer (view (Aliasing.mkEnv o (Aliasing.mkEngine vars next))))
             vars2 hf hs name g F S_ V) by done.
  rewrite (updateVariable_registered _ name g (Aliasing.tensor V))
    by (by apply parameters_trainable).
  assert (HFv : momentOrZeros (momentValues vars (Aliasing.accumulatedFirstMoment o))
                  name (Aliasing.tensor V) = Aliasing.tensor F).
  { assert (H : momentValues vars2 m1 !! name = Some (Aliasing.tensor F)).
    { rewrite momentValues_lookup, Hhf. simpl. by rewrite HF. }
    rewrite MV21, MV11, lookup_insert_eq in H. by injection H. }
  assert (HSv : momentOrZeros (momentValues vars (Aliasing.accumulatedSecondMoment o))
                  name (Aliasing.tensor V) = Aliasing.tensor S_).
  { assert (H : momentValues vars2 m2 !! name = Some (Aliasing.tensor S_)).
    { rewrite momentValues_lookup, Hhs. simpl. by rewrite HS. }
    rewrite MV22, lookup_insert_eq, MV12 in H. by injection H. }
  simpl. rewrite HFv, HSv.
  destruct (tidyUpdate _ _ _ _ _) as [[[nf ns] nv]|]; simpl; [|done].
  rewrite HFt, HSt, Ht.
  assert (Hn1 : ∀ n, m1 !! n ≠ Some name).
  { intros n Hn. destruct (R21 _ _ Hn) as (var & Hvar & Htr). congruence. }
  assert (Hn2 : ∀ n, m2 !! n ≠ Some name).
  { intros n Hn. destruct (R22 _ _ Hn) as (var & Hvar & Htr). congruence. }
  destruct D2 as (I1 & I2 & D).
  split; [|split].
  - set (vars' := <[name := Aliasing.mkVariable true nv]> _).
    assert (M1 : momentValues vars' m1 =
                   <[name := nf]> (momentValues vars (Aliasing.accumulatedFirstMoment o))).
    { unfold vars'. rewrite momentValues_insert_other by done.
      rewrite momentValues_insert_other by (intros n Hn; by eapply D).
      rewrite (momentValues_insert_moment _ _ name) by (done || intros n Hn; by eapply I1).
      by rewrite MV21, MV11, insert_insert_eq. }
    assert (M2 : momentValues vars' m2 =
                   <[name := ns]> (momentValues vars (Aliasing.accumulatedSecondMoment o))).
    { unfold vars'. rewrite momentValues_insert_other by done.
      rewrite (momentValues_insert_moment _ _ name) by (done || intros n Hn; by eapply I2).
      rewrite momentValues_insert_other by (intros n Hn; by eapply D).
      by rewrite MV22, MV12, insert_insert_eq. }
    assert (P : parameters vars' = <[name := nv]> (parameters vars)).
    { unfold vars'. rewrite parameters_insert_trainable.
      rewrite !parameters_insert_moment; [by rewrite P2, P1| |].
      * intros var Hvar. congruence.
      * intros var Hvar. rewrite lookup_insert_ne in Hvar by done. congruence. }
    unfold view. simpl. by rewrite M1, M2, P.
  - split; [|split; [|split; [done|]]]; simpl.
    + repeat apply momentsRegistered_insert; try done;
        intros old Ho; rewrite ?lookup_insert_ne in Ho by done; simpl; congruence.
    + repeat apply momentsRegistered_insert; try done;
        intros old Ho; rewrite ?lookup_insert_ne in Ho by done; simpl; congruence.
    + repeat apply counterFresh_insert_registered; try done;
        rewrite ?lookup_insert_ne by done; by eexists.
  - intros n (var & Hn & Hnt). unfold trainableName. simpl.
    apply Ext1, Ext2 in Hn.
    destruct (decide (n = name)) as [->|Hne].
    { rewrite lookup_insert_eq. by eexists. }
    rewrite lookup_insert_ne by done.
    destruct (decide (n = hs)) as [->|Hne2]; [congruence|].
    rewrite lookup_insert_ne by done.
    destruct (decide (n = hf)) as [->|Hne3]; [congruence|].
    rewrite lookup_insert_ne by done. by exists var.
Qed.

Lemma trainableName_view e name :
  trainableName e name ↔ is_Some (registeredVariables (view e) !! name).
Proof.
  unfold trainableName. simpl. rewrite parameters_lookup. split.
  - intros (var & -> & Ht). simpl. rewrite Ht. by eexists.
  - intros [t Ht].
    destruct (Aliasing.registeredVariables (Aliasing.engine e) !! name) as [var|];
      simpl in Ht; [|done].
    exists var. split; [done|]. by destruct (Aliasing.trainable var).
Qed.

Lemma forIn_view e grads :
  separated e → Forall (trainableName e) grads.*1 →
  match Aliasing.forIn e grads with
  | Some e' =>
      forIn (view e) grads = Some (view e') ∧ separated e' ∧
      (∀ n, trainableName e n → trainableName e' n)
  | None => forIn (view e) grads = None
  end.
Proof.
  revert e. induction grads as [|[n g] grads IH]; intros e Hs Hn; simpl.
  - done.
  - rewrite fmap_cons in Hn. apply Forall_cons in Hn as [Hn Hrest]. simpl in Hn.
    pose proof (updateVariable_view e n g Hs Hn) as Hstep.
    destruct (Aliasing.updateVariable e n g) as [e1|]; simpl.
    + destruct Hstep as (-> & Hs1 & Hk1). simpl.
      assert (Hrest1 : Forall (trainableName e1) grads.*1).
      { eapply Forall_impl; [exact Hrest|]. intros x. apply Hk1. }
      specialize (IH e1 Hs1 Hrest1).
      destruct (Aliasing.forIn e1 grads) as [e'|]; [|done].
      destruct IH as (-> & Hs' & Hk'). auto.
    + by rewrite Hstep.
Qed.

Lemma applyGradients_view e grads :
  separated e → Forall (trainableName e) grads.*1 →
  match Aliasing.applyGradients e grads with
  | Some e' =>
      applyGradients (view e) grads = Some (view e') ∧ separated e' ∧
      (∀ n, trainableName e n → trainableName e' n)
  | None => applyGradients (view e) grads = None
  end.
Proof.
  intros Hs Hn. unfold Aliasing.applyGradients, applyGradients.
  pose proof (forIn_view e grads Hs Hn) as H.
  destruct (Aliasing.forIn e grads) as [e1|]; simpl.
  - destruct H as (-> & Hs1 & Hk1). simpl. done.
  - by rewrite H.
Qed.

Lemma applyAll_view e calls :
  separated e → Forall (λ grads, Forall (trainableName e) grads.*1) calls →
  match Aliasing.applyAll e calls with
  | Some e' =>
      applyAll (view e) calls = Some (view e') ∧ separated e' ∧
      (∀ n, trainableName e n → trainableName e' n)
  | None => applyAll (view e) calls = None
  end.
Proof.
  revert e. induction calls as [|grads calls IH]; intros e Hs Hn; simpl.
  - done.
  - apply Forall_cons in Hn as [Hn Hrest].
    pose proof (applyGradients_view e grads Hs Hn) as Hstep.
    destruct (Aliasing.applyGradients e grads) as [e1|]; simpl.
    + destruct Hstep as (-> & Hs1 & Hk1). simpl.
      assert (Hrest1 : Forall (λ grads, Forall (trainableName e1) grads.*1) calls).
      { eapply Forall_impl; [exact Hrest|]. intros l Hl.
        eapply Forall_impl; [exact Hl|]. intros x. apply Hk1. }
      specialize (IH e1 Hs1 Hrest1).
      destruct (Aliasing.applyAll e1 calls) as [e'|]; [|done].
      destruct IH as (-> & Hs' & Hk'). auto.
    + by rewrite Hstep.
Qed.

(** ** What an iteration registers and keeps *)

Lemma materialize_inv en m name value m1 en1 :
  Aliasing.materialize en m name value = Some (m1, en1) →
  (∃ moment, m !! name = Some moment ∧ m1 = m ∧ en1 = en) ∨
  (∃ v, m !! name = None ∧ value = Some v ∧
     Aliasing.registeredVariables en !! pretty (Aliasing.nextVarId en) = None ∧
     m1 = <[name := pretty (Aliasing.nextVarId en)]> m ∧
     en1 = Aliasing.mkEngine
             (<[pretty (Aliasing.nextVarId en) :=
                  Aliasing.mkVariable false (zerosLike (Aliasing.tensor v))]>
                (Aliasing.registeredVariables en))
             (S (Aliasing.nextVarId en))).
Proof.
  unfold Aliasing.materialize, Aliasing.variable. intros H.
  destruct (m !! name) as [moment|] eqn:E.
  - injection H as <- <-. left. by exists moment.
  - destruct value as [v|]; simpl in H; [|done].
    destruct (Aliasing.registeredVariables en !! _) eqn:E2; simpl in H; [done|].
    injection H as <- <-. right. by exists v.
Qed.

Lemma variableKept_refl vars : variableKept vars vars.
Proof. intros n var Hn. exists var. by rewrite sameShape_refl. Qed.

Lemma variableKept_trans vars1 vars2 vars3 :
  variableKept vars1 vars2 → variableKept vars2 vars3 → variableKept vars1 vars3.
Proof.
  intros H12 H23 n var Hn.
  destruct (H12 n var Hn) as (var2 & H2 & T2 & S2).
  destruct (H23 n var2 H2) as (var3 & H3 & T3 & S3).
  exists var3. split; [done|]. split; [congruence|]. by eapply sameShape_trans.
Qed.

Lemma assign_inv vars name t vars' :
  Aliasing.assign vars name t = Some vars' →
  ∃ var, vars !! name = Some var ∧ sameShape (Aliasing.tensor var) t = true ∧
         vars' = <[name := Aliasing.mkVariable (Aliasing.trainable var) t]> vars.
Proof.
  unfold Aliasing.assign. intros H.
  destruct (vars !! name) as [var|]; simpl in H; [|done].
  destruct (sameShape (Aliasing.tensor var) t) eqn:E; [|done].
  injection H as <-. by exists var.
Qed.

Lemma assign_kept vars name t vars' :
  Aliasing.assign vars name t = Some vars' →
  variableKept vars vars' ∧ dom vars' = dom vars.
Proof.
  intros (var & Hv & Hs & ->)%assign_inv. split.
  - intros n old Hn. destruct (decide (n = name)) as [->|Hne].
    + rewrite lookup_insert_eq. eexists. split; [done|]. simpl.
      assert (old = var) as -> by congruence. split; [done|]. by apply sameShape_sym.
    + rewrite lookup_insert_ne by done. exists old. by rewrite sameShape_refl.
  - rewrite dom_insert_L. apply elem_of_dom_2 in Hv.
    apply subseteq_union_1_L. by apply singleton_subseteq_l.
Qed.

Lemma tidyBody_kept o vars firstMoment secondMoment g name vars' :
  Aliasing.tidyBody o vars firstMoment secondMoment g name = Some vars' →
  variableKept vars vars' ∧ dom vars' = dom vars ∧ is_Some (vars !! name).
Proof.
  unfold Aliasing.tidyBody. intros H.
  destruct (vars !! firstMoment) as [fm|]; simpl in H; [|done].
  destruct (vars !! secondMoment) as [sm|]; simpl in H; [|done].
  destruct (add (smul (Aliasing.beta1 o) _) _) as [nf|]; simpl in H; [|done].
  destruct (add (smul (Aliasing.beta2 o) _) _) as [ns|]; simpl in H; [|done].
  destruct (Aliasing.assign vars firstMoment nf) as [vars1|] eqn:A1; simpl in H; [|done].
  destruct (Aliasing.assign vars1 secondMoment ns) as [vars2|] eqn:A2; simpl in H; [|done].
  destruct (div _ _) as [q|]; simpl in H; [|done].
  destruct (vars2 !! name) as [v|] eqn:Hv; simpl in H; [|done].
  destruct (add (smul (Aliasing.c o) q) _) as [nv|]; simpl in H; [|done].
  apply assign_kept in A1 as [K1 D1], A2 as [K2 D2], H as [K3 D3].
  split; [exact (variableKept_trans _ _ _ K1 (variableKept_trans _ _ _ K2 K3))|].
  split; [by rewrite D3, D2, D1|].
  apply elem_of_dom. rewrite <- D1, <- D2. by apply elem_of_dom.
Qed.

Lemma elem_of_generatedNames name next next' :
  name ∈ generatedNames next next' ↔ ∃ k, name = pretty k ∧ (next ≤ k < next')%nat.
Proof.
  unfold generatedNames. rewrite elem_of_list_to_set, list_elem_of_fmap.
  split; intros (k & -> & Hk); exists k; (split; [done|]);
    apply elem_of_seq in Hk || apply elem_of_seq; lia.
Qed.

Lemma generatedNames_empty next : generatedNames next next = ∅.
Proof. unfold generatedNames. by rewrite Nat.sub_diag. Qed.

Lemma generatedNames_app next mid next' :
  (next ≤ mid)%nat → (mid ≤ next')%nat →
  generatedNames next next' = generatedNames next mid ∪ generatedNames mid next'.
Proof.
  intros H1 H2. apply set_eq. intros n.
  rewrite elem_of_union, !elem_of_generatedNames. split.
  - intros (k & -> & Hk). destruct (decide (k < mid)%nat).
    + left. exists k. split; [done|lia].
    + right. exists k. split; [done|lia].
  - intros [(k & -> & Hk)|(k & -> & Hk)]; exists k; (split; [done|lia]).
Qed.

Lemma generatedNames_one next : generatedNames next (S next) = {[pretty next]}.
Proof.
  unfold generatedNames. replace (S next - next)%nat with 1%nat by lia. simpl.
  by rewrite union_empty_r_L.
Qed.

Lemma registers_refl en : registers en en.
Proof.
  split; [done|]. split; [by rewrite generatedNames_empty, union_empty_r_L|].
  split; [apply variableKept_refl|]. intros k Hk. lia.
Qed.

Lemma registers_trans en1 en2 en3 :
  registers en1 en2 → registers en2 en3 → registers en1 en3.
Proof.
  intros (L1 & D1 & K1 & G1) (L2 & D2 & K2 & G2).
  split; [lia|]. split; [|split].
  - rewrite D2, D1, (generatedNames_app _ _ _ L1 L2). by rewrite (assoc_L (∪)).
  - by eapply variableKept_trans.
  - intros k Hk. destruct (decide (k < Aliasing.nextVarId en2)%nat) as [Hlt|Hge].
    + destruct (G1 k) as (Hn & var & Hv & Ht); [lia|]. split; [done|].
      destruct (K2 _ _ Hv) as (var' & Hv' & Ht' & _). exists var'. split; [done|congruence].
    + destruct (G2 k) as (Hn & var & Hv & Ht); [lia|]. split; [|by exists var].
      apply not_elem_of_dom. apply not_elem_of_dom in Hn. rewrite D1 in Hn.
      intros Hin. apply Hn. apply elem_of_union. by left.
Qed.

Lemma registers_materialize en m name value m1 en1 :
  Aliasing.materialize en m name value = Some (m1, en1) →
  registers en en1 ∧ (Aliasing.nextVarId en1 ≤ S (Aliasing.nextVarId en))%nat ∧
  momentsKept [name] m m1 ∧
  (is_Some (m !! name) ∨ is_Some value) ∧
  (Aliasing.nextVarId en1 + size m = Aliasing.nextVarId en + size m1)%nat.
Proof.
  intros [(moment & Hm & -> & ->)|(v & Hm & -> & Hfree & -> & ->)]%materialize_inv.
  - split; [apply registers_refl|]. split; [lia|].
    split; [|split; [by left; eexists|done]].
    split; [|done]. simpl. rewrite union_empty_r_L. apply elem_of_dom_2 in Hm.
    symmetry. apply subseteq_union_1_L. by apply singleton_subseteq_l.
  - split; [|split; [simpl; lia|split; [|split; [by right; eexists|]]]];
      [| |simpl; rewrite map_size_insert_None by done; lia].
    + split; [simpl; lia|]. simpl. split; [|split].
      * by rewrite dom_insert_L, generatedNames_one, (comm_L (∪)).
      * intros n var Hn. exists var. rewrite sameShape_refl.
        rewrite lookup_insert_ne; [done|]. intros <-. congruence.
      * intros k Hk. assert (k = Aliasing.nextVarId en) as -> by lia.
        split; [done|]. rewrite lookup_insert_eq. by eexists.
    + split.
      * simpl. by rewrite dom_insert_L, union_empty_r_L.
      * intros n moment Hn. rewrite lookup_insert_ne; [done|]. intros <-. congruence.
Qed.

Lemma momentsKept_cons name names m m1 m2 :
  momentsKept [name] m m1 → momentsKept names m1 m2 → momentsKept (name :: names) m m2.
Proof.
  intros [D1 K1] [D2 K2]. split; [|by auto].
  rewrite D2, D1. simpl. rewrite union_empty_r_L.
  apply set_eq. intros x. rewrite !elem_of_union. tauto.
Qed.

Lemma momentsKept_nil m : momentsKept [] m m.
Proof. split; [|done]. simpl. by rewrite union_empty_l_L. Qed.

Lemma momentsKept_other names m m' other :
  momentsKept names m m' → other ∉ names → m' !! other = m !! other.
Proof.
  intros [D K] Hni. destruct (m !! other) as [moment|] eqn:E; [by apply K|].
  apply not_elem_of_dom. rewrite D. apply not_elem_of_dom in E.
  rewrite elem_of_union, elem_of_list_to_set. tauto.
Qed.

(** What one iteration does to the engine and to the optimizer. *)
Lemma updateVariable_registers e name g e' :
  Aliasing.updateVariable e name g = Some e' →
  registers (Aliasing.engine e) (Aliasing.engine e') ∧
  (Aliasing.nextVarId (Aliasing.engine e') ≤ Aliasing.nextVarId (Aliasing.engine e) + 2)%nat ∧
  momentsKept [name] (Aliasing.accumulatedFirstMoment (Aliasing.optimizer e))
    (Aliasing.accumulatedFirstMoment (Aliasing.optimizer e')) ∧
  momentsKept [name] (Aliasing.accumulatedSecondMoment (Aliasing.optimizer e))
    (Aliasing.accumulatedSecondMoment (Aliasing.optimizer e')) ∧
  is_Some (Aliasing.registeredVariables (Aliasing.engine e) !! name) ∧
  scalarsOf (Aliasing.optimizer e') = scalarsOf (Aliasing.optimizer e) ∧
  (Aliasing.nextVarId (Aliasing.engine e') +
     size (Aliasing.accumulatedFirstMoment (Aliasing.optimizer e)) +
     size (Aliasing.accumulatedSecondMoment (Aliasing.optimizer e)) =
   Aliasing.nextVarId (Aliasing.engine e) +
     size (Aliasing.accumulatedFirstMoment (Aliasing.optimizer e')) +
     size (Aliasing.accumulatedSecondMoment (Aliasing.optimizer e')))%nat.
Proof.
  unfold Aliasing.updateVariable. intros H.
  destruct (Aliasing.materialize (Aliasing.engine e) _ _ _) as [[m1 en1]|] eqn:E1;
    simpl in H; [|done].
  destruct (Aliasing.materialize en1 _ _ _) as [[m2 en2]|] eqn:E2; simpl in H; [|done].
  destruct (m1 !! name) as [hf|]; simpl in H; [|done].
  destruct (m2 !! name) as [hs|]; simpl in H; [|done].
  destruct (Aliasing.tidyBody _ _ _ _ _ _) as [vars'|] eqn:Et; simpl in H; [|done].
  injection H as <-. simpl.
  destruct (tidyBody_kept _ _ _ _ _ _ _ Et) as (Kt & Dt & Hname).
  destruct (registers_materialize _ _ _ _ _ _ E1) as (G1 & L1 & K1 & _ & N1).
  destruct (registers_materialize _ _ _ _ _ _ E2) as (G2 & L2 & K2 & _ & N2).
  assert (G3 : registers en2 (Aliasing.mkEngine vars' (Aliasing.nextVarId en2))).
  { split; [done|]. simpl. split; [by rewrite generatedNames_empty, union_empty_r_L|].
    split; [done|]. intros k Hk. lia. }
  split; [exact (registers_trans _ _ _ G1 (registers_trans _ _ _ G2 G3))|].
  split; [lia|]. do 2 (split; [done|]). split; [|split; [done|lia]].
  destruct (Aliasing.registeredVariables (Aliasing.engine e) !! name) as [v|] eqn:Hv;
    [by eexists|].
  apply materialize_inv in E1 as [(? & _ & _ & ->)|(? & _ & ? & _)]; [|done].
  apply materialize_inv in E2 as [(? & _ & _ & ->)|(? & _ & ? & _)]; [|done].
  by rewrite Hv in Hname.
Qed.

Lemma forIn_registers e grads e' :
  Aliasing.forIn e grads = Some e' →
  registers (Aliasing.engine e) (Aliasing.engine e') ∧
  (Aliasing.nextVarId (Aliasing.engine e') ≤
     Aliasing.nextVarId (Aliasing.engine e) + 2 * length grads)%nat ∧
  momentsKept grads.*1 (Aliasing.accumulatedFirstMoment (Aliasing.optimizer e))
    (Aliasing.accumulatedFirstMoment (Aliasing.optimizer e')) ∧
  momentsKept grads.*1 (Aliasing.accumulatedSecondMoment (Aliasing.optimizer e))
    (Aliasing.accumulatedSecondMoment (Aliasing.optimizer e')) ∧
  scalarsOf (Aliasing.optimizer e') = scalarsOf (Aliasing.optimizer e) ∧
  (Aliasing.nextVarId (Aliasing.engine e') +
     size (Aliasing.accumulatedFirstMoment (Aliasing.optimizer e)) +
     size (Aliasing.accumulatedSecondMoment (Aliasing.optimizer e)) =
   Aliasing.nextVarId (Aliasing.engine e) +
     size (Aliasing.accumulatedFirstMoment (Aliasing.optimizer e')) +
     size (Aliasing.accumulatedSecondMoment (Aliasing.optimizer e')))%nat.
Proof.
  revert e. induction grads as [|[n g] grads IH]; intros e; simpl.
  - intros [= <-]. split; [apply registers_refl|]. split; [lia|].
    do 2 (split; [apply momentsKept_nil|]). done.
  - intros H. destruct (Aliasing.updateVariable e n g) as [e1|] eqn:E1; simpl in H; [|done].
    apply updateVariable_registers in E1 as (G1 & L1 & F1 & S1 & _ & C1 & N1).
    apply IH in H as (G2 & L2 & F2 & S2 & C2 & N2).
    split; [by eapply registers_trans|]. split; [lia|].
    split; [by eapply momentsKept_cons|]. split; [by eapply momentsKept_cons|].
    split; [by rewrite C2|lia].
Qed.

Lemma applyGradients_registers e grads e' :
  Aliasing.applyGradients e grads = Some e' →
  registers (Aliasing.engine e) (Aliasing.engine e') ∧
  (Aliasing.nextVarId (Aliasing.engine e') ≤
     Aliasing.nextVarId (Aliasing.engine e) + 2 * length grads)%nat ∧
  momentsKept grads.*1 (Aliasing.accumulatedFirstMoment (Aliasing.optimizer e))
    (Aliasing.accumulatedFirstMoment (Aliasing.optimizer e')) ∧
  momentsKept grads.*1 (Aliasing.accumulatedSecondMoment (Aliasing.optimizer e))
    (Aliasing.accumulatedSecondMoment (Aliasing.optimizer e')) ∧
  (Aliasing.nextVarId (Aliasing.engine e') +
     size (Aliasing.accumulatedFirstMoment (Aliasing.optimizer e)) +
     size (Aliasing.accumulatedSecondMoment (Aliasing.optimizer e)) =
   Aliasing.nextVarId (Aliasing.engine e) +
     size (Aliasing.accumulatedFirstMoment (Aliasing.optimizer e')) +
     size (Aliasing.accumulatedSecondMoment (Aliasing.optimizer e')))%nat.
Proof.
  unfold Aliasing.applyGradients. intros H.
  destruct (Aliasing.forIn e grads) as [e1|] eqn:E1; simpl in H; [|done].
  injection H as <-. simpl.
  by apply forIn_registers in E1 as (G & L & F & S_ & _ & N).
Qed.

(** ** Generated names *)

Lemma pretty_N_go_head x s :
  (0 < x)%N → ∃ d rest, pretty_N_go x s = String (pretty_N_char d) rest.
Proof.
  revert s. induction (N.lt_wf_0 x) as [x _ IH]. intros s Hx.
  rewrite pretty_N_go_step by done.
  destruct (decide (x `div` 10 = 0)%N) as [->|Hne].
  - rewrite pretty_N_go_0. by eexists _, _.
  - apply IH; [apply N.div_lt; lia|by apply N.neq_0_lt_0].
Qed.

(** A generated name starts with a decimal digit. *)
Lemma pretty_head (k : nat) : ∃ d rest, pretty k = String (pretty_N_char d) rest.
Proof.
  unfold pretty, pretty_nat, pretty, pretty_N.
  destruct (decide (N.of_nat k = 0)%N) as [_|Hne].
  - by exists 0%N, "".
  - apply pretty_N_go_head. lia.
Qed.

Lemma pretty_not_w (k : nat) : pretty k ≠ "w".
Proof.
  destruct (pretty_head k) as (d & rest & ->). intros [= H _].
  unfold pretty_N_char in H. by repeat case_match.
Qed.

Lemma pretty_not_u (k : nat) : pretty k ≠ "u".
Proof.
  destruct (pretty_head k) as (d & rest & ->). intros [= H _].
  unfold pretty_N_char in H. by repeat case_match.
Qed.

Lemma pretty_not_b (k : nat) : pretty k ≠ "b".
Proof.
  destruct (pretty_head k) as (d & rest & ->). intros [= H _].
  unfold pretty_N_char in H. by repeat case_match.
Qed.

(** ** The example with its engine *)

Lemma exampleObjects_separated : separated exampleObjects.
Proof.
  split; [done|]. split; [done|]. split; [done|].
  intros k _. simpl.
  rewrite lookup_insert_ne by (intros H; by apply (pretty_not_u k)).
  apply lookup_singleton_ne. intros H. by apply (pretty_not_w k).
Qed.

Lemma exampleObjects_view : view exampleObjects = exampleEnv.
Proof. reflexivity. Qed.

Lemma exampleObjects_w : trainableName exampleObjects "w".
Proof. by eexists. Qed.

Lemma exampleObjects_u : trainableName exampleObjects "u".
Proof. by eexists. Qed.


Lemma separated_view_names e1 e2 names :
  view e1 = view e2 → Forall (trainableName e1) names → Forall (trainableName e2) names.
Proof.
  intros Hv Hn. eapply Forall_impl; [exact Hn|].
  intros n. rewrite !trainableName_view. by rewrite Hv.
Qed.

Lemma trainableName_Permutation e (grads grads' : list (string * Tensor)) :
  grads ≡ₚ grads' → Forall (trainableName e) grads.*1 → Forall (trainableName e) grads'.*1.
Proof.
  intros Hp. assert (Hq : grads.*1 ≡ₚ grads'.*1) by (by apply fmap_Permutation).
  by rewrite Hq.
Qed.

(** C7. On the states the optimizer reaches, for parameter names, that is
    the names of trainable variables: an iteration for one name leaves the
    tensors of the moments and the value of every other name as they were,
    and the moment variables of the other name are the same objects; what
    it computes depends on nothing but the slot of its own name and the
    optimizer's scalars; a call leaves the names outside its gradient map
    as they were; and for a gradient map with distinct names the moments
    and the values after a completed call are the same for every iteration
    order, which also completes. *)
Theorem isolation_and_order_independence :
  (∀ e name g e' other,
     separated e → trainableName e name → trainableName e other →
     Aliasing.updateVariable e name g = Some e' → other ≠ name →
     slot (view e') other = slot (view e) other ∧
     Aliasing.accumulatedFirstMoment (Aliasing.optimizer e') !! other =
       Aliasing.accumulatedFirstMoment (Aliasing.optimizer e) !! other ∧
     Aliasing.accumulatedSecondMoment (Aliasing.optimizer e') !! other =
       Aliasing.accumulatedSecondMoment (Aliasing.optimizer e) !! other) ∧
  (∀ e1 e2 name g e1',
     separated e1 → separated e2 → trainableName e1 name → trainableName e2 name →
     slot (view e1) name = slot (view e2) name →
     scalarsOf (Aliasing.optimizer e1) = scalarsOf (Aliasing.optimizer e2) →
     Aliasing.updateVariable e1 name g = Some e1' →
     ∃ e2', Aliasing.updateVariable e2 name g = Some e2' ∧
            slot (view e2') name = slot (view e1') name) ∧
  (∀ e grads e' other,
     separated e → Forall (trainableName e) grads.*1 → trainableName e other →
     Aliasing.applyGradients e grads = Some e' → other ∉ grads.*1 →
     slot (view e') other = slot (view e) other) ∧
  (∀ e grads grads' e1,
     separated e → Forall (trainableName e) grads.*1 →
     NoDup grads.*1 → grads ≡ₚ grads' →
     Aliasing.applyGradients e grads = Some e1 →
     ∃ e2, Aliasing.applyGradients e grads' = Some e2 ∧ view e2 = view e1).
Proof.
  split; [|split; [|split]].
  - intros e name g e' other Hs Hn _ H Hne.
    pose proof (updateVariable_view e name g Hs Hn) as Hsim. rewrite H in Hsim.
    destruct Hsim as (Hc & _ & _).
    apply updateVariable_registers in H as (_ & _ & F & S_ & _).
    split; [by eapply updateVariable_frame|].
    split; eapply momentsKept_other; try done; by intros ->%list_elem_of_singleton.
  - intros e1 e2 name g e1' Hs1 Hs2 Hn1 Hn2 Hslot Hsc H.
    pose proof (updateVariable_view e1 name g Hs1 Hn1) as Hsim1. rewrite H in Hsim1.
    destruct Hsim1 as (Hc1 & _ & _).
    pose proof (updateVariable_local (view e1) (view e2) name g Hslot) as Hloc.
    rewrite !view_scalars, Hc1 in Hloc. specialize (Hloc Hsc). simpl in Hloc.
    pose proof (updateVariable_view e2 name g Hs2 Hn2) as Hsim2.
    destruct (Aliasing.updateVariable e2 name g) as [e2'|].
    + destruct Hsim2 as (Hc2 & _ & _). rewrite Hc2 in Hloc. simpl in Hloc.
      exists e2'. split; [done|]. congruence.
    + by rewrite Hsim2 in Hloc.
  - intros e grads e' other Hs Hn _ H Hni.
    pose proof (applyGradients_view e grads Hs Hn) as Hsim. rewrite H in Hsim.
    destruct Hsim as (Hc & _ & _).
    apply slot_applyGradients in Hc as (e1 & E1 & -> & _). by eapply forIn_frame.
  - intros e grads grads' e1 Hs Hn Hnd Hp H.
    pose proof (applyGradients_view e grads Hs Hn) as Hsim. rewrite H in Hsim.
    destruct Hsim as (Hc & _ & _).
    rewrite (applyGradients_Permutation _ _ _ Hp Hnd) in Hc.
    pose proof (applyGradients_view e grads' Hs (trainableName_Permutation _ _ _ Hp Hn))
      as Hsim'.
    destruct (Aliasing.applyGradients e grads') as [e2|].
    + destruct Hsim' as (Hc' & _ & _). exists e2. split; [done|]. congruence.
    + congruence.
Qed.

(** C9. What [applyGradients] leaves - the optimizer's scalars and
    accumulators, the tensors of its moments and the values of the trainable
    variables - is a function of these and of the gradient map: of two runs
    from states that agree on them, with gradient maps that are equal as
    finite maps, one completes exactly when the other does, and they agree
    on them afterwards, whatever the names of the moment variables, the
    value of the name counter, the other registered variables and the order
    of the keys are. *)
Theorem applyGradients_deterministic e1 e2 (grads1 grads2 : list (string * Tensor)) :
  separated e1 → separated e2 → view e1 = view e2 →
  Forall (trainableName e1) grads1.*1 →
  NoDup grads1.*1 → NoDup grads2.*1 →
  (list_to_map grads1 : NamedVariableMap) = list_to_map grads2 →
  view <$> Aliasing.applyGradients e1 grads1 = view <$> Aliasing.applyGradients e2 grads2.
Proof.
  intros Hs1 Hs2 Hv Hn1 Hnd1 Hnd2 Heq.
  assert (Hp : grads1 ≡ₚ grads2) by (by apply (list_to_map_inj (M := gmap string))).
  assert (Hn2 : Forall (trainableName e2) grads2.*1).
  { eapply separated_view_names; [exact Hv|]. by eapply trainableName_Permutation. }
  pose proof (applyGradients_view e1 grads1 Hs1 Hn1) as H1.
  pose proof (applyGradients_view e2 grads2 Hs2 Hn2) as H2.
  rewrite Hv, (applyGradients_Permutation _ _ _ Hp Hnd1) in H1.
  destruct (Aliasing.applyGradients e1 grads1) as [e1'|],
           (Aliasing.applyGradients e2 grads2) as [e2'|]; simpl.
  - destruct H1 as (H1 & _), H2 as (H2 & _). congruence.
  - destruct H1 as (H1 & _). congruence.
  - destruct H2 as (H2 & _). congruence.
  - done.
Qed.

Lemma registers_is_Some en en' name :
  registers en en' →
  is_Some (Aliasing.registeredVariables en !! name) →
  is_Some (Aliasing.registeredVariables en' !! name).
Proof.
  intros (_ & _ & K & _) [var Hv]. destruct (K _ _ Hv) as (var' & Hv' & _). by eexists.
Qed.

Lemma registers_never en en' name :
  registers en en' →
  Aliasing.registeredVariables en !! name = None →
  (∀ k, (Aliasing.nextVarId en ≤ k)%nat → name ≠ pretty k) →
  Aliasing.registeredVariables en' !! name = None ∧
  (∀ k, (Aliasing.nextVarId en' ≤ k)%nat → name ≠ pretty k).
Proof.
  intros (L & D & _ & _) Hn Hg. split.
  - apply not_elem_of_dom. rewrite D, elem_of_union, elem_of_generatedNames.
    apply not_elem_of_dom in Hn. intros [?|(k & -> & Hk)]; [done|].
    apply (Hg k); [lia|done].
  - intros k Hk. apply Hg. lia.
Qed.

Lemma forIn_never_registered e grads name g :
  (name, g) ∈ grads →
  Aliasing.registeredVariables (Aliasing.engine e) !! name = None →
  (∀ k, (Aliasing.nextVarId (Aliasing.engine e) ≤ k)%nat → name ≠ pretty k) →
  Aliasing.forIn e grads = None.
Proof.
  revert e. induction grads as [|[n0 g0] grads IH]; intros e Hin Hn Hg.
  - by apply elem_of_nil in Hin.
  - simpl. destruct (Aliasing.updateVariable e n0 g0) as [e1|] eqn:E1; simpl; [|done].
    apply updateVariable_registers in E1 as (G & _ & _ & _ & [var Hv] & _).
    apply elem_of_cons in Hin as [[= <- <-]|Hin]; [congruence|].
    destruct (registers_never _ _ _ G Hn Hg) as [Hn1 Hg1]. by apply IH.
Qed.

Lemma forIn_names_registered e grads e' :
  Aliasing.forIn e grads = Some e' →
  Forall (λ n, is_Some (Aliasing.registeredVariables (Aliasing.engine e') !! n)) grads.*1.
Proof.
  revert e. induction grads as [|[n g] grads IH]; intros e H; simpl in *.
  - constructor.
  - destruct (Aliasing.updateVariable e n g) as [e1|] eqn:E1; simpl in H; [|done].
    apply updateVariable_registers in E1 as (G1 & _ & _ & _ & Hn & _).
    constructor; [|by eapply IH].
    apply forIn_registers in H as (G2 & _).
    eapply registers_is_Some; [exact G2|]. by eapply registers_is_Some.
Qed.

(** X1. [applyGradients] throws when the gradient map has an entry for a
    name that is not a registered variable and is not a name the counter
    can still generate, wherever the entry stands in the map and whatever
    the other entries are. *)
Theorem applyGradients_unregistered e grads name g :
  (name, g) ∈ grads →
  Aliasing.registeredVariables (Aliasing.engine e) !! name = None →
  (∀ k, (Aliasing.nextVarId (Aliasing.engine e) ≤ k)%nat → name ≠ pretty k) →
  Aliasing.applyGradients e grads = None.
Proof.
  intros Hin Hn Hg. unfold Aliasing.applyGradients.
  by rewrite (forIn_never_registered e grads name g Hin Hn Hg).
Qed.

(** X3. On an engine whose counter generates free names, a completed call
    registers the variables of the moments it creates, under the names the
    counter generates, one per moment created (at most two per entry of the
    gradient map), none of them trainable; it removes no variable and keeps
    every variable's flag and shape; afterwards the names with a first
    (second) moment are those that had one plus the names of the gradient
    map, no name has changed its moment variable, and every name of the
    gradient map is a registered variable. *)
Theorem applyGradients_domains e grads e' :
  counterFresh (Aliasing.engine e) →
  Aliasing.applyGradients e grads = Some e' →
  registers (Aliasing.engine e) (Aliasing.engine e') ∧
  (Aliasing.nextVarId (Aliasing.engine e') ≤
     Aliasing.nextVarId (Aliasing.engine e) + 2 * length grads)%nat ∧
  (Aliasing.nextVarId (Aliasing.engine e') +
     size (Aliasing.accumulatedFirstMoment (Aliasing.optimizer e)) +
     size (Aliasing.accumulatedSecondMoment (Aliasing.optimizer e)) =
   Aliasing.nextVarId (Aliasing.engine e) +
     size (Aliasing.accumulatedFirstMoment (Aliasing.optimizer e')) +
     size (Aliasing.accumulatedSecondMoment (Aliasing.optimizer e')))%nat ∧
  momentsKept grads.*1 (Aliasing.accumulatedFirstMoment (Aliasing.optimizer e))
    (Aliasing.accumulatedFirstMoment (Aliasing.optimizer e')) ∧
  momentsKept grads.*1 (Aliasing.accumulatedSecondMoment (Aliasing.optimizer e))
    (Aliasing.accumulatedSecondMoment (Aliasing.optimizer e')) ∧
  Forall (λ n, is_Some (Aliasing.registeredVariables (Aliasing.engine e') !! n)) grads.*1.
Proof.
  intros _ H. destruct (applyGradients_registers e grads e' H) as (G & L & F & S_ & N).
  do 5 (split; [done|]).
  unfold Aliasing.applyGradients in H.
  destruct (Aliasing.forIn e grads) as [e1|] eqn:E1; simpl in H; [|done].
  injection H as <-. simpl. by eapply forIn_names_registered.
Qed.

(** X17. For gradient maps that name trainable variables, on the states
    the optimizer reaches, a sequence of calls leaves the moments' tensors,
    the accumulators and the values of the trainable variables that the
    same calls leave when the moment maps hold tensors by name, and
    completes exactly when they do; it keeps the state separated and the
    trainable variables trainable: the registration of the moment variables
    under generated names does not show. *)
Theorem registration_invisible e calls :
  separated e → Forall (λ grads, Forall (trainableName e) grads.*1) calls →
  view <$> Aliasing.applyAll e calls = applyAll (view e) calls ∧
  ∀ e', Aliasing.applyAll e calls = Some e' →
    separated e' ∧ ∀ n, trainableName e n → trainableName e' n.
Proof.
  intros Hs Hn. pose proof (applyAll_view e calls Hs Hn) as H.
  destruct (Aliasing.applyAll e calls) as [e1|]; simpl.
  - destruct H as (-> & Hs1 & Hk1). split; [done|]. by intros e' [= <-].
  - split; [done|]. by intros e' [=].
Qed.

(** X18. The name of a moment variable is a key like any other: an
    iteration for the generated name of the first moment of [name]
    completes, when the gradient has the moment's shape and the moment
    variable has no moments of its own, and rewrites the first moment of
    [name] by the step of a parameter with zero moments. *)
Theorem gradient_for_moment_variable e name moment g F :
  separated e →
  Aliasing.accumulatedFirstMoment (Aliasing.optimizer e) !! name = Some moment →
  Aliasing.registeredVariables (Aliasing.engine e) !! moment = Some F →
  Aliasing.accumulatedFirstMoment (Aliasing.optimizer e) !! moment = None →
  Aliasing.accumulatedSecondMoment (Aliasing.optimizer e) !! moment = None →
  Aliasing.one (Aliasing.optimizer e) = 1 →
  sameShape g (Aliasing.tensor F) = true →
  ∃ e' nv,
    Aliasing.updateVariable e moment g = Some e' ∧
    accumulatedFirstMoment (optimizer (view e')) !! name = Some nv ∧
    sameShape nv (Aliasing.tensor F) = true ∧
    ∀ i x m, values g !! i = Some x → values (Aliasing.tensor F) !! i = Some m →
      values nv !! i =
        Some (newParameter (- Aliasing.c (Aliasing.optimizer e))
                (Aliasing.eps (Aliasing.optimizer e))
                (Aliasing.accBeta1 (Aliasing.optimizer e))
                (Aliasing.accBeta2 (Aliasing.optimizer e)) m
                (newFirst (Aliasing.beta1 (Aliasing.optimizer e)) 0 x)
                (newSecond (Aliasing.beta2 (Aliasing.optimizer e)) 0 x)).
Proof.
  destruct e as [o [vars next]]. simpl.
  intros (R1 & R2 & DD & Hf) Hname HF Hm1 Hm2 H1 Hg. simpl in *.
  set (Z := Aliasing.mkVariable false (zerosLike (Aliasing.tensor F))).
  set (en1 := Aliasing.mkEngine (<[pretty next := Z]> vars) (S next)).
  assert (Hf1 : counterFresh en1) by (by apply counterFresh_insert_next).
  pose proof (Hf next (le_n _)) as Hk0. pose proof (Hf1 (S next) (le_n _)) as Hk1.
  simpl in Hk0, Hk1.
  assert (N1 : pretty next ≠ pretty (S next)).
  { intros H. apply (inj pretty) in H. lia. }
  assert (N2 : pretty next ≠ moment) by (intros H; congruence).
  assert (N3 : pretty (S next) ≠ moment).
  { intros H. rewrite H, lookup_insert_ne in Hk1 by congruence. congruence. }
  assert (N4 : name ≠ moment) by (intros H; congruence).
  destruct (tidyUpdate_spec
              (optimizer (view (Aliasing.mkEnv o (Aliasing.mkEngine vars next))))
              (zerosLike (Aliasing.tensor F)) (zerosLike (Aliasing.tensor F)) g
              (Aliasing.tensor F) H1)
    as (nf & ns & nv & Ht & _ & _ & Snv & Hpt);
    [apply sameShape_zerosLike | apply sameShape_zerosLike | done |].
  unfold Aliasing.updateVariable, Aliasing.materialize, Aliasing.variable. simpl.
  subst en1. unfold Z in Hk1.
  rewrite HF, Hm1. simpl. rewrite Hk0. simpl. rewrite Hm2. simpl. rewrite Hk1. simpl.
  rewrite !lookup_insert_eq. simpl.
  rewrite (tidyBody_tidyUpdate o
             (optimizer (view (Aliasing.mkEnv o (Aliasing.mkEngine vars next))))
             _ (pretty next) (pretty (S next)) moment g Z Z F); try done.
  - change (Aliasing.tensor Z) with (zerosLike (Aliasing.tensor F)).
    rewrite Ht. simpl. eexists _, nv. split; [done|]. simpl.
    split; [|split; [done|]].
    + rewrite momentValues_lookup, lookup_insert_ne, Hname by done. simpl.
      by rewrite lookup_insert_eq.
    + intros i x m Hx Hm. destruct (Hpt i) as (_ & _ & ->). simpl.
      assert (Hz : replicate (length (values (Aliasing.tensor F))) 0 !! i = Some 0).
      { apply lookup_replicate_2. by eapply lookup_lt_Some. }
      by rewrite Hz, Hx, Hm.
  - rewrite lookup_insert_ne by done. by rewrite lookup_insert_eq.
  - by rewrite lookup_insert_eq.
  - by rewrite !lookup_insert_ne.
Qed.

(** ** The engine's variables on the example *)

Lemma exampleObjects_call grads :
  Forall (λ ng, (ng.1 = "w" ∨ ng.1 = "u") ∧ sameShape ng.2 exampleValue = true) grads →
  ∃ e', Aliasing.applyGradients exampleObjects grads = Some e'.
Proof.
  intros Hall.
  assert (Hn : Forall (trainableName exampleObjects) grads.*1).
  { apply Forall_fmap. eapply Forall_impl; [exact Hall|].
    intros [n g] [[Hn|Hn] _]; simpl in *; subst n;
      [exact exampleObjects_w | exact exampleObjects_u]. }
  pose proof (applyGradients_view exampleObjects grads exampleObjects_separated Hn) as H.
  destruct (Aliasing.applyGradients exampleObjects grads) as [e'|]; [by exists e'|].
  destruct (exampleEnv_call grads Hall) as [e' E].
  rewrite exampleObjects_view in H. congruence.
Qed.


Lemma otherObjects_separated : separated otherObjects.
Proof.
  split; [done|]. split; [done|]. split; [done|].
  intros k Hk. simpl in *.
  rewrite lookup_insert_ne
    by (intros H; change "0" with (pretty 0%nat) in H; apply (inj pretty) in H; lia).
  rewrite lookup_insert_ne by (intros H; by apply (pretty_not_u k)).
  apply lookup_singleton_ne. intros H. by apply (pretty_not_w k).
Qed.

Lemma otherObjects_view : view otherObjects = view exampleObjects.
Proof. reflexivity. Qed.

(** C7 on the example: an iteration for ["w"] leaves ["u"] as it was; and
    two names in both orders: the moment variables get different names, the
    moments and the values are the same. *)
Lemma isolation_and_order_independence_witness :
  (∃ ew, Aliasing.updateVariable exampleObjects "w" exampleGradient = Some ew ∧
         slot (view ew) "u" = (None, None, Some exampleValue)) ∧
  ∃ e1 e2,
    Aliasing.applyGradients exampleObjects
      [("w", exampleGradient); ("u", zeroGradient)] = Some e1 ∧
    Aliasing.applyGradients exampleObjects
      [("u", zeroGradient); ("w", exampleGradient)] = Some e2 ∧
    view e2 = view e1 ∧
    Aliasing.accumulatedFirstMoment (Aliasing.optimizer e1) !! "w" = Some "0" ∧
    Aliasing.accumulatedFirstMoment (Aliasing.optimizer e2) !! "w" = Some "2".
Proof.
  destruct isolation_and_order_independence as (Hframe & _ & _ & Hord). split.
  - destruct (Aliasing.updateVariable exampleObjects "w" exampleGradient) as [ew|] eqn:E;
      [|vm_compute in E; discriminate E].
    exists ew. split; [done|].
    by destruct (Hframe exampleObjects "w" exampleGradient ew "u"
                   exampleObjects_separated exampleObjects_w exampleObjects_u E)
      as (-> & _).
  - eexists _, _. split; [vm_compute; reflexivity|].
    split; [vm_compute; reflexivity|]. split; [|split; reflexivity].
    edestruct (Hord exampleObjects [("w", exampleGradient); ("u", zeroGradient)]
                 [("u", zeroGradient); ("w", exampleGradient)])
      as (e2 & E2 & Hv).
    + exact exampleObjects_separated.
    + repeat constructor; [exact exampleObjects_w | exact exampleObjects_u].
    + by apply example_NoDup2.
    + apply Permutation_swap.
    + vm_compute. reflexivity.
    + vm_compute in E2. injection E2 as <-. exact Hv.
Defined.

(** C9 on the example: two engines that differ in a variable that is not
    trainable and in the counter, and the keys in two orders; the moment
    variables get different names. *)
Lemma applyGradients_deterministic_witness :
  (∃ e1', Aliasing.applyGradients exampleObjects
            [("w", exampleGradient); ("u", zeroGradient)] = Some e1' ∧
          Aliasing.accumulatedFirstMoment (Aliasing.optimizer e1') !! "w" = Some "0") ∧
  (∃ e2', Aliasing.applyGradients otherObjects
            [("u", zeroGradient); ("w", exampleGradient)] = Some e2' ∧
          Aliasing.accumulatedFirstMoment (Aliasing.optimizer e2') !! "w" = Some "3") ∧
  view <$> Aliasing.applyGradients exampleObjects
             [("w", exampleGradient); ("u", zeroGradient)] =
  view <$> Aliasing.applyGradients otherObjects
             [("u", zeroGradient); ("w", exampleGradient)].
Proof.
  split; [eexists; split; [vm_compute; reflexivity|reflexivity]|].
  split; [eexists; split; [vm_compute; reflexivity|reflexivity]|].
  apply (applyGradients_deterministic exampleObjects otherObjects).
  - exact exampleObjects_separated.
  - exact otherObjects_separated.
  - exact (eq_sym otherObjects_view).
  - repeat constructor; [exact exampleObjects_w | exact exampleObjects_u].
  - by apply example_NoDup2.
  - by apply example_NoDup2.
  - reflexivity.
Defined.

(** X1 on the example: a map with a name that is not registered. *)
Lemma applyGradients_unregistered_witness :
  Aliasing.applyGradients exampleObjects
    [("w", exampleGradient); ("b", exampleGradient)] = None.
Proof.
  apply (applyGradients_unregistered exampleObjects _ "b" exampleGradient).
  - apply list_elem_of_further, list_elem_of_here.
  - reflexivity.
  - intros k _ H. by apply (pretty_not_b k).
Defined.

(** The second hypothesis of X1 is needed: when the call starts, ["1"] is
    not registered; the iteration for ["0"] registers its first moment
    under that name, and the iteration for ["1"] finds a variable. *)
Lemma generated_name_completes :
  Aliasing.registeredVariables (Aliasing.engine autoObjects) !! "1" = None ∧
  ∃ e', Aliasing.applyGradients autoObjects
          [("0", exampleGradient); ("1", exampleGradient)] = Some e' ∧
        Aliasing.accumulatedFirstMoment (Aliasing.optimizer e') !! "0" = Some "1" ∧
        Aliasing.accumulatedFirstMoment (Aliasing.optimizer e') !! "1" = Some "3".
Proof.
  split; [reflexivity|]. eexists. split; [vm_compute; reflexivity|].
  split; reflexivity.
Qed.

(** X3 on the example: one call for ["w"] registers the two moments of
    ["w"] as ["0"] and ["1"]. *)
Lemma applyGradients_domains_witness :
  ∃ e', Aliasing.applyGradients exampleObjects [("w", exampleGradient)] = Some e' ∧
        Aliasing.nextVarId (Aliasing.engine e') = 2%nat ∧
        dom (Aliasing.registeredVariables (Aliasing.engine e')) =
          dom (Aliasing.registeredVariables exampleEngine) ∪ generatedNames 0 2 ∧
        dom (Aliasing.accumulatedFirstMoment (Aliasing.optimizer e')) = {["w"]}.
Proof.
  destruct (exampleObjects_call [("w", exampleGradient)]) as [e' E].
  { apply Forall_singleton. split; [by left|done]. }
  destruct exampleObjects_separated as (_ & _ & _ & Hfresh).
  destruct (applyGradients_domains exampleObjects [("w", exampleGradient)] e' Hfresh E)
    as ((_ & D & _) & L & N & (DF & _) & (DS & _) & _).
  simpl in DF, DS, N, D. rewrite dom_empty_L, !union_empty_r_L in DF, DS.
  assert (HF : size (Aliasing.accumulatedFirstMoment (Aliasing.optimizer e')) = 1%nat).
  { by rewrite <- size_dom, DF, size_singleton. }
  assert (HS : size (Aliasing.accumulatedSecondMoment (Aliasing.optimizer e')) = 1%nat).
  { by rewrite <- size_dom, DS, size_singleton. }
  rewrite HF, HS, !map_size_empty in N.
  assert (Hn : Aliasing.nextVarId (Aliasing.engine e') = 2%nat) by lia.
  exists e'. split; [exact E|]. split; [exact Hn|]. split; [by rewrite <- Hn|exact DF].
Defined.

(** X17 on the example: two calls. *)
Lemma registration_invisible_witness :
  ∃ e', Aliasing.applyAll exampleObjects
          [[("w", exampleGradient)]; [("u", exampleGradient); ("w", zeroGradient)]]
          = Some e' ∧
        applyAll exampleEnv
          [[("w", exampleGradient)]; [("u", exampleGradient); ("w", zeroGradient)]]
          = Some (view e') ∧
        separated e'.
Proof.
  destruct (registration_invisible exampleObjects
              [[("w", exampleGradient)]; [("u", exampleGradient); ("w", zeroGradient)]]
              exampleObjects_separated) as [Hv Hs].
  { repeat constructor; exact exampleObjects_w || exact exampleObjects_u. }
  destruct (Aliasing.applyAll exampleObjects _) as [e'|] eqn:E.
  - exists e'. split; [done|]. split; [by rewrite exampleObjects_view in Hv|].
    by apply Hs.
  - exfalso.
    destruct (applyAll_total exampleEnv
                [[("w", exampleGradient)]; [("u", exampleGradient); ("w", zeroGradient)]]
                eq_refl (momentsMatch_fresh _ _ _ _ _ _))
      as (e' & E' & _).
    { repeat apply Forall_cons_2; [| |apply Forall_nil_2];
        apply example_gradientsMatch; repeat apply Forall_cons_2;
        try apply Forall_nil_2;
        (split; [(by left) || (by right) | reflexivity]). }
    rewrite exampleObjects_view, E' in Hv. discriminate Hv.
Defined.

Lemma momentObjects_separated : separated momentObjects.
Proof.
  split; [|split; [|split; [split; [|split]|]]]; simpl.
  - intros n moment [_ <-]%lookup_singleton_Some. by eexists.
  - intros n moment [_ <-]%lookup_singleton_Some. by eexists.
  - intros n n' moment [<- _]%lookup_singleton_Some [<- _]%lookup_singleton_Some. done.
  - intros n n' moment [<- _]%lookup_singleton_Some [<- _]%lookup_singleton_Some. done.
  - intros n n' moment [_ <-]%lookup_singleton_Some [_ [=]]%lookup_singleton_Some.
  - intros k Hk. simpl in *.
    rewrite lookup_insert_ne
      by (intros H; change "1" with (pretty 1%nat) in H; apply (inj pretty) in H; lia).
    rewrite lookup_insert_ne
      by (intros H; change "0" with (pretty 0%nat) in H; apply (inj pretty) in H; lia).
    rewrite lookup_insert_ne by (intros H; by apply (pretty_not_u k)).
    apply lookup_singleton_ne. intros H. by apply (pretty_not_w k).
Qed.

(** X18 on the example: a gradient for ["0"], the first moment of ["w"]. *)
Lemma gradient_for_moment_variable_witness :
  ∃ e' nv,
    Aliasing.updateVariable momentObjects "0" exampleGradient = Some e' ∧
    accumulatedFirstMoment (optimizer (view e')) !! "w" = Some nv ∧
    values nv !! 0%nat =
      Some (newParameter 1 1 (1/2) (1/2) 0 (newFirst (1/2) 0 1) (newSecond (1/2) 0 1)).
Proof.
  destruct (gradient_for_moment_variable momentObjects "w" "0" exampleGradient
              (Aliasing.mkVariable false zeroGradient) momentObjects_separated)
    as (e' & nv & E & Hnv & _ & Hpt); try reflexivity.
  exists e', nv. split; [exact E|]. split; [exact Hnv|].
  rewrite (Hpt 0%nat 1 0 eq_refl eq_refl). simpl. by rewrite Ropp_involutive.
Defined.

(** ** Separation is kept *)

Lemma materialize_separated vars next m m' name value m1 en1 :
  momentsRegistered vars m → momentsRegistered vars m' → momentsDistinct m m' →
  counterFresh (Aliasing.mkEngine vars next) →
  Aliasing.materialize (Aliasing.mkEngine vars next) m name value = Some (m1, en1) →
  momentsRegistered (Aliasing.registeredVariables en1) m1 ∧
  momentsRegistered (Aliasing.registeredVariables en1) m' ∧
  momentsDistinct m1 m' ∧ counterFresh en1.
Proof.
  intros R1 R2 (I1 & I2 & D) Hf
    [(moment & Hm & -> & ->)|(v & Hm & -> & Hfree & -> & ->)]%materialize_inv;
    [done|]. simpl in *.
  set (h := pretty next) in *.
  assert (Hno : ∀ (mm : gmap string string) n, momentsRegistered vars mm → mm !! n ≠ Some h).
  { intros mm n Rm Hn. destruct (Rm _ _ Hn) as (var & Hvar & _). congruence. }
  split; [|split; [|split]].
  - intros n moment Hn. destruct (decide (n = name)) as [->|Hne].
    + rewrite lookup_insert_eq in Hn. injection Hn as <-.
      eexists. rewrite lookup_insert_eq. done.
    + rewrite lookup_insert_ne in Hn by done.
      destruct (R1 _ _ Hn) as (var & Hvar & Htr). exists var.
      rewrite lookup_insert_ne; [done|]. intros <-. congruence.
  - intros n moment Hn. destruct (R2 _ _ Hn) as (var & Hvar & Htr). exists var.
    rewrite lookup_insert_ne; [done|]. intros <-. congruence.
  - split; [|split].
    + intros n n' moment H1 H2.
      destruct (decide (n = name)) as [->|Hne], (decide (n' = name)) as [->|Hne'].
      * done.
      * rewrite lookup_insert_eq in H1. rewrite lookup_insert_ne in H2 by done.
        injection H1 as <-. by destruct (Hno m n' R1).
      * rewrite lookup_insert_eq in H2. rewrite lookup_insert_ne in H1 by done.
        injection H2 as <-. by destruct (Hno m n R1).
      * rewrite lookup_insert_ne in H1, H2 by done. by eapply I1.
    + done.
    + intros n n' moment H1 H2. destruct (decide (n = name)) as [->|Hne].
      * rewrite lookup_insert_eq in H1. injection H1 as <-. by destruct (Hno m' n' R2).
      * rewrite lookup_insert_ne in H1 by done. by eapply D.
  - by apply counterFresh_insert_next.
Qed.

Lemma momentsRegistered_kept vars vars' m :
  variableKept vars vars' → momentsRegistered vars m → momentsRegistered vars' m.
Proof.
  intros K R n moment Hn. destruct (R _ _ Hn) as (var & Hv & Ht).
  destruct (K _ _ Hv) as (var' & Hv' & Ht' & _). exists var'. split; [done|congruence].
Qed.

Lemma updateVariable_separated e name g e' :
  separated e → Aliasing.updateVariable e name g = Some e' → separated e'.
Proof.
  destruct e as [o [vars next]]. intros (R1 & R2 & DD & Hf) H. simpl in *.
  unfold Aliasing.updateVariable in H. simpl in H.
  destruct (Aliasing.materialize _ (Aliasing.accumulatedFirstMoment o) _ _)
    as [[m1 [vars1 next1]]|] eqn:E1; simpl in H; [|done].
  destruct (Aliasing.materialize _ (Aliasing.accumulatedSecondMoment o) _ _)
    as [[m2 [vars2 next2]]|] eqn:E2; simpl in H; [|done].
  destruct (m1 !! name) as [hf|]; simpl in H; [|done].
  destruct (m2 !! name) as [hs|]; simpl in H; [|done].
  destruct (Aliasing.tidyBody _ _ _ _ _ _) as [vars'|] eqn:Et; simpl in H; [|done].
  injection H as <-.
  destruct (materialize_separated _ _ _ _ _ _ _ _ R1 R2 DD Hf E1) as (R11 & R12 & D1 & Hf1).
  simpl in *.
  destruct (materialize_separated _ _ _ _ _ _ _ _ R12 R11 (momentsDistinct_sym _ _ D1) Hf1 E2)
    as (R22 & R21 & D2 & Hf2).
  simpl in *.
  destruct (tidyBody_kept _ _ _ _ _ _ _ Et) as (Kt & Dt & _).
  split; [by eapply momentsRegistered_kept|]. split; [by eapply momentsRegistered_kept|].
  split; [by apply momentsDistinct_sym|].
  intros k Hk. simpl in *. apply not_elem_of_dom. rewrite Dt. apply not_elem_of_dom.
  by apply Hf2.
Qed.

Lemma forIn_separated e grads e' :
  separated e → Aliasing.forIn e grads = Some e' → separated e'.
Proof.
  revert e. induction grads as [|[n g] grads IH]; intros e Hs H; simpl in H.
  - by injection H as <-.
  - destruct (Aliasing.updateVariable e n g) as [e1|] eqn:E1; simpl in H; [|done].
    eapply IH; [|exact H]. by eapply updateVariable_separated.
Qed.

Lemma applyGradients_separated e grads e' :
  separated e → Aliasing.applyGradients e grads = Some e' → separated e'.
Proof.
  unfold Aliasing.applyGradients. intros Hs H.
  destruct (Aliasing.forIn e grads) as [e1|] eqn:E1; simpl in H; [|done].
  injection H as <-. by apply (forIn_separated _ _ _ Hs) in E1.
Qed.

(** X19. The states the optimizer reaches are separated: a freshly
    constructed optimizer is, on an engine whose counter generates free
    names, and every completed sequence of calls, whatever the names of
    its gradient maps, keeps the state so. *)
Theorem separated_invariant super_ lr b1 b2 epsilon en calls e' :
  counterFresh en →
  Aliasing.applyAll
    (Aliasing.mkEnv (Aliasing.new_AdamOptimizer super_ lr b1 b2 epsilon) en) calls
    = Some e' →
  separated e'.
Proof.
  intros Hf.
  assert (Hs : separated
                 (Aliasing.mkEnv (Aliasing.new_AdamOptimizer super_ lr b1 b2 epsilon) en)).
  { split; [done|]. split; [done|]. split; [done|]. exact Hf. }
  revert Hs. generalize (Aliasing.mkEnv (Aliasing.new_AdamOptimizer super_ lr b1 b2 epsilon) en).
  induction calls as [|grads calls IH]; intros e Hs H; simpl in H.
  - by injection H as <-.
  - destruct (Aliasing.applyGradients e grads) as [e1|] eqn:E1; simpl in H; [|done].
    eapply IH; [|exact H]. by eapply applyGradients_separated.
Qed.

Lemma exampleEngine_fresh : counterFresh exampleEngine.
Proof. by destruct exampleObjects_separated as (_ & _ & _ & Hf). Qed.

(** X19 on the example: a call for the parameters, then a call for the
    name of a moment variable. *)
Lemma separated_invariant_witness :
  ∃ e', Aliasing.applyAll exampleObjects
          [[("w", exampleGradient); ("u", zeroGradient)]; [("0", exampleGradient)]]
          = Some e' ∧
        separated e'.
Proof.
  eexists. split; [vm_compute; reflexivity|].
  apply (separated_invariant noGraph 1 (1/2) (1/2) (Some 1) exampleEngine
           [[("w", exampleGradient); ("u", zeroGradient)]; [("0", exampleGradient)]]).
  - exact exampleEngine_fresh.
  - vm_compute. reflexivity.
Defined.
